(** * back-finance: the e-mail classification and extraction workers

    A shallow embedding of the two Cloudflare e-mail workers of the
    repository (the legacy Mercado Pago worker and the multi-institution
    worker), with the properties of their parsing pipeline.

    JavaScript strings are sequences of UTF-16 code units; they are
    modelled as [list N].  Regular expressions are modelled by a small
    backtracking matcher over an abstract syntax that covers the fragment
    the workers use.  Numbers are IEEE 754 doubles: [parseFloat] rounds
    the decimal value it reads to the nearest double and overflows to
    [Infinity]. *)

From Stdlib Require Import String Ascii.
From Stdlib Require Import List NArith ZArith QArith Bool Lia.
From Stdlib Require Qcanon Qpower Qabs.
Import ListNotations.
Close Scope Q_scope.
Open Scope string_scope.
Open Scope list_scope.

Set Implicit Arguments.

(** ** JavaScript strings *)

Module JS.

Definition jsstr := list N.

(** Source literals are written as UTF-8 text and decoded to code units. *)
Fixpoint utf16_of_utf8 (bs : list N) : jsstr :=
  match bs with
  | [] => []
  | b0 :: t0 =>
    if b0 <? 0x80 then b0 :: utf16_of_utf8 t0
    else if b0 <? 0xE0 then
      match t0 with
      | b1 :: t1 => ((b0 mod 0x20) * 0x40 + b1 mod 0x40) :: utf16_of_utf8 t1
      | [] => [0xFFFD]
      end
    else if b0 <? 0xF0 then
      match t0 with
      | b1 :: b2 :: t2 =>
        ((b0 mod 0x10) * 0x1000 + (b1 mod 0x40) * 0x40 + b2 mod 0x40)
          :: utf16_of_utf8 t2
      | _ => [0xFFFD]
      end
    else
      match t0 with
      | b1 :: b2 :: b3 :: t3 =>
        let cp := (b0 mod 0x8) * 0x40000 + (b1 mod 0x40) * 0x1000
                  + (b2 mod 0x40) * 0x40 + b3 mod 0x40 - 0x10000 in
        (0xD800 + cp / 0x400) :: (0xDC00 + cp mod 0x400) :: utf16_of_utf8 t3
      | _ => [0xFFFD]
      end
  end%N.

Definition js (s : string) : jsstr :=
  utf16_of_utf8 (map (fun b => N.of_nat (Byte.to_nat b)) (list_byte_of_string s)).

Fixpoint str_eqb (a b : jsstr) : bool :=
  match a, b with
  | [], [] => true
  | x :: a', y :: b' => (x =? y)%N && str_eqb a' b'
  | _, _ => false
  end.

(** [s.startsWith(p)] *)
Fixpoint startsWith (s p : jsstr) : bool :=
  match p, s with
  | [], _ => true
  | y :: p', x :: s' => (x =? y)%N && startsWith s' p'
  | _ :: _, [] => false
  end.

(** [s.endsWith(p)] *)
Definition endsWith (s p : jsstr) : bool :=
  (length p <=? length s)%nat && str_eqb (skipn (length s - length p) s) p.

(** [s.includes(p)] *)
Fixpoint includes (s p : jsstr) : bool :=
  startsWith s p ||
  match s with
  | [] => false
  | _ :: s' => includes s' p
  end.

(** [s.substring(a, b)]: indices are clamped to the length and swapped
    when [a > b]. *)
Definition substring (s : jsstr) (a b : nat) : jsstr :=
  let a' := Nat.min a (length s) in
  let b' := Nat.min b (length s) in
  firstn (Nat.max a' b' - Nat.min a' b') (skipn (Nat.min a' b') s).

(** White space and line terminators of ECMAScript ([\s] and [trim]). *)
Definition isWhiteSpace (c : N) : bool :=
  ((9 <=? c) && (c <=? 13) || (c =? 32) || (c =? 0xA0) || (c =? 0x1680)
   || (0x2000 <=? c) && (c <=? 0x200A) || (c =? 0x2028) || (c =? 0x2029)
   || (c =? 0x202F) || (c =? 0x205F) || (c =? 0x3000) || (c =? 0xFEFF))%N.

Fixpoint trimStart (s : jsstr) : jsstr :=
  match s with
  | c :: s' => if isWhiteSpace c then trimStart s' else s
  | [] => []
  end.

Definition trimEnd (s : jsstr) : jsstr := rev (trimStart (rev s)).

(** [s.trim()] *)
Definition trim (s : jsstr) : jsstr := trimEnd (trimStart s).

(** [parts.join(sep)] *)
Fixpoint join (sep : jsstr) (parts : list jsstr) : jsstr :=
  match parts with
  | [] => []
  | [p] => p
  | p :: ps => p ++ sep ++ join sep ps
  end.

(** [list.includes(x)] on an array of strings *)
Definition arr_includes (l : list jsstr) (x : jsstr) : bool :=
  existsb (str_eqb x) l.

End JS.
Import JS.


(** ** Regular expressions

    The abstract syntax covers what the workers' patterns use: character
    classes, concatenation, alternation, a quantifier applied to one
    character class (greedy or lazy, with bounds), an optional group,
    capturing groups and the anchors.  The matcher is the backtracking
    matcher of ECMAScript written with continuations: the first way of
    matching, in priority order, is the result. *)

Module Regex.

(** A character class: [[...]] or [[^...]] over inclusive code-unit ranges. *)
Record cset := Cset { cs_neg : bool; cs_ranges : list (N * N) }.

Inductive regex :=
| REmpty
| RChar (c : cset)
| RSeq (a b : regex)
| RAlt (a b : regex)
| RRep (c : cset) (lo : nat) (hi : option nat) (greedy : bool)
| ROpt (r : regex)
| RGroup (n : nat) (r : regex)
| RBol
| REol.

(** The flags [i] and [m]; [g] is a property of the caller's loop. *)
Record flags := Flags { ignoreCase : bool; multiline : bool }.

Definition in_ranges (rs : list (N * N)) (c : N) : bool :=
  existsb (fun r => (fst r <=? c) && (c <=? snd r))%N rs.

(** Simple case mappings on Basic Latin and Latin-1 (with the pair
    U+00FF / U+0178).  Under the [i] flag two code units match when their
    canonical (upper-case) forms agree; for the characters that occur in
    the workers' patterns the case classes lie inside this range. *)
Definition upper1 (c : N) : N :=
  (if (97 <=? c) && (c <=? 122) then c - 32
   else if (0xE0 <=? c) && (c <=? 0xFE) && negb (c =? 0xF7) then c - 32
   else if c =? 0xFF then 0x178
   else c)%N.

Definition lower1 (c : N) : N :=
  (if (65 <=? c) && (c <=? 90) then c + 32
   else if (0xC0 <=? c) && (c <=? 0xDE) && negb (c =? 0xD7) then c + 32
   else if c =? 0x178 then 0xFF
   else c)%N.

Definition cs_match (fl : flags) (cs : cset) (c : N) : bool :=
  let found :=
    in_ranges (cs_ranges cs) c
    || (ignoreCase fl
        && (in_ranges (cs_ranges cs) (upper1 c) || in_ranges (cs_ranges cs) (lower1 c))) in
  xorb (cs_neg cs) found.

Definition isLineTerminator (c : N) : bool :=
  ((c =? 10) || (c =? 13) || (c =? 0x2028) || (c =? 0x2029))%N.

(** The matcher's state: the index reached, the code unit before it, the
    input that remains and the captures made so far. *)
Record mstate := MState
  { pos : nat; prev : option N; rest : jsstr; caps : list (nat * jsstr) }.

Definition at_bol (fl : flags) (st : mstate) : bool :=
  match prev st with
  | None => true
  | Some c => multiline fl && isLineTerminator c
  end.

Definition at_eol (fl : flags) (st : mstate) : bool :=
  match rest st with
  | [] => true
  | c :: _ => multiline fl && isLineTerminator c
  end.

Definition more_allowed (hi : option nat) : bool :=
  match hi with Some 0 => false | _ => true end.

Definition dec_hi (hi : option nat) : option nat :=
  match hi with Some n => Some (pred n) | None => None end.

(** A quantified character class [c{lo,hi}] (or [c{lo,hi}?]) from index
    [p] on the input [l]. *)
Fixpoint rep (fl : flags) (cs : cset) (greedy : bool) (lo : nat) (hi : option nat)
    (l : jsstr) (p : nat) (pv : option N) (cp : list (nat * jsstr))
    (k : mstate -> option mstate) : option mstate :=
  let stop (_ : unit) :=
    match lo with 0 => k (MState p pv l cp) | S _ => None end in
  let more (_ : unit) :=
    match l with
    | c :: tl =>
      if more_allowed hi && cs_match fl cs c
      then rep fl cs greedy (pred lo) (dec_hi hi) tl (S p) (Some c) cp k
      else None
    | [] => None
    end in
  if greedy
  then match more tt with Some r => Some r | None => stop tt end
  else match stop tt with Some r => Some r | None => more tt end.

Fixpoint rmatch (fl : flags) (r : regex) (st : mstate)
    (k : mstate -> option mstate) : option mstate :=
  match r with
  | REmpty => k st
  | RChar cs =>
    match rest st with
    | c :: tl =>
      if cs_match fl cs c then k (MState (S (pos st)) (Some c) tl (caps st)) else None
    | [] => None
    end
  | RSeq a b => rmatch fl a st (fun st' => rmatch fl b st' k)
  | RAlt a b =>
    match rmatch fl a st k with
    | Some r => Some r
    | None => rmatch fl b st k
    end
  | RRep cs lo hi greedy => rep fl cs greedy lo hi (rest st) (pos st) (prev st) (caps st) k
  | ROpt a =>
    match rmatch fl a st k with
    | Some r => Some r
    | None => k st
    end
  | RGroup n a =>
    rmatch fl a st (fun st' =>
      k (MState (pos st') (prev st') (rest st')
                ((n, firstn (pos st' - pos st) (rest st)) :: caps st')))
  | RBol => if at_bol fl st then k st else None
  | REol => if at_eol fl st then k st else None
  end.

(** A successful match: where it starts and ends, the matched text and
    the captures. *)
Record rmatch_result := Match
  { m_index : nat; m_end : nat; m_text : jsstr; m_caps : list (nat * jsstr) }.

(** [match[n]] for a capturing group. *)
Definition group (n : nat) (m : rmatch_result) : option jsstr :=
  match find (fun e => Nat.eqb (fst e) n) (m_caps m) with
  | Some e => Some (snd e)
  | None => None
  end.

(** An attempt at one index. *)
Definition match_at (fl : flags) (r : regex) (p : nat) (pv : option N) (l : jsstr)
  : option rmatch_result :=
  match rmatch fl r (MState p pv l []) Some with
  | Some st => Some (Match p (pos st) (firstn (pos st - p) l) (caps st))
  | None => None
  end.

(** The leftmost match at or after index [p]. *)
Fixpoint search (fl : flags) (r : regex) (p : nat) (pv : option N) (l : jsstr)
  : option rmatch_result :=
  match match_at fl r p pv l with
  | Some m => Some m
  | None =>
    match l with
    | c :: tl => search fl r (S p) (Some c) tl
    | [] => None
    end
  end.

(** [s.match(re)] for a pattern without [g], and [re.test(s)]. *)
Definition str_match (fl : flags) (r : regex) (s : jsstr) : option rmatch_result :=
  search fl r 0 None s.

Definition test (fl : flags) (r : regex) (s : jsstr) : bool :=
  match str_match fl r s with Some _ => true | None => false end.

(** All matches of a [g] pattern as [replace], [split] and [match] find
    them: after a match the search resumes at its end, and after an empty
    match one code unit further.  [skip] counts the code units of the
    previous match still to step over. *)
Fixpoint match_all_from (fl : flags) (r : regex) (skip : nat) (p : nat) (pv : option N)
    (l : jsstr) : list rmatch_result :=
  match skip with
  | S skip' =>
    match l with
    | c :: tl => match_all_from fl r skip' (S p) (Some c) tl
    | [] => []
    end
  | 0 =>
    match match_at fl r p pv l with
    | Some m =>
      m :: match l with
           | c :: tl => match_all_from fl r (pred (m_end m - p)) (S p) (Some c) tl
           | [] => []
           end
    | None =>
      match l with
      | c :: tl => match_all_from fl r 0 (S p) (Some c) tl
      | [] => []
      end
    end
  end.

Definition match_all (fl : flags) (r : regex) (s : jsstr) : list rmatch_result :=
  match_all_from fl r 0 0 None s.

(** [s.replace(re, f)] for a [g] pattern: every match is replaced by
    [f match]. *)
Fixpoint replace_from (ms : list rmatch_result) (f : rmatch_result -> jsstr)
    (p : nat) (l : jsstr) : jsstr :=
  match ms with
  | [] => l
  | m :: ms' =>
    firstn (m_index m - p) l ++ f m
      ++ replace_from ms' f (m_end m) (skipn (m_end m - p) l)
  end.

Definition replace_all (fl : flags) (r : regex) (f : rmatch_result -> jsstr) (s : jsstr)
  : jsstr :=
  replace_from (match_all fl r s) f 0 s.

(** [s.split(re)] for a pattern without captures that matches no empty
    string. *)
Fixpoint split_from (ms : list rmatch_result) (p : nat) (l : jsstr) : list jsstr :=
  match ms with
  | [] => [l]
  | m :: ms' =>
    firstn (m_index m - p) l :: split_from ms' (m_end m) (skipn (m_end m - p) l)
  end.

Definition split (fl : flags) (r : regex) (s : jsstr) : list jsstr :=
  split_from (match_all fl r s) 0 s.

(** *** Pattern syntax helpers *)

Definition one (c : N) : cset := Cset false [(c, c)].
Definition chr (s : string) : cset := Cset false (map (fun c => (c, c)) (js s)).
Definition range (a b : string) : list (N * N) :=
  match js a, js b with
  | [x], [y] => [(x, y)]
  | _, _ => []
  end.
Definition ws_ranges : list (N * N) :=
  [(9, 13); (32, 32); (0xA0, 0xA0); (0x1680, 0x1680); (0x2000, 0x200A);
   (0x2028, 0x2029); (0x202F, 0x202F); (0x205F, 0x205F); (0x3000, 0x3000);
   (0xFEFF, 0xFEFF)]%N.
Definition digit_ranges : list (N * N) := [(48, 57)]%N.
Definition chars (s : string) : list (N * N) := map (fun c => (c, c)) (js s).
(** [\s], [\d], [.] *)
Definition cs_space : cset := Cset false ws_ranges.
Definition cs_digit : cset := Cset false digit_ranges.
Definition cs_dot : cset := Cset true [(10, 10); (13, 13); (0x2028, 0x2029)]%N.
Definition cls (rs : list (N * N)) : cset := Cset false rs.
Definition ncls (rs : list (N * N)) : cset := Cset true rs.

(** A literal string. *)
Fixpoint lit_units (s : jsstr) : regex :=
  match s with
  | [] => REmpty
  | [c] => RChar (one c)
  | c :: s' => RSeq (RChar (one c)) (lit_units s')
  end.
Definition lit (s : string) : regex := lit_units (js s).

Fixpoint rseq (rs : list regex) : regex :=
  match rs with
  | [] => REmpty
  | [r] => r
  | r :: rs' => RSeq r (rseq rs')
  end.

Fixpoint alt (rs : list regex) : regex :=
  match rs with
  | [] => REmpty
  | [r] => r
  | r :: rs' => RAlt r (alt rs')
  end.

Definition star (c : cset) : regex := RRep c 0 None true.
Definition plus (c : cset) : regex := RRep c 1 None true.
Definition opt1 (c : cset) : regex := RRep c 0 (Some 1) true.
Definition exactly (n : nat) (c : cset) : regex := RRep c n (Some n) true.
Definition at_least (n : nat) (c : cset) : regex := RRep c n None true.
Definition between (lo hi : nat) (c : cset) : regex := RRep c lo (Some hi) true.
Definition lazy_between (lo hi : nat) (c : cset) : regex := RRep c lo (Some hi) false.
Definition lazy_star (c : cset) : regex := RRep c 0 None false.

Definition no_flags := Flags false false.
Definition flag_i := Flags true false.
Definition flag_mi := Flags true true.

End Regex.
Import Regex.

(** ** Numbers

    A JavaScript number is [NaN], an infinity or a finite double.  A
    finite double is kept as the rational it stands for, in lowest
    terms. *)

Module Num.

Inductive jsnum :=
| NaN
| NegInf
| Fin (q : Q)
| PosInf.

Definition zero : jsnum := Fin 0.

(** [a > b] *)
Definition gt (a b : jsnum) : bool :=
  match a, b with
  | NaN, _ | _, NaN => false
  | PosInf, PosInf => false
  | PosInf, _ => true
  | _, PosInf => false
  | NegInf, _ => false
  | Fin _, NegInf => true
  | Fin x, Fin y => negb (Qle_bool x y)
  end.

(** [a <= b] *)
Definition le (a b : jsnum) : bool :=
  match a, b with
  | NaN, _ | _, NaN => false
  | _, PosInf => true
  | PosInf, _ => false
  | NegInf, _ => true
  | Fin _, NegInf => false
  | Fin x, Fin y => Qle_bool x y
  end.

Definition isNaN (a : jsnum) : bool :=
  match a with NaN => true | _ => false end.

(** [!a] for a number: true for [0] and [NaN]. *)
Definition falsy (a : jsnum) : bool :=
  match a with
  | NaN => true
  | Fin q => Qeq_bool q 0
  | _ => false
  end.

Definition isDigit (c : N) : bool := ((48 <=? c) && (c <=? 57))%N.

Fixpoint span_digits (s : jsstr) : jsstr * jsstr :=
  match s with
  | c :: s' =>
    if isDigit c then let (d, r) := span_digits s' in (c :: d, r) else ([], s)
  | [] => ([], [])
  end.

(** The value of a string of decimal digits. *)
Definition digits_value (ds : jsstr) : N :=
  fold_left (fun a d => 10 * a + (d - 48))%N ds 0%N.

(** The exponent part [e[+-]digits] of a decimal literal, when present. *)
Definition exponent (s : jsstr) : Z :=
  match s with
  | c :: s' =>
    if ((c =? 101) || (c =? 69))%N then
      match s' with
      | c' :: s'' =>
        if (c' =? 45)%N then (- Z.of_N (digits_value (fst (span_digits s''))))%Z
        else if (c' =? 43)%N then Z.of_N (digits_value (fst (span_digits s'')))
        else Z.of_N (digits_value (fst (span_digits s')))
      | [] => 0%Z
      end
    else 0%Z
  | [] => 0%Z
  end.

(** *** The Number value of a real

    A Number is an IEEE 754 double.  [to_double x] is the Number value
    for the rational [x] (ECMAScript 6.1.6.1): the double nearest to [x],
    a tie going to the one with the even significand, and an infinity
    when the rounded value reaches [2^1024].  Both zeros are [Fin 0]. *)

(** [n / d] rounded to the nearest integer, a tie to the even one
    ([0 <= n], [0 < d]). *)
Definition round_half_even (n d : Z) : Z :=
  let q := (n / d)%Z in
  match (2 * (n mod d) ?= d)%Z with
  | Lt => q
  | Eq => if Z.even q then q else (q + 1)%Z
  | Gt => (q + 1)%Z
  end.

(** [n * 2 ^ k] for [0 <= k], and [n] itself for [k < 0]. *)
Definition scale (n k : Z) : Z := (n * 2 ^ Z.max 0 k)%Z.

(** The integer part of the binary logarithm of [n / d] ([0 < n],
    [0 < d]). *)
Definition log2_ratio (n d : Z) : Z :=
  let e0 := (Z.log2 n - Z.log2 d)%Z in
  if (scale d e0 <=? scale n (- e0))%Z then e0 else (e0 - 1)%Z.

(** The significand and the exponent of the double nearest to [n / d]:
    a significand of 53 bits, and an exponent that is never below
    [-1074], the one of the subnormal numbers. *)
Definition significand_exponent (n d : Z) : Z * Z :=
  let e := Z.max (log2_ratio n d - 52) (-1074) in
  (round_half_even (scale n (- e)) (scale d e), e).

(** [m * 2 ^ e] as a fraction in lowest terms. *)
Definition binary_value (m e : Z) : Q :=
  Qred (scale m e # Z.to_pos (scale 1 (- e))).

(** The double nearest to [n / d] for [0 < n] and [0 < d]; [None] when
    the rounded value reaches [2^1024]. *)
Definition round_positive (n d : Z) : option Q :=
  let (m, e) := significand_exponent n d in
  if (2 ^ (1024 - e) <=? m)%Z then None else Some (binary_value m e).

Definition to_double (x : Q) : jsnum :=
  let r := Qred x in
  match Qnum r with
  | Z0 => Fin 0
  | Zpos n =>
    match round_positive (Zpos n) (Zpos (Qden r)) with
    | Some v => Fin v
    | None => PosInf
    end
  | Zneg n =>
    match round_positive (Zpos n) (Zpos (Qden r)) with
    | Some v => Fin (Qred (- v))
    | None => NegInf
    end
  end.

(** The decimal literal at the head of [s], after the sign: [Infinity],
    or digits with an optional fraction and exponent, rounded to a
    Number. *)
Definition parse_decimal (neg : bool) (s : jsstr) : jsnum :=
  if startsWith s (js "Infinity") then (if neg then NegInf else PosInf)
  else
    let (ip, s3) := span_digits s in
    let (fp, s4) :=
      match s3 with
      | c :: t => if (c =? 46)%N then span_digits t else ([], s3)
      | [] => ([], s3)
      end in
    match ip, fp with
    | [], [] => NaN
    | _, _ =>
      let m := (Z.of_N (digits_value ip) # 1)
               + (Z.of_N (digits_value fp) # 1) / ((10 # 1) ^ Z.of_nat (length fp)) in
      let v := m * (10 # 1) ^ exponent s4 in
      to_double (if neg then - v else v)
    end%Q.

(** [parseFloat(s)]: leading white space is skipped, then the longest
    prefix that is a decimal literal is read; [NaN] when there is none. *)
Definition parseFloat (s : jsstr) : jsnum :=
  match trimStart s with
  | c :: t =>
    if (c =? 45)%N then parse_decimal true t
    else if (c =? 43)%N then parse_decimal false t
    else parse_decimal false (c :: t)
  | [] => parse_decimal false []
  end.

End Num.
Import Num.

(** ** Amount extraction (both workers) *)

(** [s.replace(',', '.')]: a string pattern replaces its first occurrence. *)
Fixpoint replace_first (s pat by_ : jsstr) : jsstr :=
  if startsWith s pat then by_ ++ skipn (length pat) s
  else match s with
       | c :: s' => c :: replace_first s' pat by_
       | [] => []
       end.

(** [/,\d{2}$/] *)
Definition re_decimal_tail : regex :=
  rseq [lit ","; exactly 2 cs_digit; REol].

(** [/\./g] *)
Definition re_dot : regex := lit ".".

(** The string [parseArgentineAmount] hands to [parseFloat]. *)
Definition clean_amount (str : jsstr) : jsstr :=
  let cleaned := trim str in
  if test no_flags re_decimal_tail cleaned
  then replace_first (replace_all no_flags re_dot (fun _ => []) cleaned) (js ",") (js ".")
  else replace_all no_flags re_dot (fun _ => []) cleaned.

Definition parseArgentineAmount (str : jsstr) : jsnum :=
  let amount := parseFloat (clean_amount str) in
  if isNaN amount then zero else amount.

(** [([\d.]+(?:,\d{2})?)] *)
Definition re_number : regex :=
  RGroup 1 (RSeq (plus (cls (digit_ranges ++ chars ".")))
                 (ROpt (RSeq (lit ",") (exactly 2 cs_digit)))).

(** [/\$\s*([\d.]+(?:,\d{2})?)/g] and [/ARS\s*([\d.]+(?:,\d{2})?)/gi] *)
Definition amount_patterns : list (flags * regex) :=
  [ (no_flags, rseq [lit "$"; star cs_space; re_number]);
    (flag_i, rseq [lit "ARS"; star cs_space; re_number]) ].

(** [re.exec(text)] for a [g] pattern whose [lastIndex] is [i]: the
    leftmost match at or after index [i]; the caller stores [m_end] of the
    result as the new [lastIndex]. *)
Fixpoint exec_from (fl : flags) (r : regex) (i : nat) (p : nat) (pv : option N)
    (l : jsstr) : option rmatch_result :=
  match i with
  | 0 => search fl r p pv l
  | S i' =>
    match l with
    | c :: tl => exec_from fl r i' (S p) (Some c) tl
    | [] => None
    end
  end.

Definition exec (fl : flags) (r : regex) (text : jsstr) (lastIndex : nat)
  : option rmatch_result :=
  exec_from fl r lastIndex 0 None text.

(** [match[1]]; the group of the amount patterns always takes part. *)
Definition capture1 (m : rmatch_result) : jsstr :=
  match group 1 m with Some s => s | None => [] end.

(** The body of the [while] loop. *)
Definition amount_step (maxAmount : jsnum) (m : rmatch_result) : jsnum :=
  let amount := parseArgentineAmount (capture1 m) in
  if gt amount maxAmount then amount else maxAmount.

(** [while ((match = pattern.exec(text)) !== null) { ... }]: [None] when
    the fuel runs out before [exec] returns [null]. *)
Fixpoint amount_loop (fuel : nat) (fl : flags) (r : regex) (text : jsstr)
    (lastIndex : nat) (maxAmount : jsnum) : option jsnum :=
  match fuel with
  | 0 => None
  | S fuel' =>
    match exec fl r text lastIndex with
    | None => Some maxAmount
    | Some m => amount_loop fuel' fl r text (m_end m) (amount_step maxAmount m)
    end
  end.

(** The [for] loop over the patterns, each from [lastIndex = 0]. *)
Fixpoint amount_patterns_loop (fuel : nat) (ps : list (flags * regex)) (text : jsstr)
    (maxAmount : jsnum) : option jsnum :=
  match ps with
  | [] => Some maxAmount
  | (fl, r) :: ps' =>
    match amount_loop fuel fl r text 0 maxAmount with
    | Some maxAmount' => amount_patterns_loop fuel ps' text maxAmount'
    | None => None
    end
  end.

Definition extractAmount_fuel (fuel : nat) (text : jsstr) : option jsnum :=
  amount_patterns_loop fuel amount_patterns text zero.

(** All matches of the two patterns on the text, in the order the loops
    meet them, and the values they parse to. *)
Definition amount_matches (text : jsstr) : list rmatch_result :=
  flat_map (fun p => match_all (fst p) (snd p) text) amount_patterns.

Definition amount_candidates (text : jsstr) : list jsnum :=
  map (fun m => parseArgentineAmount (capture1 m)) (amount_matches text).

(** [extractAmount(text)]: each match moves [lastIndex] forward, so
    [length text + 1] iterations per pattern are enough (lemma
    [extractAmount_fuel_enough]). *)
Definition extractAmount (text : jsstr) : jsnum :=
  match extractAmount_fuel (S (length text)) text with
  | Some a => a
  | None => zero
  end.

(** ** The e-mail fingerprint: SHA-256 in lower-case hexadecimal

    [crypto.subtle.digest('SHA-256', data)] is FIPS 180-4 SHA-256 over
    the UTF-8 encoding that [TextEncoder] produces. *)

Module Sha256.

Definition w32 : N := 0x100000000.
Definition add32 (a b : N) : N := ((a + b) mod w32)%N.
Definition rotr (n : N) (x : N) : N :=
  (N.lor (N.shiftr x n) (N.shiftl x (32 - n) mod w32))%N.
Definition shr (n : N) (x : N) : N := N.shiftr x n.
Definition not32 (x : N) : N := (w32 - 1 - x)%N.

Definition Ch (x y z : N) : N := N.lxor (N.land x y) (N.land (not32 x) z).
Definition Maj (x y z : N) : N :=
  N.lxor (N.lxor (N.land x y) (N.land x z)) (N.land y z).
Definition Sigma0 (x : N) : N := N.lxor (N.lxor (rotr 2 x) (rotr 13 x)) (rotr 22 x).
Definition Sigma1 (x : N) : N := N.lxor (N.lxor (rotr 6 x) (rotr 11 x)) (rotr 25 x).
Definition sigma0 (x : N) : N := N.lxor (N.lxor (rotr 7 x) (rotr 18 x)) (shr 3 x).
Definition sigma1 (x : N) : N := N.lxor (N.lxor (rotr 17 x) (rotr 19 x)) (shr 10 x).

(** The first primes, by trial division. *)
Definition is_prime (n : nat) : bool :=
  forallb (fun d => negb (Nat.eqb (n mod d) 0)) (List.seq 2 (n - 2)).

Definition primes (count : nat) : list N :=
  map N.of_nat (firstn count (filter is_prime (List.seq 2 320))).

(** The integer root of order [e]: the bits of the root from bit [k]
    down, kept when the power stays within [n]. *)
Fixpoint iroot (e : N) (k : nat) (n r : N) : N :=
  match k with
  | 0 => r
  | S k' =>
    let r' := (r + 2 ^ N.of_nat k')%N in
    if (r' ^ e <=? n)%N then iroot e k' n r' else iroot e k' n r
  end.

(** The first 32 bits of the fractional part of the root of order [e]. *)
Definition frac_root (e : N) (p : N) : N :=
  (iroot e 40 (p * 2 ^ (32 * e)) 0 mod w32)%N.

(** The round constants: cube roots of the first 64 primes. *)
Definition K : list N := Eval vm_compute in map (frac_root 3) (primes 64).

Definition hstate := (N * N * N * N * N * N * N * N)%type.

(** The initial hash value: square roots of the first 8 primes. *)
Definition H0 : hstate :=
  Eval vm_compute in
    match map (frac_root 2) (primes 8) with
    | [a; b; c; d; e; f; g; h] => (a, b, c, d, e, f, g, h)
    | _ => (0, 0, 0, 0, 0, 0, 0, 0)%N
    end.

(** Big-endian words of a block. *)
Fixpoint words_of_bytes (bs : list N) : list N :=
  match bs with
  | a :: b :: c :: d :: t =>
    (a * 0x1000000 + b * 0x10000 + c * 0x100 + d)%N :: words_of_bytes t
  | _ => []
  end.

(** The message schedule, most recent word first. *)
Fixpoint schedule (n : nat) (rw : list N) : list N :=
  match n with
  | 0 => rw
  | S n' =>
    let w := add32 (add32 (sigma1 (nth 1 rw 0%N)) (nth 6 rw 0%N))
                   (add32 (sigma0 (nth 14 rw 0%N)) (nth 15 rw 0%N)) in
    schedule n' (w :: rw)
  end.

Definition round (s : hstate) (kw : N * N) : hstate :=
  let '(a, b, c, d, e, f, g, h) := s in
  let t1 := add32 (add32 (add32 h (Sigma1 e)) (add32 (Ch e f g) (fst kw))) (snd kw) in
  let t2 := add32 (Sigma0 a) (Maj a b c) in
  (add32 t1 t2, a, b, c, add32 d t1, e, f, g).

Definition compress (s : hstate) (block : list N) : hstate :=
  let ws := rev (schedule 48 (rev (words_of_bytes block))) in
  let '(a, b, c, d, e, f, g, h) := fold_left round (combine K ws) s in
  let '(a0, b0, c0, d0, e0, f0, g0, h0) := s in
  (add32 a0 a, add32 b0 b, add32 c0 c, add32 d0 d,
   add32 e0 e, add32 f0 f, add32 g0 g, add32 h0 h).

(** The message is consumed 64 bytes at a time; [buf] holds the bytes of
    the block being filled, last byte first. *)
Fixpoint absorb (s : hstate) (buf : list N) (n : nat) (bs : list N) : hstate :=
  match bs with
  | [] => s
  | b :: t =>
    match n with
    | 63 => absorb (compress s (rev (b :: buf))) [] 0 t
    | _ => absorb s (b :: buf) (S n) t
    end
  end.

Definition be_bytes (k : nat) (x : N) : list N :=
  map (fun i => (x / 256 ^ N.of_nat i) mod 256)%N (rev (seq 0 k)).

Definition pad (msg : list N) : list N :=
  let len := length msg in
  let zeros := (64 - (len + 9) mod 64) mod 64 in
  msg ++ [0x80%N] ++ repeat 0%N zeros ++ be_bytes 8 (N.of_nat (8 * len)).

Definition sha256 (msg : list N) : list N :=
  let '(a, b, c, d, e, f, g, h) := absorb H0 [] 0 (pad msg) in
  be_bytes 4 a ++ be_bytes 4 b ++ be_bytes 4 c ++ be_bytes 4 d
  ++ be_bytes 4 e ++ be_bytes 4 f ++ be_bytes 4 g ++ be_bytes 4 h.

End Sha256.

(** [new TextEncoder().encode(str)]: UTF-8, a lone surrogate becoming
    U+FFFD. *)
Fixpoint utf8_encode (s : jsstr) : list N :=
  match s with
  | [] => []
  | c :: t =>
    if c <? 0x80 then c :: utf8_encode t
    else if c <? 0x800 then (0xC0 + c / 0x40) :: (0x80 + c mod 0x40) :: utf8_encode t
    else if (0xD800 <=? c) && (c <? 0xDC00) then
      match t with
      | d :: t' =>
        if (0xDC00 <=? d) && (d <? 0xE000) then
          let cp := 0x10000 + (c - 0xD800) * 0x400 + (d - 0xDC00) in
          (0xF0 + cp / 0x40000) :: (0x80 + (cp / 0x1000) mod 0x40)
            :: (0x80 + (cp / 0x40) mod 0x40) :: (0x80 + cp mod 0x40) :: utf8_encode t'
        else 0xEF :: 0xBF :: 0xBD :: utf8_encode t
      | [] => [0xEF; 0xBF; 0xBD]
      end
    else if (0xDC00 <=? c) && (c <? 0xE000) then 0xEF :: 0xBF :: 0xBD :: utf8_encode t
    else (0xE0 + c / 0x1000) :: (0x80 + (c / 0x40) mod 0x40) :: (0x80 + c mod 0x40)
           :: utf8_encode t
  end%N.

Definition hexdigit (d : N) : N := (if d <? 10 then 48 + d else 87 + d)%N.

(** [b.toString(16)] for an element of a [Uint8Array] (below 256). *)
Definition toString16 (b : N) : jsstr :=
  (if b <? 16 then [hexdigit b] else [hexdigit ((b / 16) mod 16); hexdigit (b mod 16)])%N.

(** [s.padStart(n, '0')] *)
Definition padStart0 (n : nat) (s : jsstr) : jsstr :=
  repeat 48%N (n - length s) ++ s.

(** [createHash(str)] *)
Definition createHash (str : jsstr) : jsstr :=
  let data := utf8_encode str in
  let hashArray := Sha256.sha256 data in
  concat (map (fun b => padStart0 2 (toString16 b)) hashArray).

(** The fingerprint the handlers compute:
    [createHash(subject + emailBody.substring(0, 200))]. *)
Definition fingerprint (subject body : jsstr) : jsstr :=
  createHash (subject ++ substring body 0 200).

(** ** Further string helpers *)

(** The line feed. *)
Definition nl : jsstr := [10%N].
(** The double quote. *)
Definition dq : jsstr := [34%N].

(** [s.split(sep)] for a non-empty string separator.  [skip] counts the
    code units of the separator just found that are still to step over;
    [cur] is the piece being read, last code unit first. *)
Fixpoint split_str_from (sep : jsstr) (skip : nat) (cur : jsstr) (l : jsstr)
  : list jsstr :=
  match l with
  | [] => [rev cur]
  | c :: tl =>
    match skip with
    | S k => split_str_from sep k cur tl
    | 0 =>
      if startsWith l sep
      then rev cur :: split_str_from sep (pred (length sep)) [] tl
      else split_str_from sep 0 (c :: cur) tl
    end
  end.

Definition split_str (s sep : jsstr) : list jsstr := split_str_from sep 0 [] s.

(** [s.replace(re, by)] for a pattern without [g]: the first match only. *)
Definition replace_first_re (fl : flags) (r : regex) (by_ : jsstr) (s : jsstr) : jsstr :=
  match str_match fl r s with
  | Some m => firstn (m_index m) s ++ by_ ++ skipn (m_end m) s
  | None => s
  end.

(** [s.replace(/lit/g, by)] for a literal pattern. *)
Definition replace_lit (pat : string) (by_ : string) (s : jsstr) : jsstr :=
  replace_all no_flags (lit pat) (fun _ => js by_) s.

(** [parseInt(hex, 16)] for a string of hexadecimal digits. *)
Definition hex_value (c : N) : N :=
  (if (48 <=? c) && (c <=? 57) then c - 48
   else if (65 <=? c) && (c <=? 70) then c - 55
   else c - 87)%N.

Definition parseInt16 (s : jsstr) : N :=
  fold_left (fun a c => 16 * a + hex_value c)%N s 0%N.

(** [atob(s)]: forgiving base64, [None] when it throws. *)
Definition b64_value (c : N) : option N :=
  (if (65 <=? c) && (c <=? 90) then Some (c - 65)
   else if (97 <=? c) && (c <=? 122) then Some (c - 71)
   else if (48 <=? c) && (c <=? 57) then Some (c + 4)
   else if c =? 43 then Some 62
   else if c =? 47 then Some 63
   else None)%N.

Definition b64_digit (c : N) : N :=
  match b64_value c with Some v => v | None => 0%N end.

Fixpoint b64_groups (s : jsstr) : jsstr :=
  match s with
  | a :: b :: c :: d :: t =>
    let n := (b64_digit a * 0x40000 + b64_digit b * 0x1000
              + b64_digit c * 0x40 + b64_digit d)%N in
    (n / 0x10000)%N :: ((n / 0x100) mod 0x100)%N :: (n mod 0x100)%N :: b64_groups t
  | [a; b; c] =>
    let n := (b64_digit a * 0x400 + b64_digit b * 0x10 + b64_digit c / 4)%N in
    [(n / 0x100)%N; (n mod 0x100)%N]
  | [a; b] => [(b64_digit a * 4 + b64_digit b / 16)%N]
  | _ => []
  end.

Definition is_ascii_ws (c : N) : bool :=
  ((c =? 9) || (c =? 10) || (c =? 12) || (c =? 13) || (c =? 32))%N.

Definition strip_padding (s : jsstr) : jsstr :=
  if Nat.eqb (length s mod 4) 0 then
    match rev s with
    | 61%N :: 61%N :: t => rev t
    | 61%N :: t => rev t
    | _ => s
    end
  else s.

Definition atob (s : jsstr) : option jsstr :=
  let data := strip_padding (filter (fun c => negb (is_ascii_ws c)) s) in
  if Nat.eqb (length data mod 4) 1 then None
  else if forallb (fun c => match b64_value c with Some _ => true | None => false end) data
       then Some (b64_groups data)
       else None.

(** [String.prototype.toLowerCase] on Basic Latin and Latin-1; the code
    units outside these blocks are left as they are.  The workers are
    stated over an arbitrary lower-casing function; this one serves to
    run them on concrete messages written in these blocks. *)
Definition toLowerCaseLatin1 (s : jsstr) : jsstr := map lower1 s.

(** ** The workers *)

Section Worker.

(** [String.prototype.toLowerCase] of the runtime. *)
Variable toLowerCase : jsstr -> jsstr.

(** *** Message normalisation (both workers) *)

(** [extractUserId(email)] with [/^user_([a-z0-9_]+)@/] *)
Definition re_user : regex :=
  rseq [RBol; lit "user_";
        RGroup 1 (plus (cls (range "a" "z" ++ range "0" "9" ++ chars "_"))); lit "@"].

Definition extractUserId (email : jsstr) : option jsstr :=
  match email with
  | [] => None
  | _ =>
    match str_match no_flags re_user (toLowerCase email) with
    | Some m => group 1 m
    | None => None
    end
  end.

(** [extractHeader(rawEmail, headerName)] with
    [new RegExp(`^${headerName}:\\s*(.+)$`, 'mi')]; the header names the
    workers pass hold no pattern syntax. *)
Definition re_header (headerName : string) : regex :=
  rseq [RBol; lit headerName; lit ":"; star cs_space; RGroup 1 (plus cs_dot); REol].

Definition extractHeader (rawEmail : jsstr) (headerName : string) : option jsstr :=
  match str_match flag_mi (re_header headerName) rawEmail with
  | Some m => option_map trim (group 1 m)
  | None => None
  end.

(** [x || ''] for a string or [null]. *)
Definition or_empty (x : option jsstr) : jsstr :=
  match x with Some s => s | None => [] end.

(** A string or [null] in a condition. *)
Definition truthy (x : option jsstr) : bool :=
  match x with Some (_ :: _) => true | _ => false end.

(** [/\r?\n\r?\n/] *)
Definition re_blank_line : regex :=
  rseq [opt1 (one 13); lit_units nl; opt1 (one 13); lit_units nl].

(** [extractMimePart(body, boundary, contentType)] *)
Fixpoint find_mime_part (parts : list jsstr) (contentType : jsstr) : option jsstr :=
  match parts with
  | [] => None
  | part :: parts' =>
    if includes (toLowerCase part) (js "content-type: " ++ contentType) then
      match split no_flags re_blank_line part with
      | _ :: ((_ :: _) as subParts) => Some (trim (join (nl ++ nl) subParts))
      | _ => find_mime_part parts' contentType
      end
    else find_mime_part parts' contentType
  end.

Definition extractMimePart (body boundary contentType : jsstr) : option jsstr :=
  find_mime_part (split_str body (js "--" ++ boundary)) contentType.

(** The class [[\s\S]]: every code unit. *)
Definition cs_any : cset := Cset true [].

(** [stripHtml(html)] *)
Definition re_style : regex :=
  rseq [lit "<style"; star (ncls (chars ">")); lit ">"; lazy_star cs_any; lit "</style>"].
Definition re_script : regex :=
  rseq [lit "<script"; star (ncls (chars ">")); lit ">"; lazy_star cs_any; lit "</script>"].
Definition re_tag : regex := rseq [lit "<"; plus (ncls (chars ">")); lit ">"].

Definition stripHtml (html : jsstr) : jsstr :=
  let s := replace_all flag_i re_style (fun _ => []) html in
  let s := replace_all flag_i re_script (fun _ => []) s in
  let s := replace_all no_flags re_tag (fun _ => js " ") s in
  let s := replace_lit "&nbsp;" " " s in
  let s := replace_lit "&amp;" "&" s in
  let s := replace_lit "&lt;" "<" s in
  let s := replace_lit "&gt;" ">" s in
  let s := replace_all no_flags (plus cs_space) (fun _ => js " ") s in
  trim s.

(** [decodeQuotedPrintable(str)] with [/=\r?\n/g] and [/=([0-9A-F]{2})/gi] *)
Definition re_soft_break : regex := rseq [lit "="; opt1 (one 13); lit_units nl].
Definition re_hex_escape : regex :=
  rseq [lit "="; RGroup 1 (exactly 2 (cls (range "0" "9" ++ range "A" "F")))].

Definition decodeQuotedPrintable (str : jsstr) : jsstr :=
  let s := replace_all no_flags re_soft_break (fun _ => []) str in
  replace_all flag_i re_hex_escape (fun m => [parseInt16 (capture1 m)]) s.

(** [/boundary=Q?([^Q;\s]+)Q?/], Q standing for the double quote *)
Definition re_boundary : regex :=
  rseq [lit "boundary="; opt1 (one 34);
        RGroup 1 (plus (ncls ((34%N, 34%N) :: chars ";" ++ ws_ranges))); opt1 (one 34)].

(** [extractEmailBody(rawEmail)] *)
Definition extractEmailBody (rawEmail : jsstr) : jsstr :=
  match split no_flags re_blank_line rawEmail with
  | _ :: ((_ :: _) as tail_parts) =>
    let body := join (nl ++ nl) tail_parts in
    let contentType := or_empty (extractHeader rawEmail "Content-Type") in
    let body :=
      if includes contentType (js "multipart") then
        match str_match no_flags re_boundary contentType with
        | Some boundaryMatch =>
          let boundary := capture1 boundaryMatch in
          let textPart := extractMimePart body boundary (js "text/plain") in
          let htmlPart := extractMimePart body boundary (js "text/html") in
          if truthy textPart then or_empty textPart
          else if truthy htmlPart then stripHtml (or_empty htmlPart)
          else body
        | None => body
        end
      else body in
    let body :=
      if includes rawEmail (js "Content-Transfer-Encoding: quoted-printable")
      then decodeQuotedPrintable body else body in
    let body :=
      if includes rawEmail (js "Content-Transfer-Encoding: base64") then
        match atob (replace_all no_flags (RChar cs_space) (fun _ => []) body) with
        | Some decoded => decoded
        | None => body
        end
      else body in
    body
  | _ => rawEmail
  end.

(** *** Sender matching *)

(** An entry of [FINANCIAL_INSTITUTIONS] with its key. *)
Record institution := Institution
  { inst_id : jsstr;
    inst_name : jsstr;
    inst_type : jsstr;
    transactionalDomains : list jsstr;
    marketingDomains : list jsstr }.

Definition mk_inst (id name type : string) (tx mk : list string) : institution :=
  Institution (js id) (js name) (js type) (map js tx) (map js mk).

(** The registry, in the order [Object.entries] enumerates it. *)
Definition FINANCIAL_INSTITUTIONS : list institution :=
  [ mk_inst "mercadopago" "Mercado Pago" "fintech"
      ["info@mercadopago.com"; "info@mercadopago.com.ar"]
      ["marketing@mercadopago.com"; "marketing@mercadopago.com.ar";
       "promociones@mercadopago.com"];
    mk_inst "uala" "Ualá" "fintech"
      ["@uala.com.ar"; "@notificaciones.uala.com.ar"]
      ["@marketing.uala.com.ar"; "@promo.uala.com.ar"];
    mk_inst "brubank" "Brubank" "fintech"
      ["@brubank.com.ar"; "@notificaciones.brubank.com.ar"]
      ["@marketing.brubank.com.ar"];
    mk_inst "naranjax" "Naranja X" "fintech"
      ["@naranjax.com"; "@notificaciones.naranjax.com"]
      ["@marketing.naranjax.com"];
    mk_inst "personalpay" "Personal Pay" "fintech"
      ["@personalpay.com.ar"]
      ["@marketing.personalpay.com.ar"];
    mk_inst "galicia" "Banco Galicia" "bank"
      ["@bancogalicia.com.ar"; "@e.bancogalicia.com.ar";
       "@notificaciones.bancogalicia.com.ar"]
      ["@marketing.bancogalicia.com.ar"; "@ofertas.bancogalicia.com.ar"];
    mk_inst "santander" "Banco Santander" "bank"
      ["@santander.com.ar"; "@email.santander.com.ar";
       "@notificaciones.santander.com.ar"]
      ["@marketing.santander.com.ar"; "@ofertas.santander.com.ar"];
    mk_inst "bbva" "BBVA" "bank"
      ["@bbva.com.ar"; "@notificaciones.bbva.com.ar"]
      ["@marketing.bbva.com.ar"];
    mk_inst "nacion" "Banco Nación" "bank"
      ["@bna.com.ar"; "@notificaciones.bna.com.ar"]
      ["@marketing.bna.com.ar"];
    mk_inst "macro" "Banco Macro" "bank"
      ["@macro.com.ar"; "@notificaciones.macro.com.ar"]
      ["@marketing.macro.com.ar"];
    mk_inst "hsbc" "HSBC Argentina" "bank"
      ["@hsbc.com.ar"; "@notificaciones.hsbc.com.ar"]
      ["@marketing.hsbc.com.ar"];
    mk_inst "icbc" "ICBC Argentina" "bank"
      ["@icbc.com.ar"; "@notificaciones.icbc.com.ar"]
      ["@marketing.icbc.com.ar"] ].

(** [extractEmailAddress(from)] with [/<([^>]+)>/] *)
Definition re_angle : regex :=
  rseq [lit "<"; RGroup 1 (plus (ncls (chars ">"))); lit ">"].

Definition extractEmailAddress (from : jsstr) : jsstr :=
  match from with
  | [] => []
  | _ =>
    let lowerFrom := trim (toLowerCase from) in
    match str_match no_flags re_angle lowerFrom with
    | Some emailMatch => trim (capture1 emailMatch)
    | None => lowerFrom
    end
  end.

(** What [identifyInstitution] returns. *)
Record sender_match := SenderMatch
  { sm_id : jsstr; sm_name : jsstr; sm_type : jsstr; isMarketing : bool }.

(** The test made on one registry entry. *)
Definition sender_entry_matches (email domain : jsstr) : bool :=
  if startsWith domain (js "@") then endsWith email domain else str_eqb email domain.

(** One of the inner [for] loops: does some entry of the list match? *)
Fixpoint any_domain_matches (email : jsstr) (domains : list jsstr) : bool :=
  match domains with
  | [] => false
  | domain :: domains' =>
    if sender_entry_matches email domain then true
    else any_domain_matches email domains'
  end.

(** The outer [for] loop over the registry. *)
Fixpoint identify_in (email : jsstr) (registry : list institution) : option sender_match :=
  match registry with
  | [] => None
  | inst :: registry' =>
    if any_domain_matches email (transactionalDomains inst)
    then Some (SenderMatch (inst_id inst) (inst_name inst) (inst_type inst) false)
    else if any_domain_matches email (marketingDomains inst)
    then Some (SenderMatch (inst_id inst) (inst_name inst) (inst_type inst) true)
    else identify_in email registry'
  end.

(** [identifyInstitution(from)] of the multi-institution worker *)
Definition identifyInstitution (from : jsstr) : option sender_match :=
  match extractEmailAddress from with
  | [] => None
  | email => identify_in email FINANCIAL_INSTITUTIONS
  end.

(** [isFromMercadoPago(from)] of the legacy worker *)
Definition legacy_validSenders : list jsstr :=
  [js "info@mercadopago.com"; js "info@mercadopago.com.ar"].

Definition legacy_isFromMercadoPago (from : jsstr) : bool :=
  match from with
  | [] => false
  | _ =>
    let lowerFrom := toLowerCase from in
    existsb (fun sender => includes lowerFrom sender) legacy_validSenders
  end.

(** *** The external classifier

    [env.AI.run(model, { messages, max_tokens })] as an oracle over the
    prompt and the token limit.  [AiThrows] stands for every outcome that
    raises inside the caller's [try] (a rejected call, a missing result
    object, a response that is no string); [AiNoText] for a result whose
    [response] field is absent. *)

Inductive ai_result :=
| AiThrows
| AiNoText
| AiText (response : jsstr).

Variable AI_run : jsstr -> nat -> ai_result.

(** A template literal that spans several lines. *)
Definition text (ls : list jsstr) : jsstr := join nl ls.

(** *** Intent classification (multi-institution worker) *)

Definition PROMOTIONAL_KEYWORDS : list jsstr :=
  map js
    ["cashback disponible"; "ganaste"; "beneficio exclusivo"; "descuento";
     "oferta especial"; "promo"; "cupón"; "premio"; "sorteo"; "regalo";
     "aprovechá"; "no te pierdas"; "por tiempo limitado"; "solo hoy";
     "última oportunidad"; "exclusivo para vos"; "bonus"; "puntos extra";
     "recompensa"; "acumulá"; "canjeá"; "duplicá"; "triplicá"].

Definition transactionKeywords : list jsstr :=
  map js
    ["transferiste"; "recibiste"; "pagaste"; "te transfirieron";
     "te pagaron"; "retiro"; "depósito"; "compra"; "cobro";
     "movimiento"; "operación exitosa"; "comprobante"].

Inductive intent_type := transaction | promotional.

(** The code writes these labels 'keyword', 'domain', 'ai', 'fallback'. *)
Inductive confidence := conf_keyword | conf_domain | conf_ai | conf_fallback.

Record intent := Intent
  { i_type : intent_type; i_confidence : confidence; i_reason : jsstr }.

(** The strings the code writes in the fields [type] and [confidence]. *)
Definition type_label (t : intent_type) : jsstr :=
  match t with
  | transaction => js "transaction"
  | promotional => js "promotional"
  end.

Definition confidence_label (c : confidence) : jsstr :=
  match c with
  | conf_keyword => js "keyword"
  | conf_domain => js "domain"
  | conf_ai => js "ai"
  | conf_fallback => js "fallback"
  end.

(** [for (const keyword of keywords) if (fullText.includes(keyword)) return ...]:
    the first keyword of the list that occurs in the text. *)
Fixpoint first_keyword (fullText : jsstr) (keywords : list jsstr) : option jsstr :=
  match keywords with
  | [] => None
  | keyword :: keywords' =>
    if includes fullText keyword then Some keyword
    else first_keyword fullText keywords'
  end.

Definition intent_prompt (name subject bodyPreview : jsstr) : jsstr :=
  text
    [ js "Classify this " ++ name
        ++ js " email. Is it about REAL money that already moved, or a PROMOTIONAL offer/bonus?";
      [];
      js "Subject: " ++ subject;
      js "Preview: " ++ substring bodyPreview 0 200;
      [];
      js "IMPORTANT: ";
      js "- " ++ dq ++ js "transaction" ++ dq
        ++ js " = money ALREADY moved (transfer completed, payment made)";
      js "- " ++ dq ++ js "promotional" ++ dq
        ++ js " = offers, bonuses to claim, incentives, marketing";
      [];
      js "Answer with ONLY one word: transaction OR promotional" ].

(** [classifyEmailIntent(env, institution, subject, bodyPreview)] *)
Definition classifyEmailIntent (inst : sender_match) (subject bodyPreview : jsstr)
  : intent :=
  let subjectLower := toLowerCase subject in
  let bodyLower := toLowerCase bodyPreview in
  let fullText := subjectLower ++ js " " ++ bodyLower in
  match first_keyword fullText PROMOTIONAL_KEYWORDS with
  | Some keyword => Intent promotional conf_keyword keyword
  | None =>
    if isMarketing inst then Intent promotional conf_domain (js "marketing domain")
    else
      match first_keyword fullText transactionKeywords with
      | Some keyword => Intent transaction conf_keyword keyword
      | None =>
        match AI_run (intent_prompt (sm_name inst) subject bodyPreview) 10 with
        | AiThrows => Intent transaction conf_fallback (js "AI error")
        | res =>
          let response :=
            match res with
            | AiText r => trim (toLowerCase r)
            | _ => []
            end in
          let isTransaction := includes response (js "transaction") in
          Intent (if isTransaction then transaction else promotional) conf_ai
                 (js "AI: " ++ response)
        end
      end
  end.

(** *** Transaction type and category (external classifier with fallback) *)

Definition VALID_CATEGORIES : list jsstr :=
  map js
    ["utilities-bills"; "food-dining"; "transportation"; "shopping-clothing";
     "health-wellness"; "recreation-entertainment"; "financial-obligations";
     "savings-investments"; "miscellaneous-other"].

Definition VALID_TRANSACTION_TYPES : list jsstr :=
  map js
    ["transfer_received"; "transfer_sent"; "payment_received"; "payment_sent";
     "withdrawal"; "deposit"; "refund_received"; "refund_sent"].

Definition type_prompt (context : jsstr) : jsstr :=
  text
    [ js "Analyze this Mercado Pago email and determine the transaction type.";
      [];
      js "Transaction Types:";
      js "- transfer_received: Money received via transfer (keywords: recibiste, te transfirieron, te enviaron)";
      js "- transfer_sent: Money sent via transfer (keywords: transferiste, enviaste, transferencia enviada)";
      js "- payment_received: Payment received for a sale (keywords: te pagaron, vendiste)";
      js "- payment_sent: Payment made for purchase (keywords: pagaste, compraste, QR, suscripción)";
      js "- deposit: Money added to account (keywords: ingreso, cargaste, acreditamos, cashback, bonificación)";
      js "- withdrawal: Money withdrawn (keywords: retiro, extracción)";
      js "- refund_received: Refund received (keywords: te devolvieron, reembolso recibido)";
      js "- refund_sent: Refund sent (keywords: devolviste, reembolsaste)";
      [];
      js "Email:";
      context;
      [];
      js "Respond with ONLY the transaction type ID (e.g., " ++ dq ++ js "transfer_sent"
        ++ dq ++ js "), nothing else." ].

(** [response.response?.trim().toLowerCase().replace(re, '')] with
    [re = /[^a-z_]/g] for types and [/[^a-z-]/g] for categories;
    [None] is [undefined]. *)
Definition clean_answer (keep : string) (res : ai_result) : option jsstr :=
  match res with
  | AiText r =>
    Some (replace_all no_flags (RChar (ncls (range "a" "z" ++ chars keep)))
                      (fun _ => []) (toLowerCase (trim r)))
  | _ => None
  end.

(** [detectTransactionTypeWithAI(env, subject, bodyPreview)]; [None] is
    [null]. *)
Definition type_context (subject bodyPreview : jsstr) : jsstr :=
  js "Subject: " ++ subject ++ nl ++ js "Body: " ++ substring bodyPreview 0 300.

Definition detectTransactionTypeWithAI (subject bodyPreview : jsstr) : option jsstr :=
  let context := type_context subject bodyPreview in
  match AI_run (type_prompt context) 30 with
  | AiThrows => None
  | res =>
    match clean_answer "_" res with
    | Some type => if arr_includes VALID_TRANSACTION_TYPES type then Some type else None
    | None => None
    end
  end.

(** [[counterparty, description, subject].filter(Boolean).join(' ').trim()] *)
Definition category_context (fields : list (option jsstr)) : jsstr :=
  trim (join (js " ") (map or_empty (filter truthy fields))).

Definition category_prompt (isIncome : bool) (context : jsstr) : jsstr :=
  text
    [ js "Categorize this " ++ (if isIncome then js "income" else js "expense")
        ++ js " transaction into exactly ONE category.";
      [];
      js "Categories:";
      js "- utilities-bills: electricity, gas, water, internet, phone, cable, rent";
      js "- food-dining: restaurants, cafes, supermarkets, delivery apps, food, groceries";
      js "- transportation: uber, taxi, fuel, parking, tolls, public transit, car expenses";
      js "- shopping-clothing: clothes, electronics, retail stores, online shopping, Amazon, MercadoLibre";
      js "- health-wellness: pharmacy, medical, gym, health insurance, doctor, hospital";
      js "- recreation-entertainment: netflix, spotify, games, cinema, streaming, hobbies, sports";
      js "- financial-obligations: taxes, loans, insurance premiums, bank fees, credit card";
      js "- savings-investments: investments, crypto, stocks, savings, interest income";
      js "- miscellaneous-other: personal transfers, gifts, anything that doesn't fit above";
      [];
      js "Transaction: " ++ dq ++ context ++ dq;
      [];
      js "Respond with ONLY the category ID (e.g., " ++ dq ++ js "food-dining" ++ dq
        ++ js "), nothing else." ].

Definition legacy_category_prompt (context : jsstr) : jsstr :=
  text
    [ js "Categorize this expense into exactly ONE category.";
      [];
      js "Categories:";
      js "- utilities-bills: electricity, gas, water, internet, phone, cable";
      js "- food-dining: restaurants, cafes, supermarkets, delivery apps, food";
      js "- transportation: uber, taxi, fuel, parking, tolls, public transit";
      js "- shopping-clothing: clothes, electronics, retail stores, online shopping";
      js "- health-wellness: pharmacy, medical, gym, health insurance";
      js "- recreation-entertainment: netflix, spotify, games, cinema, streaming";
      js "- financial-obligations: taxes, loans, insurance premiums, bank fees";
      js "- savings-investments: investments, crypto, stocks, savings";
      js "- miscellaneous-other: anything else";
      [];
      js "Transaction: " ++ dq ++ context ++ dq;
      [];
      js "Respond with ONLY the category ID (e.g., " ++ dq ++ js "food-dining" ++ dq
        ++ js "), nothing else." ].

Definition miscellaneous_other : jsstr := js "miscellaneous-other".

(** The part of [categorizeWithAI] after the prompt is built. *)
Definition category_of_answer (res : ai_result) : jsstr :=
  match res with
  | AiThrows => miscellaneous_other
  | _ =>
    match clean_answer "-" res with
    | Some category =>
      if arr_includes VALID_CATEGORIES category then category else miscellaneous_other
    | None => miscellaneous_other
    end
  end.

Definition incomeTypes : list jsstr :=
  map js ["transfer_received"; "payment_received"; "deposit"; "refund_received"].

(** [categorizeWithAI(env, counterparty, description, subject, transactionType)]
    of the multi-institution worker *)
Definition categorizeWithAI (counterparty description subject : option jsstr)
    (transactionType : jsstr) : jsstr :=
  match category_context [counterparty; description; subject] with
  | [] => miscellaneous_other
  | context =>
    let isIncome := arr_includes incomeTypes transactionType in
    category_of_answer (AI_run (category_prompt isIncome context) 30)
  end.

(** [categorizeWithAI(env, counterparty, description, subject)] of the
    legacy worker *)
Definition legacy_categorizeWithAI (counterparty description subject : option jsstr)
  : jsstr :=
  match category_context [counterparty; description; subject] with
  | [] => miscellaneous_other
  | context => category_of_answer (AI_run (legacy_category_prompt context) 30)
  end.

(** *** Transaction extraction *)

Definition unknown : jsstr := js "unknown".

(** The keyword rules of [parseTransaction], as the chain of conditions
    is written (the same in both workers). *)
Definition keyword_type (subjectLower bodyLower : jsstr) : jsstr :=
  let s k := includes subjectLower (js k) in
  let b k := includes bodyLower (js k) in
  if s "recibiste" || s "te transfirieron" || s "te enviaron" || s "transferencia recibida"
  then js "transfer_received"
  else if s "te pagaron" || s "recibiste un pago" || s "te depositaron" || s "pago recibido"
  then js "payment_received"
  else if s "te devolvieron" || s "reembolso" || b "devolución a tu favor"
  then js "refund_received"
  else if s "ingreso" || s "cargaste" || s "acreditamos" || s "cashback"
          || s "bonificación" || s "ganaste"
  then js "deposit"
  else if s "transferiste" || s "enviaste" || s "transferencia enviada" || s "fue enviada"
  then js "transfer_sent"
  else if s "pagaste" || s "compraste" || s "qr" || s "suscripción"
          || s "cobro automático" || s "cuota" || s "débito" || s "pago enviado"
  then js "payment_sent"
  else if s "devolviste" || s "reembolsaste"
  then js "refund_sent"
  else if s "retiro" || b "retiro" || s "extracción"
  then js "withdrawal"
  else unknown.

(** The classes [[A-Za-zÀ-ÿ]], [[A-Za-zÀ-ÿ\s]] and their variants with
    digits. *)
Definition letters : list (N * N) := range "A" "Z" ++ range "a" "z" ++ range "À" "ÿ".
Definition cs_letter : cset := cls letters.
Definition cs_letter_ws : cset := cls (letters ++ ws_ranges).
Definition cs_alnum : cset := cls (letters ++ range "0" "9").
Definition cs_alnum_ws : cset := cls (letters ++ range "0" "9" ++ ws_ranges).

(** The terminators [(?:\s*\$|\s*por|\s*$|\s*\.)] *)
Definition re_name_end : regex :=
  alt [RSeq (star cs_space) (lit "$"); RSeq (star cs_space) (lit "por");
       RSeq (star cs_space) REol; RSeq (star cs_space) (lit ".")].

(** [counterpartyPatterns], all with the [i] flag. *)
Definition counterpartyPatterns : list regex :=
  [ (* /nombre\s+y\s+apellido[:\s*]+\*?([A-Za-zÀ-ÿ][A-Za-zÀ-ÿ\s]{2,40}?)\*?(?:\s*Entidad|\s*$|\s*\n)/i *)
    rseq [lit "nombre"; plus cs_space; lit "y"; plus cs_space; lit "apellido";
          plus (cls (chars ":" ++ ws_ranges ++ chars "*")); opt1 (one 42);
          RGroup 1 (RSeq (RChar cs_letter) (lazy_between 2 40 cs_letter_ws));
          opt1 (one 42);
          alt [RSeq (star cs_space) (lit "Entidad"); RSeq (star cs_space) REol;
               RSeq (star cs_space) (lit_units nl)]];
    (* /(?:transferiste|enviaste|transferencia)\s+a\s+([A-Za-zÀ-ÿ][A-Za-zÀ-ÿ\s]{1,30}?)(?:\s*\$|\s*por|\s*$|\s*\.)/i *)
    rseq [alt [lit "transferiste"; lit "enviaste"; lit "transferencia"];
          plus cs_space; lit "a"; plus cs_space;
          RGroup 1 (RSeq (RChar cs_letter) (lazy_between 1 30 cs_letter_ws));
          re_name_end];
    (* /(?:de|a|para)\s+([A-Za-zÀ-ÿ][A-Za-zÀ-ÿ\s]{1,30}?)(?:\s*\$|\s*por|\s*$|\s*\.)/i *)
    rseq [alt [lit "de"; lit "a"; lit "para"]; plus cs_space;
          RGroup 1 (RSeq (RChar cs_letter) (lazy_between 1 30 cs_letter_ws));
          re_name_end];
    (* /([A-Za-zÀ-ÿ][A-Za-zÀ-ÿ\s]{1,30}?)\s+te\s+(?:transfirió|pagó|envió)/i *)
    rseq [RGroup 1 (RSeq (RChar cs_letter) (lazy_between 1 30 cs_letter_ws));
          plus cs_space; lit "te"; plus cs_space;
          alt [lit "transfirió"; lit "pagó"; lit "envió"]];
    (* /(?:destinatario|receptor|beneficiario)[:\s]+([A-Za-zÀ-ÿ][A-Za-zÀ-ÿ\s]{1,30})/i *)
    rseq [alt [lit "destinatario"; lit "receptor"; lit "beneficiario"];
          plus (cls (chars ":" ++ ws_ranges));
          RGroup 1 (RSeq (RChar cs_letter) (between 1 30 cs_letter_ws))];
    (* /(?:pagaste|compraste)\s+en\s+([A-Za-zÀ-ÿ0-9][A-Za-zÀ-ÿ0-9\s]{1,30})/i *)
    rseq [alt [lit "pagaste"; lit "compraste"]; plus cs_space; lit "en"; plus cs_space;
          RGroup 1 (RSeq (RChar cs_alnum) (between 1 30 cs_alnum_ws))] ].

(** The capture of a pattern on the text: [match && match[1]]. *)
Definition pattern_capture (fullText : jsstr) (pattern : regex) : option jsstr :=
  match str_match flag_i pattern fullText with
  | Some m => Some (capture1 m)
  | None => None
  end.

(** The loop over [counterpartyPatterns]: the first pattern that matches
    with a trimmed capture longer than one code unit ends the loop. *)
Fixpoint find_counterparty (fullText : jsstr) (patterns : list regex) : option jsstr :=
  match patterns with
  | [] => None
  | pattern :: patterns' =>
    match pattern_capture fullText pattern with
    | Some c =>
      if (1 <? length (trim c))%nat then Some (trim c)
      else find_counterparty fullText patterns'
    | None => find_counterparty fullText patterns'
    end
  end.

(** [/(?:operación|referencia|id|comprobante)[:\s#]*(\d{5,})/i] *)
Definition re_reference : regex :=
  rseq [alt [lit "operación"; lit "referencia"; lit "id"; lit "comprobante"];
        star (cls (chars ":" ++ ws_ranges ++ chars "#"));
        RGroup 1 (at_least 5 cs_digit)].

Definition find_reference (fullText : jsstr) : option jsstr :=
  match str_match flag_i re_reference fullText with
  | Some refMatch => Some (capture1 refMatch)
  | None => None
  end.

(** The object [parseTransaction] returns. *)
Record parsed := Parsed
  { p_type : jsstr;
    p_amount : jsnum;
    p_currency : jsstr;
    p_counterparty : option jsstr;
    p_description : option jsstr;
    p_referenceId : option jsstr }.

(** [parseTransaction(env, subject, body)] of the multi-institution worker *)
Definition parseTransaction (subject body : jsstr) : parsed :=
  let subjectLower := toLowerCase subject in
  let bodyLower := toLowerCase body in
  let fullText := subject ++ js " " ++ body in
  let type :=
    match detectTransactionTypeWithAI subject (substring body 0 500) with
    | Some aiType => aiType
    | None => keyword_type subjectLower bodyLower
    end in
  Parsed type (extractAmount fullText) (js "ARS")
         (find_counterparty fullText counterpartyPatterns) None
         (find_reference fullText).

(** [parseTransaction(subject, body)] of the legacy worker *)
Definition legacy_parseTransaction (subject body : jsstr) : parsed :=
  let subjectLower := toLowerCase subject in
  let bodyLower := toLowerCase body in
  let fullText := subject ++ js " " ++ body in
  Parsed (keyword_type subjectLower bodyLower) (extractAmount fullText) (js "ARS")
         (find_counterparty fullText counterpartyPatterns) None
         (find_reference fullText).

(** *** The e-mail handlers *)

(** [message.raw] read by [streamToString]: the text, or the error the
    reader rejects with. *)
Inductive stream :=
| StreamText (rawEmail : jsstr)
| StreamError (message : jsstr).

Record message := Message { msg_to : jsstr; msg_from : jsstr; msg_raw : stream }.

(** The objects passed to [sendToBackend]. *)
Inductive record :=
| RecNotMercadoPago (userId from subject : jsstr)
| RecPromotional (userId : jsstr) (inst : sender_match)
    (subject classificationReason receivedAt : jsstr)
| RecParseFailed (userId : jsstr) (inst : option sender_match)
    (subject bodyPreview : jsstr)
| RecTransaction (userId : jsstr) (tx : parsed) (emailHash : jsstr)
    (category : option jsstr) (inst : option sender_match)
    (subject from receivedAt : jsstr)
| RecWorkerError (error : jsstr).

(** The field [valid] of a record. *)
Definition rec_valid (r : record) : bool :=
  match r with
  | RecPromotional _ _ _ _ _ | RecTransaction _ _ _ _ _ _ _ _ => true
  | _ => false
  end.

(** The field [reason] of a record, when it has one. *)
Definition rec_reason (r : record) : option jsstr :=
  match r with
  | RecNotMercadoPago _ _ _ => Some (js "not_mercadopago")
  | RecParseFailed _ _ _ _ => Some (js "parse_failed")
  | RecWorkerError _ => Some (js "worker_error")
  | _ => None
  end.

(** What a handler sends out: the verification forward (a [fetch] of the
    [/forward-verification] endpoint) and the calls of [sendToBackend]. *)
Inductive event :=
| Forwarded (userId subject htmlBody : jsstr) (verificationLink : option jsstr)
| Posted (data : record).

(** The backend's answer to a record: [Some message] when
    [sendToBackend] throws ([fetch] fails, or the response is not ok). *)
Variable backend : record -> option jsstr.

(** [new Date().toISOString()] *)
Variable now : jsstr.

(** Computations that send events and may throw. *)
Definition M (A : Type) : Type := (list event * (jsstr + A))%type.

Definition ret {A} (x : A) : M A := ([], inr x).

Definition bind {A B} (c : M A) (k : A -> M B) : M B :=
  match c with
  | (es, inl err) => (es, inl err)
  | (es, inr x) => let (es', r) := k x in (es ++ es', r)
  end.

Definition throw {A} (err : jsstr) : M A := ([], inl err).

(** [try { c } catch (error) { handler error }] *)
Definition try_catch {A} (c : M A) (handler : jsstr -> M A) : M A :=
  match c with
  | (es, inl err) => let (es', r) := handler err in (es ++ es', r)
  | (es, inr x) => (es, inr x)
  end.

Notation "x <- c ;; k" := (bind c (fun x => k))
  (at level 61, c at next level, right associativity).
Notation "c ;;; k" := (bind c (fun _ => k))
  (at level 61, right associativity).

(** [await sendToBackend(data)] *)
Definition sendToBackend (data : record) : M unit :=
  ([Posted data], match backend data with Some err => inl err | None => inr tt end).

(** [await streamToString(message.raw)] *)
Definition streamToString (s : stream) : M jsstr :=
  match s with
  | StreamText rawEmail => ret rawEmail
  | StreamError err => throw err
  end.

(** The verification links of the Gmail branch. *)
Definition cs_link : cset := ncls (ws_ranges ++ (34%N, 34%N) :: chars "'<>]").

Definition linkPatterns : list regex :=
  [ rseq [lit "http"; opt1 (chr "s"); lit "://mail.google.com/mail/"; plus cs_link];
    rseq [lit "http"; opt1 (chr "s"); lit "://mail-settings.google.com/mail/"; plus cs_link];
    rseq [lit "http"; opt1 (chr "s"); lit "://www.google.com/url?"; plus cs_link] ].

(** [/[.,;:!?)>\]&]+$/] *)
Definition re_link_tail : regex := rseq [plus (cls (chars ".,;:!?)>]&")); REol].

Definition clean_link (link : jsstr) : jsstr :=
  replace_lit "&amp;" "&" (replace_first_re no_flags re_link_tail [] link).

Definition is_verify_link (link : jsstr) : bool :=
  includes link (js "vf-") || includes link (js "confirm") || includes link (js "verify").

Fixpoint find_verification_link (fullContent : jsstr) (patterns : list regex)
  : option jsstr :=
  match patterns with
  | [] => None
  | pattern :: patterns' =>
    let matches := map (@m_text) (match_all flag_i pattern fullContent) in
    match filter is_verify_link (map clean_link matches) with
    | link :: _ => Some link
    | [] => find_verification_link fullContent patterns'
    end
  end.

(** The Gmail branch: the forward is sent inside its own [try], whose
    [catch] only logs. *)
Definition forward_verification (userId subject emailBody rawEmail : jsstr) : M unit :=
  let fullContent := emailBody ++ js " " ++ rawEmail in
  ([Forwarded userId subject emailBody (find_verification_link fullContent linkPatterns)],
   inr tt).

Definition is_gmail_verification (from : jsstr) : bool :=
  includes from (js "forwarding-noreply@google.com") || includes from (js "noreply@google.com").

(** [!transaction.amount || transaction.amount <= 0] *)
Definition no_amount (a : jsnum) : bool := falsy a || le a zero.

(** The body of the [try] block of the multi-institution handler. *)
Definition email_try (msg : message) : M unit :=
  match extractUserId (msg_to msg) with
  | None => ret tt
  | Some userId =>
    rawEmail <- streamToString (msg_raw msg) ;;
    let emailBody := extractEmailBody rawEmail in
    let subject := or_empty (extractHeader rawEmail "Subject") in
    let from := msg_from msg in
    if is_gmail_verification from then forward_verification userId subject emailBody rawEmail
    else
      match identifyInstitution from with
      | None => ret tt
      | Some inst =>
        let intent := classifyEmailIntent inst subject (substring emailBody 0 500) in
        match i_type intent with
        | promotional =>
          sendToBackend (RecPromotional userId inst subject (i_reason intent) now)
        | transaction =>
          let tx := parseTransaction subject emailBody in
          if no_amount (p_amount tx) then
            sendToBackend (RecParseFailed userId (Some inst) subject (substring emailBody 0 500))
          else
            let category :=
              categorizeWithAI (p_counterparty tx) (p_description tx) (Some subject)
                               (p_type tx) in
            let emailHash := fingerprint subject emailBody in
            sendToBackend
              (RecTransaction userId tx emailHash (Some category) (Some inst)
                              subject from now)
        end
      end
  end.

(** The [catch] of a handler: the error is reported, and a failure of
    that report is ignored. *)
Definition report_error (err : jsstr) : M unit :=
  try_catch (sendToBackend (RecWorkerError err)) (fun _ => ret tt).

(** [email(message, env, ctx)] of the multi-institution worker: the
    events it sends. *)
Definition email (msg : message) : list event :=
  fst (try_catch (email_try msg) report_error).

Definition expenseTypes : list jsstr :=
  map js ["transfer_sent"; "payment_sent"; "withdrawal"; "refund_sent"].

(** The body of the [try] block of the legacy handler. *)
Definition legacy_email_try (msg : message) : M unit :=
  match extractUserId (msg_to msg) with
  | None => ret tt
  | Some userId =>
    rawEmail <- streamToString (msg_raw msg) ;;
    let emailBody := extractEmailBody rawEmail in
    let subject := or_empty (extractHeader rawEmail "Subject") in
    let from := msg_from msg in
    if is_gmail_verification from then forward_verification userId subject emailBody rawEmail
    else if negb (legacy_isFromMercadoPago from) then
      sendToBackend (RecNotMercadoPago userId from subject)
    else
      let tx := legacy_parseTransaction subject emailBody in
      if no_amount (p_amount tx) then
        sendToBackend (RecParseFailed userId None subject (substring emailBody 0 500))
      else
        let category :=
          if arr_includes expenseTypes (p_type tx)
          then Some (legacy_categorizeWithAI (p_counterparty tx) (p_description tx)
                                             (Some subject))
          else None in
        let emailHash := fingerprint subject emailBody in
        sendToBackend (RecTransaction userId tx emailHash category None subject from now)
  end.

(** [email(message, env, ctx)] of the legacy worker *)
Definition legacy_email (msg : message) : list event :=
  fst (try_catch (legacy_email_try msg) report_error).

End Worker.

(** * Notions used in the statements *)

(** Patterns every match of which takes at least one code unit. *)
Fixpoint nonempty (r : regex) : bool :=
  match r with
  | RChar _ => true
  | RSeq a b => nonempty a || nonempty b
  | RAlt a b => nonempty a && nonempty b
  | RRep _ lo _ _ => negb (Nat.eqb lo 0)
  | RGroup _ a => nonempty a
  | _ => false
  end.

(** [st'] is reached from [st] by reading [w]. *)
Definition reads (P : N -> Prop) (st : mstate) (w : jsstr) (st' : mstate) : Prop :=
  rest st = w ++ rest st' /\ pos st' = pos st + length w /\ Forall P w.

(** A repetition count within the upper bound of a quantifier. *)
Definition within (hi : option nat) (n : nat) : Prop :=
  match hi with Some h => n <= h | None => True end.

(** The update of the running maximum. *)
Definition pick_max (maxAmount amount : jsnum) : jsnum :=
  if gt amount maxAmount then amount else maxAmount.

(** The string with every dot removed. *)
Definition undot (s : jsstr) : jsstr := filter (fun c => negb (c =? 46)%N) s.

(** A digit or a dot. *)
Definition digit_or_dot (c : N) : Prop := isDigit c = true \/ c = 46%N.

(** What [[\d.]+(?:,\d{2})?] matches: digits and dots, at least one, and
    possibly a comma with two digits after them. *)
Definition amount_shape (w : jsstr) : Prop :=
  exists d, d <> [] /\ Forall digit_or_dot d /\
    (w = d \/ exists x y, isDigit x = true /\ isDigit y = true /\ w = d ++ [44%N; x; y]).

(** A value at least 0 as [parseFloat] returns it: [Infinity], or a
    finite value in lowest terms. *)
Definition nonneg_value (a : jsnum) : Prop :=
  a = PosInf \/ exists v, a = Fin (Qred v) /\ (0 <= v)%Q.

(** A finite value that is an integer at least 0. *)
Definition whole_value (a : jsnum) : Prop :=
  exists k, (0 <= k)%Z /\ a = Fin (k # 1).

(** A finite value within the relative error [2^-53] of the real [x]. *)
Definition close_to (x : Q) (a : jsnum) : Prop :=
  exists r, a = Fin r /\ (Qabs.Qabs (r - x) <= x * (1 # 2 ^ 53))%Q.

(** A one followed by 309 zeros: a decimal number above every finite
    double. *)
Definition overflowing_amount : jsstr := 49%N :: repeat 48%N 309.

(** The keyword rules of the type fallback as an ordered table: the
    direction of the money, the type, and the keywords with the text each
    is looked up in. *)
Inductive direction := money_in | money_out.
Inductive field := in_subject | in_body.

Definition type_rule : Type := (direction * jsstr * list (field * jsstr))%type.

Definition mk_rule (d : direction) (type : string) (kws : list (field * string))
  : type_rule :=
  (d, js type, map (fun fk => (fst fk, js (snd fk))) kws).

Definition type_rules : list type_rule :=
  [ mk_rule money_in "transfer_received"
      [(in_subject, "recibiste"); (in_subject, "te transfirieron");
       (in_subject, "te enviaron"); (in_subject, "transferencia recibida")];
    mk_rule money_in "payment_received"
      [(in_subject, "te pagaron"); (in_subject, "recibiste un pago");
       (in_subject, "te depositaron"); (in_subject, "pago recibido")];
    mk_rule money_in "refund_received"
      [(in_subject, "te devolvieron"); (in_subject, "reembolso");
       (in_body, "devolución a tu favor")];
    mk_rule money_in "deposit"
      [(in_subject, "ingreso"); (in_subject, "cargaste"); (in_subject, "acreditamos");
       (in_subject, "cashback"); (in_subject, "bonificación"); (in_subject, "ganaste")];
    mk_rule money_out "transfer_sent"
      [(in_subject, "transferiste"); (in_subject, "enviaste");
       (in_subject, "transferencia enviada"); (in_subject, "fue enviada")];
    mk_rule money_out "payment_sent"
      [(in_subject, "pagaste"); (in_subject, "compraste"); (in_subject, "qr");
       (in_subject, "suscripción"); (in_subject, "cobro automático");
       (in_subject, "cuota"); (in_subject, "débito"); (in_subject, "pago enviado")];
    mk_rule money_out "refund_sent"
      [(in_subject, "devolviste"); (in_subject, "reembolsaste")];
    mk_rule money_out "withdrawal"
      [(in_subject, "retiro"); (in_body, "retiro"); (in_subject, "extracción")] ].

Definition rule_direction (r : type_rule) : direction := fst (fst r).
Definition rule_type (r : type_rule) : jsstr := snd (fst r).

(** A rule applies when one of its keywords occurs in its text. *)
Definition rule_applies (subjectLower bodyLower : jsstr) (r : type_rule) : bool :=
  existsb (fun fk =>
             includes (match fst fk with in_subject => subjectLower | in_body => bodyLower end)
                      (snd fk))
          (snd r).

(** First applicable rule wins; [unknown] when none applies. *)
Definition first_rule_type (subjectLower bodyLower : jsstr) : jsstr :=
  match find (rule_applies subjectLower bodyLower) type_rules with
  | Some r => rule_type r
  | None => unknown
  end.

(** A pattern qualifies on a text with the value [v]: it matches, and
    its capture, trimmed, is [v] and is longer than one code unit. *)
Definition qualifies (fullText : jsstr) (pattern : regex) (v : jsstr) : Prop :=
  exists c, pattern_capture fullText pattern = Some c
            /\ 1 < length (trim c) /\ v = trim c.

(** The markers the counterparty patterns put after a name: the asterisk,
    "Entidad", the currency sign, "por" and the full stop. *)
Definition trailing_markers : list jsstr := map js ["*"; "Entidad"; "$"; "por"; "."].

Definition ends_with_marker (v : jsstr) : bool :=
  existsb (endsWith v) trailing_markers.

(** A lower-case hexadecimal digit. *)
Definition is_hex (c : N) : Prop := (48 <= c <= 57)%N \/ (97 <= c <= 102)%N.

(** The records among the events a handler sent. *)
Definition posted (es : list event) : list record :=
  flat_map (fun e => match e with Posted r => [r] | Forwarded _ _ _ _ => [] end) es.

(** The rule a registry entry stands for: an entry that starts with '@'
    is a suffix of the address, any other entry is the whole address. *)
Definition entry_rule (email domain : jsstr) : Prop :=
  if startsWith domain (js "@") then exists pre, email = pre ++ domain
  else email = domain.

(** The message of the third end-to-end scenario of the specification. *)
Definition unknown_sender_message : message :=
  Message (js "user_123@jamty.xyz") (js "unknown@random.com")
          (StreamText (js "Subject: Hola" ++ nl ++ nl ++ js "Te enviaron $2.500")).

(** A transactional sender of the registry. *)
Definition uala_sender : sender_match :=
  SenderMatch (js "uala") (js "Ualá") (js "fintech") false.

(** The text of a transfer notice: subject, a space, body. *)
Definition transfer_notice : jsstr :=
  js "Transferiste" ++ js " " ++ js "Le transferiste a Juan Pérez $1.500,50".

(** * Further notions used in the statements *)

(** The code unit before the index reached once [w] has been read. *)
Definition last_read (pv : option N) (w : jsstr) : option N :=
  fold_left (fun _ c => Some c) w pv.

(** The state of the matcher once it has read the first [n] code units
    of its input. *)
Definition advance (st : mstate) (n : nat) : mstate :=
  MState (pos st + n) (last_read (prev st) (firstn n (rest st)))
         (skipn n (rest st)) (caps st).

(** The input starts with the literal [w], as the flags compare code
    units. *)
Fixpoint lit_prefix (fl : flags) (s w : jsstr) : bool :=
  match w, s with
  | [], _ => true
  | y :: w', x :: s' => cs_match fl (one y) x && lit_prefix fl s' w'
  | _ :: _, [] => false
  end.

(** A pattern matches nowhere in a text. *)
Definition never_matches (fl : flags) (r : regex) (l : jsstr) : Prop :=
  forall l1 l2 p pv, l = l1 ++ l2 -> match_at fl r p pv l2 = None.

(** The code units of a user id: [[a-z0-9_]]. *)
Definition is_id_char (c : N) : Prop :=
  (97 <= c <= 122)%N \/ (48 <= c <= 57)%N \/ c = 95%N.

(** What a transaction record sent to the backend always satisfies: an
    amount above 0, which is a finite value or [Infinity], the currency
    ARS, a type of the enumeration or "unknown", and no description. *)
Definition sound_transaction (r : record) : Prop :=
  match r with
  | RecTransaction _ tx _ _ _ _ _ _ =>
    (p_amount tx = PosInf \/ exists q, p_amount tx = Fin q /\ (0 < q)%Q)
    /\ p_currency tx = js "ARS"
    /\ (In (p_type tx) VALID_TRANSACTION_TYPES \/ p_type tx = unknown)
    /\ p_description tx = None
  | _ => True
  end.

(** The records of one run of a handler: none; the report of a content
    stream that failed; or one data record, followed by the report of the
    backend's error when the backend refuses it. *)
Definition one_report (backend : record -> option jsstr) (raw : stream)
    (sent : list record) : Prop :=
  sent = []
  \/ (exists err, raw = StreamError err /\ sent = [RecWorkerError err])
  \/ (exists data, (forall err, data <> RecWorkerError err)
                   /\ sent = data :: match backend data with
                                     | Some err => [RecWorkerError err]
                                     | None => []
                                     end).

(** A record that stands for a message taken as a transaction notice. *)
Definition taken_as_transaction (r : record) : bool :=
  match r with
  | RecTransaction _ _ _ _ _ _ _ _ | RecParseFailed _ _ _ _ => true
  | _ => false
  end.

(** A forwarding confirmation sent by Gmail to a user's address. *)
Definition gmail_confirmation : message :=
  Message (js "user_42@jamty.xyz") (js "Gmail Team <forwarding-noreply@google.com>")
          (StreamText (js "Subject: Gmail Forwarding Confirmation" ++ nl ++ nl
                       ++ js "Confirm: https://mail.google.com/mail/vf-abc123-xyz.")).

(** A notice whose amount is above every finite double. *)
Definition overflow_notice : message :=
  Message (js "user_123@jamty.xyz") (js "Mercado Pago <info@mercadopago.com>")
          (StreamText (js "Subject: Transferiste dinero" ++ nl ++ nl
                       ++ js "Le transferiste a Juan Perez $" ++ overflowing_amount)).

(** A transfer notice of Mercado Pago. *)
Definition mercadopago_notice : message :=
  Message (js "user_123@jamty.xyz") (js "Mercado Pago <info@mercadopago.com>")
          (StreamText (js "Subject: Transferiste dinero" ++ nl ++ nl
                       ++ js "Le transferiste a Juan Perez $1.500,50")).

(** A message from a marketing address of Ualá. *)
Definition uala_marketing : message :=
  Message (js "user_123@jamty.xyz") (js "hola@marketing.uala.com.ar")
          (StreamText (js "Subject: Novedades" ++ nl ++ nl
                       ++ js "Recibiste $500 de Ana")).

(** [isFromMercadoPago(from)] of the multi-institution worker, kept for
    backwards compatibility. *)
Definition isFromMercadoPago (toLowerCase : jsstr -> jsstr) (from : jsstr) : bool :=
  match identifyInstitution toLowerCase from with
  | Some _ => true
  | None => false
  end.

(** The part of an address from its last '@' on; empty when the address
    holds no '@'. *)
Fixpoint last_at (s : jsstr) : jsstr :=
  match s with
  | [] => []
  | c :: s' =>
    match last_at s' with
    | [] => if (c =? 64)%N then s else []
    | t => t
    end
  end.

(** The tests of [identifyInstitution] decided from the last '@' part
    [t] of the address alone, where that part decides them. *)
Definition entry_by_tail (t e : jsstr) : option bool :=
  if startsWith e (js "@") then
    if str_eqb (last_at e) e then Some (str_eqb t e) else None
  else
    match last_at e with
    | [] => None
    | te => if str_eqb te t then None else Some false
    end.

Fixpoint any_by_tail (t : jsstr) (domains : list jsstr) : option bool :=
  match domains with
  | [] => Some false
  | domain :: domains' =>
    match entry_by_tail t domain with
    | Some true => Some true
    | Some false => any_by_tail t domains'
    | None => None
    end
  end.

Fixpoint identify_by_tail (t : jsstr) (registry : list institution)
  : option (option sender_match) :=
  match registry with
  | [] => Some None
  | inst :: registry' =>
    match any_by_tail t (transactionalDomains inst) with
    | Some true => Some (Some (SenderMatch (inst_id inst) (inst_name inst) (inst_type inst) false))
    | Some false =>
      match any_by_tail t (marketingDomains inst) with
      | Some true =>
        Some (Some (SenderMatch (inst_id inst) (inst_name inst) (inst_type inst) true))
      | Some false => identify_by_tail t registry'
      | None => None
      end
    | None => None
    end
  end.

(** The address an entry of the registry stands for: the entry itself,
    or any local part followed by an entry that starts with '@'. *)
Definition address_of (local entry : jsstr) : jsstr :=
  if startsWith entry (js "@") then local ++ entry else entry.

(** The entries of an institution in one of its two lists. *)
Definition entries (marketing : bool) (inst : institution) : list jsstr :=
  if marketing then marketingDomains inst else transactionalDomains inst.

(** An entry of the registry leads to the institution that lists it. *)
Definition entry_reaches (inst : institution) (marketing : bool) (entry : jsstr) : Prop :=
  let found := Some (SenderMatch (inst_id inst) (inst_name inst) (inst_type inst) marketing) in
  if startsWith entry (js "@")
  then last_at entry = entry /\ entry <> []
       /\ identify_by_tail entry FINANCIAL_INSTITUTIONS = Some found
  else entry <> [] /\ identify_in entry FINANCIAL_INSTITUTIONS = found.

(** An upper bound on the number of code units a pattern reads; [None]
    when the pattern sets none. *)
Fixpoint max_len (r : regex) : option nat :=
  match r with
  | REmpty | RBol | REol => Some 0
  | RChar _ => Some 1
  | RSeq a b =>
    match max_len a, max_len b with
    | Some x, Some y => Some (x + y)
    | _, _ => None
    end
  | RAlt a b =>
    match max_len a, max_len b with
    | Some x, Some y => Some (Nat.max x y)
    | _, _ => None
    end
  | RRep _ _ hi _ => hi
  | ROpt a => max_len a
  | RGroup _ a => max_len a
  end.

(** Every capturing group of the pattern reads at most [n] code units. *)
Fixpoint groups_within (n : nat) (r : regex) : bool :=
  match r with
  | RSeq a b | RAlt a b => groups_within n a && groups_within n b
  | ROpt a => groups_within n a
  | RGroup _ a =>
    match max_len a with Some x => (x <=? n)%nat | None => false end && groups_within n a
  | _ => true
  end.

(** [w] occurs in [s] as a run of consecutive code units. *)
Definition occurs_in (w s : jsstr) : Prop := exists a b, s = a ++ w ++ b.

(** [s.replace(re, f)] from index [p] on, for a [g] pattern. *)
Definition replace_at (fl : flags) (r : regex) (f : rmatch_result -> jsstr)
    (p : nat) (pv : option N) (l : jsstr) : jsstr :=
  replace_from (match_all_from fl r 0 p pv l) f p l.

(** Quoted-printable text, piece by piece: a literal code unit other
    than '='; an escape "=XY" that stands for the byte with the
    hexadecimal digits XY, written in upper or in lower case; a soft line
    break, '=' at the end of a line that ends with CR LF or with LF. *)
Inductive qp_token :=
| QpChar (c : N)
| QpByte (upper : bool) (b : N)
| QpSoftBreak (cr : bool).

Definition hex_digit_char (upper : bool) (d : N) : N :=
  (if d <? 10 then 48 + d else if upper then 55 + d else 87 + d)%N.

Definition qp_text (t : qp_token) : jsstr :=
  match t with
  | QpChar c => [c]
  | QpByte upper b =>
    [61%N; hex_digit_char upper (b / 16); hex_digit_char upper (b mod 16)]
  | QpSoftBreak cr => 61%N :: (if cr then [13%N; 10%N] else [10%N])
  end.

Definition qp_value (t : qp_token) : jsstr :=
  match t with
  | QpChar c => [c]
  | QpByte _ b => [b]
  | QpSoftBreak _ => []
  end.

Definition qp_wf (t : qp_token) : Prop :=
  match t with
  | QpChar c => c <> 61%N
  | QpByte _ b => (b < 256)%N
  | QpSoftBreak _ => True
  end.

Definition qp_is_break (t : qp_token) : bool :=
  match t with QpSoftBreak _ => true | _ => false end.

(** Text in which white space only occurs as single spaces:
    [after_space] tells that the code unit before is a space. *)
Fixpoint single_spaced (after_space : bool) (s : jsstr) : bool :=
  match s with
  | [] => true
  | c :: s' =>
    if isWhiteSpace c
    then (c =? 32)%N && negb after_space && single_spaced true s'
    else single_spaced false s'
  end.

(** Every code unit the pattern can read satisfies [P]. *)
Fixpoint reads_only (fl : flags) (P : N -> Prop) (r : regex) : Prop :=
  match r with
  | RChar cs | RRep cs _ _ _ => forall c, cs_match fl cs c = true -> P c
  | RSeq a b | RAlt a b => reads_only fl P a /\ reads_only fl P b
  | ROpt a | RGroup _ a => reads_only fl P a
  | _ => True
  end.

(** Every code unit a capturing group of the pattern can read satisfies
    [P]. *)
Fixpoint groups_only (fl : flags) (P : N -> Prop) (r : regex) : Prop :=
  match r with
  | RSeq a b | RAlt a b => groups_only fl P a /\ groups_only fl P b
  | ROpt a => groups_only fl P a
  | RGroup _ a => reads_only fl P a /\ groups_only fl P a
  | _ => True
  end.

(** The matcher is at the start of a line when nothing, or a line
    terminator, comes before. *)
Definition bol_after (pv : option N) : bool :=
  match pv with None => true | Some c => isLineTerminator c end.

(** The text begins, as the [i] flag compares code units, with the header
    name and a colon. *)
Definition begins_header (headerName : string) (s : jsstr) : bool :=
  lit_prefix flag_mi s (js headerName ++ js ":").

(** No line that starts inside [pre] begins with the header name and a
    colon; [pv] is the code unit before [pre] and [after] the text that
    follows it. *)
Fixpoint header_free (headerName : string) (pv : option N) (pre after : jsstr) : bool :=
  match pre with
  | [] => true
  | c :: pre' =>
    negb (bol_after pv && begins_header headerName (pre ++ after))
    && header_free headerName (Some c) pre' after
  end.

(** A message whose second line is the subject, with CR LF line ends. *)
Definition two_headers : jsstr :=
  js "From: info@mercadopago.com" ++ [13%N; 10%N]
  ++ js "SUBJECT:  Pago recibido " ++ [13%N; 10%N] ++ js "To: user_1@jamty.xyz".

(** [s.split(re)] from index [p] on. *)
Definition split_at (fl : flags) (r : regex) (p : nat) (pv : option N) (l : jsstr)
  : list jsstr :=
  split_from (match_all_from fl r 0 p pv l) p l.

(** One more code unit at the front of the first piece. *)
Definition push (c : N) (parts : list jsstr) : list jsstr :=
  match parts with
  | x :: xs => (c :: x) :: xs
  | [] => [[c]]
  end.

(** A header line: not empty, without CR or LF. *)
Definition header_line (l : jsstr) : Prop :=
  l <> [] /\ Forall (fun c => c <> 10%N /\ c <> 13%N) l.

(** The end of a line: CR LF or LF. *)
Definition eol (crlf : bool) : jsstr := if crlf then [13%N; 10%N] else [10%N].

(** States of the matcher that differ by their index and by the code
    unit before it only, and results that differ so. *)
Definition shifted (d : nat) (s1 s2 : mstate) : Prop :=
  pos s2 = pos s1 + d /\ rest s2 = rest s1 /\ caps s2 = caps s1.

Definition shifted_result (d : nat) (o1 o2 : option mstate) : Prop :=
  match o1, o2 with
  | Some s1, Some s2 => shifted d s1 s2
  | None, None => True
  | _, _ => False
  end.

(** Patterns without [^]. *)
Fixpoint no_bol (r : regex) : bool :=
  match r with
  | RBol => false
  | RSeq a b | RAlt a b => no_bol a && no_bol b
  | ROpt a | RGroup _ a => no_bol a
  | _ => true
  end.

(** The pattern matches at no index inside [t] when [after] follows. *)
Definition no_match_in (fl : flags) (r : regex) (t after : jsstr) : Prop :=
  forall a b p pv, t = a ++ b -> b <> [] -> match_at fl r p pv (b ++ after) = None.

(** A message of two header lines and a body of two paragraphs. *)
Definition plain_message : jsstr :=
  join (eol true) [js "From: info@mercadopago.com"; js "Subject: Transferiste dinero"]
  ++ eol true ++ eol true
  ++ js "Hola" ++ eol true ++ eol true ++ js "Le transferiste a Juan $1.500".

(** The category of the transaction records: one of the nine in the
    multi-institution worker; in the legacy worker one of the nine for
    the money-out types and none for any other type. *)
Definition categorised (r : record) : Prop :=
  match r with
  | RecTransaction _ _ _ category _ _ _ _ =>
    exists c, category = Some c /\ In c VALID_CATEGORIES
  | _ => True
  end.

Definition legacy_categorised (r : record) : Prop :=
  match r with
  | RecTransaction _ tx _ category _ _ _ _ =>
    if arr_includes expenseTypes (p_type tx)
    then exists c, category = Some c /\ In c VALID_CATEGORIES
    else category = None
  | _ => True
  end.

(** [handleGmailVerification(body, rawEmail)] (both workers): the
    patterns of the confirmation code, tried in this order. *)
Definition cs_colon_space : cset := cls (chars ":" ++ ws_ranges).

Definition codePatterns : list (flags * regex) :=
  [ (* /c[oó]digo[:\s]+(\d{9})/i *)
    (flag_i, rseq [lit "c"; RChar (cls (chars "oó")); lit "digo"; plus cs_colon_space;
                   RGroup 1 (exactly 9 cs_digit)]);
    (* /confirmation code[:\s]+(\d{9})/i *)
    (flag_i, rseq [lit "confirmation code"; plus cs_colon_space;
                   RGroup 1 (exactly 9 cs_digit)]);
    (* /code[:\s]+(\d{9})/i *)
    (flag_i, rseq [lit "code"; plus cs_colon_space; RGroup 1 (exactly 9 cs_digit)]);
    (* /(\d{9})/ *)
    (no_flags, RGroup 1 (exactly 9 cs_digit)) ].

(** The loop over [codePatterns]: [codeMatch[1]] of the first pattern
    that matches. *)
Fixpoint find_code (fullContent : jsstr) (patterns : list (flags * regex)) : option jsstr :=
  match patterns with
  | [] => None
  | (fl, pattern) :: patterns' =>
    match str_match fl pattern fullContent with
    | Some codeMatch => Some (capture1 codeMatch)
    | None => find_code fullContent patterns'
    end
  end.

(** [[...new Set(allLinks)]]: the first occurrence of each link, in order. *)
Fixpoint unique_from (seen : list jsstr) (links : list jsstr) : list jsstr :=
  match links with
  | [] => []
  | link :: links' =>
    if arr_includes seen link then unique_from seen links'
    else link :: unique_from (link :: seen) links'
  end.

(** What the function does before it returns: it logs the code it found
    and returns [true], or it fetches the verification links one by one
    (ignoring the outcome of each fetch) and returns [false]. *)
Inductive verification :=
| CodeLogged (code : jsstr)
| LinksFetched (links : list jsstr).

Definition handleGmailVerification (body rawEmail : jsstr) : verification :=
  let fullContent := body ++ js " " ++ rawEmail in
  match find_code fullContent codePatterns with
  | Some code => CodeLogged code
  | None =>
    let allLinks :=
      flat_map (fun pattern => map (@m_text) (match_all flag_i pattern fullContent))
               linkPatterns in
    let uniqueLinks := filter is_verify_link (map clean_link (unique_from [] allLinks)) in
    LinksFetched uniqueLinks
  end.

(** The value the function returns. *)
Definition verified (v : verification) : bool :=
  match v with CodeLogged _ => true | LinksFetched _ => false end.

(** The strings a pattern can read, anchors apart. *)
Fixpoint fits (fl : flags) (r : regex) (w : jsstr) : Prop :=
  match r with
  | REmpty | RBol | REol => w = []
  | RChar cs => exists c, w = [c] /\ cs_match fl cs c = true
  | RSeq a b => exists w1 w2, w = w1 ++ w2 /\ fits fl a w1 /\ fits fl b w2
  | RAlt a b => fits fl a w \/ fits fl b w
  | RRep cs lo hi _ =>
    lo <= length w /\ within hi (length w) /\ Forall (fun c => cs_match fl cs c = true) w
  | ROpt a => w = [] \/ fits fl a w
  | RGroup _ a => fits fl a w
  end.

(** The strings a capturing group of the pattern can read. *)
Fixpoint group_fits (fl : flags) (r : regex) (w : jsstr) : Prop :=
  match r with
  | RSeq a b | RAlt a b => group_fits fl a w \/ group_fits fl b w
  | ROpt a => group_fits fl a w
  | RGroup _ a => fits fl a w \/ group_fits fl a w
  | _ => False
  end.

(** Nine decimal digits. *)
Definition nine_digits (d : jsstr) : Prop :=
  length d = 9 /\ Forall (fun c => isDigit c = true) d.

(** Patterns that end with the capturing group 1. *)
Fixpoint ends_with_group (r : regex) : bool :=
  match r with
  | RGroup 1 _ => true
  | RSeq _ b => ends_with_group b
  | _ => false
  end.

(** Quoted-printable text with an upper-case and a lower-case escape and
    a soft line break. *)
Definition qp_sample : list qp_token :=
  [QpChar 72; QpByte true 0xC3; QpByte false 0xA9; QpSoftBreak true; QpChar 33]%N.

(** The entry of Ualá in the registry. *)
Definition uala_entry : institution :=
  mk_inst "uala" "Ualá" "fintech"
    ["@uala.com.ar"; "@notificaciones.uala.com.ar"]
    ["@marketing.uala.com.ar"; "@promo.uala.com.ar"].

(** The time stamp used in the examples. *)
Definition noon : jsstr := js "2024-01-01T12:00:00.000Z".

(** A notice of a transfer with a counterparty. *)
Definition transfer_subject : jsstr := js "Transferencia enviada".
Definition transfer_body : jsstr :=
  js "Le transferiste a Juan Perez $1.500,50. Operacion: 12345678".

(** * Properties

    ** Strings *)

Lemma str_eqb_eq a b : str_eqb a b = true <-> a = b.
Proof.
  revert b; induction a as [|x a IH]; intros [|y b]; simpl; split;
    try congruence; try reflexivity.
  - rewrite andb_true_iff, N.eqb_eq, IH. intros [-> ->]; reflexivity.
  - intros [= -> ->]. rewrite N.eqb_refl, (proj2 (IH b) eq_refl). reflexivity.
Qed.

(** ** The matcher *)

Lemma reads_refl P st : reads P st [] st.
Proof. unfold reads; simpl; repeat split; auto. Qed.

Lemma reads_trans P st1 w1 st2 w2 st3 :
  reads P st1 w1 st2 -> reads P st2 w2 st3 -> reads P st1 (w1 ++ w2) st3.
Proof.
  intros (E1 & L1 & F1) (E2 & L2 & F2). unfold reads.
  rewrite E1, E2, L2, L1, length_app, <- app_assoc, Forall_app. repeat split; auto. lia.
Qed.

Lemma rep_reads fl P cs greedy :
  (forall c, cs_match fl cs c = true -> P c) ->
  forall l lo hi p pv cp k res,
    rep fl cs greedy lo hi l p pv cp k = Some res ->
    exists w st', reads P (MState p pv l cp) w st' /\ lo <= length w
                  /\ within hi (length w) /\ k st' = Some res.
Proof.
  intros HP.
  assert (Hnil : forall hi, within hi 0) by (intros [h|]; simpl; lia).
  induction l as [|c tl IH]; intros lo hi p pv cp k res H.
  - assert (Hk : k (MState p pv [] cp) = Some res /\ lo = 0).
    { simpl in H. destruct greedy; destruct lo; try discriminate; split; auto.
      destruct (k (MState p pv [] cp)); [assumption|discriminate]. }
    destruct Hk as [Hk ->].
    exists [], (MState p pv [] cp).
    split; [apply reads_refl|split; [simpl; lia|split; [apply Hnil|assumption]]].
  - simpl in H.
    assert (Hmore : forall r0,
      (if more_allowed hi && cs_match fl cs c
       then rep fl cs greedy (Nat.pred lo) (dec_hi hi) tl (S p) (Some c) cp k else None) = Some r0 ->
      exists w st', reads P (MState p pv (c :: tl) cp) w st' /\ lo <= length w
                    /\ within hi (length w) /\ k st' = Some r0).
    { intros r0 Hr. destruct (more_allowed hi && cs_match fl cs c) eqn:E; [|discriminate].
      apply andb_true_iff in E. destruct E as [Ea E].
      apply IH in Hr. destruct Hr as (w & st' & (E1 & L1 & F1) & Hlo & Hhi & Hk).
      exists (c :: w), st'. split; [|split; [simpl; lia|split; [|exact Hk]]].
      - unfold reads; simpl in *. rewrite E1, L1. repeat split; auto; lia.
      - destruct hi as [[|h]|]; simpl in *; try discriminate; try lia; auto. }
    assert (Hstop : forall r0,
      match lo with 0 => k (MState p pv (c :: tl) cp) | S _ => None end = Some r0 ->
      exists w st', reads P (MState p pv (c :: tl) cp) w st' /\ lo <= length w
                    /\ within hi (length w) /\ k st' = Some r0).
    { intros r0 Hr. destruct lo; [|discriminate].
      exists [], (MState p pv (c :: tl) cp).
      split; [apply reads_refl|split; [simpl; lia|split; [apply Hnil|assumption]]]. }
    destruct greedy.
    + destruct (if more_allowed hi && cs_match fl cs c then _ else None) eqn:E.
      * inversion H; subst. apply Hmore; assumption.
      * apply Hstop; assumption.
    + destruct (match lo with 0 => _ | S _ => None end) eqn:E.
      * inversion H; subst. apply Hstop; assumption.
      * apply Hmore; assumption.
Qed.

Lemma rmatch_reads fl r :
  forall st k res,
    rmatch fl r st k = Some res ->
    exists w st', reads (fun _ => True) st w st' /\ (nonempty r = true -> w <> [])
                  /\ k st' = Some res.
Proof.
  induction r; simpl; intros st k res H.
  - exists [], st. split; [apply reads_refl|split; [discriminate|assumption]].
  - destruct (rest st) as [|x tl] eqn:E; [discriminate|].
    destruct (cs_match fl c x) eqn:Ec; [|discriminate].
    exists [x], (MState (S (pos st)) (Some x) tl (caps st)). split; [|split; [discriminate|assumption]].
    unfold reads; simpl. rewrite E. repeat split; auto. lia.
  - apply IHr1 in H. destruct H as (w1 & st1 & R1 & N1 & H1).
    apply IHr2 in H1. destruct H1 as (w2 & st2 & R2 & N2 & H2).
    exists (w1 ++ w2), st2. split; [eapply reads_trans; eauto|split; [|assumption]].
    intros Hn. apply orb_true_iff in Hn. intros Hw. apply app_eq_nil in Hw.
    destruct Hw. destruct Hn; [apply N1|apply N2]; assumption.
  - destruct (rmatch fl r1 st k) eqn:E1.
    + inversion H; subst. apply IHr1 in E1. destruct E1 as (w & st' & R & N & Hk).
      exists w, st'. repeat split; try apply R; auto.
      intros Hn. apply andb_true_iff in Hn. apply N, Hn.
    + apply IHr2 in H. destruct H as (w & st' & R & N & Hk).
      exists w, st'. repeat split; try apply R; auto.
      intros Hn. apply andb_true_iff in Hn. apply N, Hn.
  - eapply rep_reads with (P := fun _ => True) in H; [|auto].
    destruct H as (w & st' & R & Hlo & _ & Hk).
    exists w, st'. split; [|split; [|assumption]].
    + destruct st; exact R.
    + intros Hn Hw. subst w. simpl in Hlo. destruct lo; [discriminate|lia].
  - destruct (rmatch fl r st k) eqn:E1.
    + inversion H; subst. apply IHr in E1. destruct E1 as (w & st' & R & N & Hk).
      exists w, st'. split; [assumption|split; [discriminate|assumption]].
    + exists [], st. split; [apply reads_refl|split; [discriminate|assumption]].
  - apply IHr in H. destruct H as (w & st' & R & N & Hk).
    eexists w, _. split; [|split; [exact N|exact Hk]].
    destruct R as (E1 & L1 & F1). unfold reads; simpl. auto.
  - destruct (at_bol fl st); [|discriminate].
    exists [], st. split; [apply reads_refl|split; [discriminate|assumption]].
  - destruct (at_eol fl st); [|discriminate].
    exists [], st. split; [apply reads_refl|split; [discriminate|assumption]].
Qed.

Lemma match_at_bounds fl r p pv l m :
  match_at fl r p pv l = Some m ->
  m_index m = p /\ p <= m_end m /\ m_end m <= p + length l
  /\ (nonempty r = true -> p < m_end m).
Proof.
  unfold match_at. destruct (rmatch fl r (MState p pv l []) Some) as [st|] eqn:E; [|discriminate].
  intros [= <-]. simpl.
  apply rmatch_reads in E.
  destruct E as (w & st' & (E1 & L1 & _) & N & [= ->]). simpl in *.
  rewrite L1. split; [reflexivity|]. split; [lia|]. split.
  - rewrite E1, length_app. lia.
  - intros Hn. specialize (N Hn). destruct w; [congruence|simpl; lia].
Qed.

Lemma search_bounds fl r : forall l p pv m,
  search fl r p pv l = Some m ->
  p <= m_index m /\ m_index m <= m_end m /\ m_end m <= p + length l
  /\ (nonempty r = true -> m_index m < m_end m).
Proof.
  induction l as [|c tl IH]; intros p pv m H; simpl in H;
    destruct (match_at fl r p pv _) as [m0|] eqn:E.
  - inversion H; subst. apply match_at_bounds in E. destruct E as (-> & ? & ? & ?). auto with arith.
  - discriminate.
  - inversion H; subst. apply match_at_bounds in E. destruct E as (-> & ? & ? & ?). auto with arith.
  - apply IH in H. simpl. destruct H as (? & ? & ? & ?). repeat split; auto; lia.
Qed.

Lemma exec_from_bounds fl r : forall i l p pv m,
  exec_from fl r i p pv l = Some m ->
  p + i <= m_index m /\ m_index m <= m_end m /\ m_end m <= p + length l
  /\ (nonempty r = true -> m_index m < m_end m).
Proof.
  induction i as [|i IH]; intros l p pv m H.
  - simpl in H. apply search_bounds in H. rewrite Nat.add_0_r. exact H.
  - destruct l as [|c tl]; simpl in H; [discriminate|].
    apply IH in H. simpl. destruct H as (? & ? & ? & ?). repeat split; auto; lia.
Qed.

(** The matches that [replace], [split] and [match] enumerate are those
    that repeated calls of [exec] return. *)
Lemma match_all_exec fl r :
  nonempty r = true ->
  forall l skip p pv,
    match_all_from fl r skip p pv l =
    match exec_from fl r skip p pv l with
    | None => []
    | Some m => m :: match_all_from fl r (m_end m - p) p pv l
    end.
Proof.
  intros Hn. induction l as [|c tl IH]; intros skip p pv.
  - destruct skip; simpl; [|reflexivity].
    destruct (match_at fl r p pv []) as [m|] eqn:E; [|reflexivity].
    apply match_at_bounds in E. destruct E as (_ & _ & Hle & Hlt). specialize (Hlt Hn).
    simpl in Hle. lia.
  - destruct skip as [|skip].
    + simpl. destruct (match_at fl r p pv (c :: tl)) as [m|] eqn:E.
      * apply match_at_bounds in E. destruct E as (_ & _ & _ & Hlt). specialize (Hlt Hn).
        destruct (m_end m - p) as [|d] eqn:Ed; [lia|]. reflexivity.
      * rewrite (IH 0). change (exec_from fl r 0 (S p) (Some c) tl) with (search fl r (S p) (Some c) tl).
        destruct (search fl r (S p) (Some c) tl) as [m|] eqn:Es; [|reflexivity].
        apply search_bounds in Es. destruct Es as (? & ? & _ & _).
        replace (m_end m - p) with (S (m_end m - S p)) by lia. reflexivity.
    + simpl. rewrite (IH skip).
      destruct (exec_from fl r skip (S p) (Some c) tl) as [m|] eqn:Es; [|reflexivity].
      apply exec_from_bounds in Es. destruct Es as (? & ? & _ & _).
      replace (m_end m - p) with (S (m_end m - S p)) by lia. reflexivity.
Qed.

(** The [while] loop folds its body over all matches from [lastIndex]
    on, and ends within [length text - lastIndex + 1] iterations. *)
Lemma amount_loop_fold fl r text :
  nonempty r = true ->
  forall fuel lastIndex maxAmount,
    length text - lastIndex < fuel ->
    amount_loop fuel fl r text lastIndex maxAmount =
    Some (fold_left amount_step (match_all_from fl r lastIndex 0 None text) maxAmount).
Proof.
  intros Hn. induction fuel as [|fuel IH]; intros i acc Hf; [lia|].
  simpl. rewrite match_all_exec by exact Hn. unfold exec.
  destruct (exec_from fl r i 0 None text) as [m|] eqn:E; [|reflexivity].
  apply exec_from_bounds in E. destruct E as (? & ? & ? & Hlt). specialize (Hlt Hn).
  rewrite Nat.sub_0_r. simpl. apply IH. simpl in *. lia.
Qed.

(** ** Facts on numbers *)

Lemma gt_false_le a b : isNaN a = false -> isNaN b = false -> gt a b = false -> le a b = true.
Proof.
  destruct a, b; simpl; try congruence. intros _ _ H.
  apply negb_false_iff in H. exact H.
Qed.

Lemma gt_true_le a b : gt a b = true -> le b a = true.
Proof.
  destruct a, b; simpl; try congruence. intros H. apply negb_true_iff in H.
  apply Qle_bool_iff. destruct (Qlt_le_dec q0 q) as [Hlt|Hle].
  - apply Qlt_le_weak, Hlt.
  - apply Qle_bool_iff in Hle. congruence.
Qed.

Lemma le_refl_num a : isNaN a = false -> le a a = true.
Proof. destruct a; simpl; try congruence. intros _. apply Qle_bool_iff, Qle_refl. Qed.

Lemma le_trans_num a b c : le a b = true -> le b c = true -> le a c = true.
Proof.
  destruct a, b, c; simpl; try congruence. rewrite !Qle_bool_iff. apply Qle_trans.
Qed.

Lemma fold_amount_step ms : forall acc,
  fold_left amount_step ms acc =
  fold_left pick_max (map (fun m => parseArgentineAmount (capture1 m)) ms) acc.
Proof. induction ms as [|m ms IH]; intros acc; simpl; [reflexivity|apply IH]. Qed.

Lemma fold_pick_max cs : forall acc,
  isNaN acc = false -> Forall (fun c => isNaN c = false) cs ->
  let r := fold_left pick_max cs acc in
  isNaN r = false /\ le acc r = true /\ (forall c, In c cs -> le c r = true)
  /\ (r = acc \/ In r cs).
Proof.
  induction cs as [|c cs IH]; intros acc Ha Hcs; simpl.
  - split; [exact Ha|]. split; [apply le_refl_num, Ha|].
    split; [intros c []|left; reflexivity].
  - inversion Hcs as [|? ? Hc Hcs']; subst.
    assert (Hp : isNaN (pick_max acc c) = false /\ le acc (pick_max acc c) = true
                 /\ le c (pick_max acc c) = true /\ (pick_max acc c = acc \/ pick_max acc c = c)).
    { unfold pick_max. destruct (gt c acc) eqn:E.
      - split; [exact Hc|]. split; [apply gt_true_le, E|].
        split; [apply le_refl_num, Hc|right; reflexivity].
      - split; [exact Ha|]. split; [apply le_refl_num, Ha|].
        split; [apply gt_false_le; auto|left; reflexivity]. }
    destruct Hp as (Hn & Hle1 & Hle2 & Hor).
    destruct (IH (pick_max acc c) Hn Hcs') as (Hr & Hle & Hall & Hin).
    split; [exact Hr|]. split; [eapply le_trans_num; eauto|]. split.
    + intros x [<-|Hx]; [eapply le_trans_num; eauto|apply Hall, Hx].
    + destruct Hin as [Hin|Hin]; [|right; right; exact Hin].
      rewrite Hin. destruct Hor as [->| ->]; [left; reflexivity|right; left; reflexivity].
Qed.

Lemma parseArgentineAmount_num str : isNaN (parseArgentineAmount str) = false.
Proof.
  unfold parseArgentineAmount.
  destruct (isNaN (parseFloat _)) eqn:E; [reflexivity|exact E].
Qed.

Lemma amount_patterns_nonempty : Forall (fun p => nonempty (snd p) = true) amount_patterns.
Proof. repeat constructor. Qed.

Lemma amount_patterns_loop_fold text fuel :
  length text < fuel ->
  forall ps, Forall (fun p => nonempty (snd p) = true) ps ->
  forall maxAmount,
    amount_patterns_loop fuel ps text maxAmount =
    Some (fold_left amount_step (flat_map (fun p => match_all (fst p) (snd p) text) ps)
                    maxAmount).
Proof.
  intros Hf. induction ps as [|[fl r] ps IH]; intros Hps acc; simpl; [reflexivity|].
  inversion Hps as [|? ? Hr Hps']; subst. simpl in Hr.
  rewrite amount_loop_fold by (auto; lia).
  rewrite IH by assumption. rewrite fold_left_app. reflexivity.
Qed.

(** The fuel [extractAmount] gives the loops is enough: with any larger
    fuel the result is the same. *)
Lemma extractAmount_fuel_enough text n :
  extractAmount_fuel (S (length text) + n) text = Some (extractAmount text)
  /\ extractAmount text = fold_left pick_max (amount_candidates text) zero.
Proof.
  assert (H : forall fuel, length text < fuel ->
    extractAmount_fuel fuel text = Some (fold_left pick_max (amount_candidates text) zero)).
  { intros fuel Hf. unfold extractAmount_fuel.
    rewrite amount_patterns_loop_fold by (auto using amount_patterns_nonempty).
    rewrite fold_amount_step. reflexivity. }
  unfold extractAmount. rewrite !H by lia. split; reflexivity.
Qed.

(** ** The captures of the amount patterns *)

Lemma upper1_low c : (upper1 c < 65)%N -> upper1 c = c.
Proof.
  unfold upper1.
  destruct (N.leb_spec 97 c), (N.leb_spec c 122); simpl; try lia;
    destruct (N.leb_spec 0xE0 c), (N.leb_spec c 0xFE), (N.eqb_spec c 0xF7); simpl; try lia;
    destruct (N.eqb_spec c 0xFF); simpl; lia.
Qed.

Lemma lower1_low c : (lower1 c < 65)%N -> lower1 c = c.
Proof.
  unfold lower1.
  destruct (N.leb_spec 65 c), (N.leb_spec c 90); simpl; try lia;
    destruct (N.leb_spec 0xC0 c), (N.leb_spec c 0xDE), (N.eqb_spec c 0xD7); simpl; try lia;
    destruct (N.eqb_spec c 0x178); simpl; lia.
Qed.

Lemma in_ranges_spec rs c :
  in_ranges rs c = true <-> exists a b, In (a, b) rs /\ (a <= c <= b)%N.
Proof.
  unfold in_ranges. rewrite existsb_exists. split.
  - intros ([a b] & Hin & H). simpl in H. apply andb_true_iff in H.
    rewrite !N.leb_le in H. eauto.
  - intros (a & b & Hin & H). exists (a, b). split; [assumption|]. simpl.
    apply andb_true_iff. rewrite !N.leb_le. exact H.
Qed.

(** A class whose ranges lie below the letters matches the same code
    units with and without the [i] flag. *)
Lemma cs_match_low fl rs c :
  (forall a b, In (a, b) rs -> (b < 65)%N) ->
  cs_match fl (cls rs) c = true -> in_ranges rs c = true.
Proof.
  intros Hlow. unfold cs_match, cls. simpl. destruct (in_ranges rs c) eqn:E0; [reflexivity|].
  simpl. destruct (ignoreCase fl); simpl; [|discriminate].
  intros H. apply orb_true_iff in H. destruct H as [H|H];
    apply in_ranges_spec in H; destruct H as (a & b & Hin & Hc);
    pose proof (Hlow _ _ Hin) as Hb.
  - rewrite upper1_low in Hc by lia. rewrite <- E0. apply in_ranges_spec; eauto.
  - rewrite lower1_low in Hc by lia. rewrite <- E0. apply in_ranges_spec; eauto.
Qed.

Lemma isDigit_spec c : isDigit c = true <-> (48 <= c <= 57)%N.
Proof. unfold isDigit. rewrite andb_true_iff, !N.leb_le. reflexivity. Qed.

Lemma reads_weaken (P Q : N -> Prop) st w st' :
  (forall c, P c -> Q c) -> reads P st w st' -> reads Q st w st'.
Proof.
  intros H (E & L & F). repeat split; auto. eapply Forall_impl; [|exact F]. exact H.
Qed.

Lemma cs_match_digit_i fl c : cs_match fl cs_digit c = true -> isDigit c = true.
Proof.
  intros H. apply cs_match_low in H.
  - apply in_ranges_spec in H. destruct H as (a & b & [[= <- <-]|[]] & Hc).
    apply isDigit_spec, Hc.
  - intros a b [[= <- <-]|[]]; reflexivity.
Qed.

Lemma cs_match_digit_dot_i fl c :
  cs_match fl (cls (digit_ranges ++ chars ".")) c = true -> digit_or_dot c.
Proof.
  intros H. apply cs_match_low in H.
  - apply in_ranges_spec in H. destruct H as (a & b & Hin & Hc).
    simpl in Hin. destruct Hin as [[= <- <-]|[[= <- <-]|[]]].
    + left. apply isDigit_spec, Hc.
    + right. lia.
  - intros a b Hin. simpl in Hin.
    destruct Hin as [[= <- <-]|[[= <- <-]|[]]]; reflexivity.
Qed.

Lemma cs_match_comma_i fl c : cs_match fl (one 44) c = true -> c = 44%N.
Proof.
  intros H. change (one 44) with (cls [(44, 44)]%N) in H. apply cs_match_low in H.
  - apply in_ranges_spec in H. destruct H as (a & b & [[= <- <-]|[]] & Hc). lia.
  - intros a b [[= <- <-]|[]]; reflexivity.
Qed.

Lemma re_number_reads fl st k res :
  rmatch fl (RSeq (plus (cls (digit_ranges ++ chars ".")))
                  (ROpt (RSeq (lit ",") (exactly 2 cs_digit)))) st k = Some res ->
  exists w st', reads (fun _ => True) st w st' /\ amount_shape w /\ k st' = Some res.
Proof.
  change (lit ",") with (RChar (one 44)). unfold plus, exactly.
  cbn [rmatch]. intros H.
  eapply rep_reads in H; [|apply cs_match_digit_dot_i].
  destruct H as (d & st1 & R1 & Hlo & _ & H). cbn beta iota in H. cbn [rest pos prev caps] in H.
  assert (Hd : d <> []) by (intros ->; simpl in Hlo; lia).
  assert (R1' : reads (fun _ => True) st d st1).
  { destruct st. eapply reads_weaken; [|exact R1]. auto. }
  destruct (match rest st1 with
            | c :: tl =>
              if cs_match fl (one 44) c
              then rep fl cs_digit true 2 (Some 2) tl (S (pos st1)) (Some c) (caps st1) k
              else None
            | [] => None
            end) as [r|] eqn:E2.
  - injection H as Hr. subst r.
    destruct (rest st1) as [|c tl] eqn:Er; [discriminate|].
    destruct (cs_match fl (one 44) c) eqn:Ec; [|discriminate].
    apply cs_match_comma_i in Ec. subst c.
    eapply rep_reads in E2; [|apply cs_match_digit_i].
    destruct E2 as (w2 & st2 & (E & L & F) & Hlo2 & Hhi2 & Hk).
    cbn [rest pos] in E, L. simpl in Hhi2.
    destruct w2 as [|x [|y [|z w2]]]; simpl in Hlo2, Hhi2; try lia.
    assert (Hx : isDigit x = true) by (inversion F; assumption).
    assert (Hy : isDigit y = true) by (inversion F as [|? ? ? F']; inversion F'; assumption).
    exists (d ++ [44%N; x; y]), st2. split; [|split; [|exact Hk]].
    + destruct R1' as (E1 & L1 & _). unfold reads.
      rewrite E1, Er, E, L, L1, length_app, <- app_assoc. simpl.
      repeat split; [lia|]. apply Forall_forall; auto.
    + exists d. split; [exact Hd|]. split; [destruct R1 as (_ & _ & F1); exact F1|].
      right. exists x, y. auto.
  - exists d, st1. split; [exact R1'|]. split; [|exact H].
    exists d. split; [exact Hd|]. split; [destruct R1 as (_ & _ & F1); exact F1|]. left; reflexivity.
Qed.

(** The capture of a pattern [A B (body)] is a string its body reads. *)
Lemma group_capture_reads fl A B body (Q : jsstr -> Prop) p pv l m :
  (forall st k res, rmatch fl body st k = Some res ->
     exists w st', reads (fun _ => True) st w st' /\ Q w /\ k st' = Some res) ->
  match_at fl (rseq [A; B; RGroup 1 body]) p pv l = Some m ->
  exists w, group 1 m = Some w /\ Q w.
Proof.
  intros HQ. unfold match_at. simpl rseq. simpl rmatch.
  destruct (rmatch fl A _ _) as [res|] eqn:E; [|discriminate].
  intros [= <-].
  apply rmatch_reads in E.
  destruct E as (_ & s1 & _ & _ & E).
  apply rmatch_reads in E.
  destruct E as (_ & s2 & _ & _ & E).
  apply HQ in E.
  destruct E as (w & s3 & (E1 & L1 & F1) & HQw & [= <-]).
  exists w. unfold group; simpl. rewrite L1, E1.
  replace (pos s2 + length w - pos s2) with (length w + 0) by lia.
  rewrite firstn_app_2. simpl. rewrite app_nil_r. auto.
Qed.

Lemma amount_capture_shape fl r p pv l m :
  In (fl, r) amount_patterns ->
  match_at fl r p pv l = Some m ->
  group 1 m = Some (capture1 m) /\ amount_shape (capture1 m).
Proof.
  intros Hin H.
  assert (Hg : exists w, group 1 m = Some w /\ amount_shape w).
  { simpl in Hin. destruct Hin as [[= <- <-]|[[= <- <-]|[]]].
    - exact (@group_capture_reads no_flags _ _ _ amount_shape _ _ _ _
               (@re_number_reads no_flags) H).
    - exact (@group_capture_reads flag_i _ _ _ amount_shape _ _ _ _
               (@re_number_reads flag_i) H). }
  destruct Hg as (w & Hg & Hs). unfold capture1. rewrite Hg. auto.
Qed.

Lemma match_all_from_In fl r : forall l skip p pv m,
  In m (match_all_from fl r skip p pv l) ->
  exists p' pv' l', match_at fl r p' pv' l' = Some m.
Proof.
  induction l as [|c tl IH]; intros skip p pv m H; destruct skip; simpl in H.
  - destruct (match_at fl r p pv []) eqn:E; [|destruct H].
    destruct H as [<-|[]]. eauto.
  - destruct H.
  - destruct (match_at fl r p pv (c :: tl)) eqn:E.
    + destruct H as [<-|H]; [eauto|]. eapply IH; eauto.
    + eapply IH; eauto.
  - eapply IH; eauto.
Qed.

Lemma match_all_from_head fl r : forall l skip p pv m ms,
  match_all_from fl r skip p pv l = m :: ms ->
  p + skip <= m_index m /\ m_index m <= m_end m.
Proof.
  induction l as [|c tl IH]; intros skip p pv m ms H; destruct skip; simpl in H.
  - destruct (match_at fl r p pv []) eqn:E; [|discriminate].
    inversion H; subst. apply match_at_bounds in E. lia.
  - discriminate.
  - destruct (match_at fl r p pv (c :: tl)) eqn:E.
    + inversion H; subst. apply match_at_bounds in E. lia.
    + apply IH in H. lia.
  - apply IH in H. lia.
Qed.

Lemma replace_from_shift f c tl p ms :
  (forall m ms', ms = m :: ms' -> S p <= m_index m /\ m_index m <= m_end m) ->
  replace_from ms f p (c :: tl) = c :: replace_from ms f (S p) tl.
Proof.
  destruct ms as [|m ms']; intros H; simpl; [reflexivity|].
  destruct (H m ms' eq_refl) as [H1 H2].
  replace (m_index m - p) with (S (m_index m - S p)) by lia.
  replace (m_end m - p) with (S (m_end m - S p)) by lia.
  reflexivity.
Qed.

Lemma cs_match_one c x : cs_match no_flags (one x) c = (c =? x)%N.
Proof.
  unfold cs_match, one, in_ranges. simpl.
  destruct (N.leb_spec x c), (N.leb_spec c x), (N.eqb_spec c x); simpl; try reflexivity; lia.
Qed.

Lemma cs_match_digit c : cs_match no_flags cs_digit c = isDigit c.
Proof.
  unfold cs_match, cs_digit, digit_ranges, in_ranges, isDigit. simpl.
  rewrite !orb_false_r. reflexivity.
Qed.

Lemma re_dot_eq : re_dot = RChar (one 46).
Proof. reflexivity. Qed.

Lemma match_at_char fl cs p pv c tl :
  match_at fl (RChar cs) p pv (c :: tl) =
  if cs_match fl cs c then Some (Match p (S p) (firstn (S p - p) (c :: tl)) []) else None.
Proof. unfold match_at. simpl. destruct (cs_match fl cs c); reflexivity. Qed.

Lemma replace_dot_from : forall l p pv,
  replace_from (match_all_from no_flags re_dot 0 p pv l) (fun _ => []) p l = undot l.
Proof.
  rewrite re_dot_eq.
  induction l as [|c tl IH]; intros p pv.
  - reflexivity.
  - cbn [match_all_from]. rewrite match_at_char, cs_match_one.
    cbn [undot filter]. destruct (c =? 46)%N; cbn [negb].
    + cbn [m_end m_index replace_from].
      replace (S p - p) with 1 by lia. replace (p - p) with 0 by lia.
      cbn [Nat.pred firstn skipn app]. apply IH.
    + rewrite replace_from_shift.
      * rewrite IH. reflexivity.
      * intros m ms' Hm. apply match_all_from_head in Hm. lia.
Qed.

Lemma replace_all_dot s : replace_all no_flags re_dot (fun _ => []) s = undot s.
Proof. apply replace_dot_from. Qed.

(** ** [parseArgentineAmount] on the strings the patterns capture *)


Lemma trimStart_id c s : isWhiteSpace c = false -> trimStart (c :: s) = c :: s.
Proof. intros H. simpl. rewrite H. reflexivity. Qed.

Lemma trim_id s :
  Forall (fun c => isWhiteSpace c = false) s -> trim s = s.
Proof.
  intros H. unfold trim, trimEnd.
  assert (E : forall t, Forall (fun c => isWhiteSpace c = false) t -> trimStart t = t).
  { intros [|c t] Ht; [reflexivity|]. inversion Ht; subst. apply trimStart_id; assumption. }
  rewrite (E s H). rewrite E; [apply rev_involutive|].
  apply Forall_forall. intros c Hc. apply in_rev in Hc.
  rewrite Forall_forall in H. apply H, Hc.
Qed.

Lemma digit_or_dot_not_ws c : digit_or_dot c -> isWhiteSpace c = false.
Proof.
  intros [H| ->]; [|reflexivity]. apply isDigit_spec in H.
  unfold isWhiteSpace.
  repeat match goal with
  | |- context [(?a <=? ?b)%N] => destruct (N.leb_spec a b)
  | |- context [(?a =? ?b)%N] => destruct (N.eqb_spec a b)
  end; simpl; try reflexivity; lia.
Qed.

Lemma re_decimal_tail_eq :
  re_decimal_tail = RSeq (RChar (one 44)) (RSeq (RRep cs_digit 2 (Some 2) true) REol).
Proof. reflexivity. Qed.

Lemma decimal_tail_at_other p pv c tl :
  c <> 44%N -> match_at no_flags re_decimal_tail p pv (c :: tl) = None.
Proof.
  intros H. rewrite re_decimal_tail_eq. unfold match_at. simpl.
  rewrite cs_match_one. destruct (N.eqb_spec c 44); [contradiction|reflexivity].
Qed.

Lemma decimal_tail_at_tail p pv x y :
  isDigit x = true -> isDigit y = true ->
  match_at no_flags re_decimal_tail p pv [44%N; x; y] <> None.
Proof.
  intros Hx Hy. rewrite re_decimal_tail_eq. unfold match_at.
  cbn [rmatch rest]. rewrite cs_match_one. cbn [N.eqb Pos.eqb].
  cbn [rmatch rep rest pos prev caps more_allowed dec_hi andb Nat.pred].
  rewrite cs_match_digit, Hx.
  cbn [rmatch rep rest pos prev caps more_allowed dec_hi andb Nat.pred].
  rewrite cs_match_digit, Hy.
  cbn [rmatch rep rest pos prev caps more_allowed dec_hi andb Nat.pred at_eol].
  discriminate.
Qed.

Lemma search_hit fl r p pv l :
  match_at fl r p pv l <> None -> search fl r p pv l <> None.
Proof. destruct l; simpl; destruct (match_at fl r p pv _); congruence. Qed.

Lemma search_miss fl r p pv c tl :
  match_at fl r p pv (c :: tl) = None ->
  search fl r p pv (c :: tl) = search fl r (S p) (Some c) tl.
Proof. intros H. simpl. rewrite H. reflexivity. Qed.

(** [/,\d{2}$/.test(s)] on the two shapes. *)
Lemma test_decimal_tail_yes d x y :
  Forall digit_or_dot d -> isDigit x = true -> isDigit y = true ->
  test no_flags re_decimal_tail (d ++ [44%N; x; y]) = true.
Proof.
  intros Hd Hx Hy. unfold test, str_match.
  assert (H : forall pv p, search no_flags re_decimal_tail p pv (d ++ [44%N; x; y]) <> None).
  { induction d as [|c d IH]; intros pv p.
    - apply search_hit, decimal_tail_at_tail; assumption.
    - inversion Hd as [|? ? Hc Hd']; subst. rewrite <- app_comm_cons, search_miss.
      + apply IH, Hd'.
      + apply decimal_tail_at_other.
        destruct Hc as [Hc| ->]; [|discriminate]. apply isDigit_spec in Hc. lia. }
  specialize (H None 0). destruct (search _ _ _ _ _); congruence.
Qed.

Lemma test_decimal_tail_no d :
  Forall digit_or_dot d -> test no_flags re_decimal_tail d = false.
Proof.
  intros Hd. unfold test, str_match.
  assert (H : forall pv p, search no_flags re_decimal_tail p pv d = None).
  { induction d as [|c d IH]; intros pv p.
    - reflexivity.
    - inversion Hd as [|? ? Hc Hd']; subst. rewrite search_miss.
      + apply IH, Hd'.
      + apply decimal_tail_at_other.
        destruct Hc as [Hc| ->]; [|discriminate]. apply isDigit_spec in Hc. lia. }
  rewrite H. reflexivity.
Qed.

Lemma undot_app a b : undot (a ++ b) = undot a ++ undot b.
Proof. apply filter_app. Qed.

Lemma undot_digits d : Forall digit_or_dot d -> Forall (fun c => isDigit c = true) (undot d).
Proof.
  intros H. apply Forall_forall. intros c Hc. apply filter_In in Hc.
  destruct Hc as [Hin Hne]. rewrite Forall_forall in H.
  destruct (H c Hin) as [Hd| ->]; [exact Hd|discriminate].
Qed.

Lemma startsWith_nil s : startsWith s [] = true.
Proof. destruct s; reflexivity. Qed.

Lemma replace_first_comma d t :
  Forall (fun c => isDigit c = true) d ->
  replace_first (d ++ 44%N :: t) (js ",") (js ".") = d ++ 46%N :: t.
Proof.
  change (js ",") with [44%N]. change (js ".") with [46%N].
  induction d as [|c d IH]; intros Hd.
  - cbn [app replace_first startsWith]. rewrite N.eqb_refl, startsWith_nil. reflexivity.
  - inversion Hd as [|? ? Hc Hd']; subst.
    rewrite <- !app_comm_cons. cbn [replace_first startsWith].
    apply isDigit_spec in Hc.
    destruct (N.eqb_spec c 44) as [->|_]; [lia|].
    cbn [andb]. rewrite IH by assumption. reflexivity.
Qed.

Lemma span_digits_app d t :
  Forall (fun c => isDigit c = true) d ->
  match t with c :: _ => isDigit c = false | [] => True end ->
  span_digits (d ++ t) = (d, t).
Proof.
  intros Hd Ht. induction d as [|c d IH].
  - simpl. destruct t as [|c t]; [reflexivity|]. simpl. rewrite Ht. reflexivity.
  - inversion Hd as [|? ? Hc Hd']; subst. simpl. rewrite Hc, IH by assumption. reflexivity.
Qed.

Lemma digit_first_tests c :
  isDigit c = true \/ c = 46%N ->
  isWhiteSpace c = false /\ (c =? 45)%N = false /\ (c =? 43)%N = false
  /\ (c =? 73)%N = false.
Proof.
  intros H. split; [apply digit_or_dot_not_ws, H|].
  destruct H as [H| ->]; [|repeat split; reflexivity].
  apply isDigit_spec in H. repeat split; apply N.eqb_neq; lia.
Qed.

(** ** Rounding to a double *)

Lemma Qred_int z : Qred (z # 1)%Q = (z # 1)%Q.
Proof. apply Qcanon.Qred_identity. simpl. apply Z.gcd_1_r. Qed.

Lemma scale_up n k : (0 <= k)%Z -> scale n k = (n * 2 ^ k)%Z.
Proof. intros H. unfold scale. rewrite Z.max_r by exact H. reflexivity. Qed.

Lemma scale_down n k : (k <= 0)%Z -> scale n k = n.
Proof. intros H. unfold scale. rewrite Z.max_l by exact H. apply Z.mul_1_r. Qed.

Lemma scale_nonneg n k : (0 <= n)%Z -> (0 <= scale n k)%Z.
Proof.
  intros H. unfold scale. apply Z.mul_nonneg_nonneg; [exact H|].
  apply Z.pow_nonneg. lia.
Qed.

Lemma scale_pos n k : (0 < n)%Z -> (0 < scale n k)%Z.
Proof.
  intros H. unfold scale. apply Z.mul_pos_pos; [exact H|].
  apply Z.pow_pos_nonneg; lia.
Qed.

Lemma round_half_even_nonneg n d : (0 <= n)%Z -> (0 < d)%Z -> (0 <= round_half_even n d)%Z.
Proof.
  intros Hn Hd. unfold round_half_even.
  assert (0 <= n / d)%Z by (apply Z.div_pos; assumption).
  destruct (2 * (n mod d) ?= d)%Z; [destruct (Z.even _)| |]; lia.
Qed.

Lemma round_half_even_whole n : round_half_even n 1 = n.
Proof. unfold round_half_even. rewrite Z.div_1_r, Z.mod_1_r. reflexivity. Qed.

(** The result is never [NaN], and equal reals have the same double. *)
Lemma to_double_num x : isNaN (to_double x) = false.
Proof.
  unfold to_double. destruct (Qnum (Qred x)); [reflexivity| |];
    destruct (round_positive _ _); reflexivity.
Qed.

Lemma to_double_Qeq x y : (x == y)%Q -> to_double x = to_double y.
Proof. intros H. unfold to_double. rewrite (Qred_complete x y H). reflexivity. Qed.

(** The double of a real at least 0 is at least 0, or [Infinity]. *)
Lemma to_double_nonneg x :
  (0 <= x)%Q -> to_double x = PosInf \/ exists v, to_double x = Fin (Qred v) /\ (0 <= v)%Q.
Proof.
  intros Hx. rewrite <- (Qred_correct x) in Hx. unfold to_double.
  destruct (Qred x) as [n d]. unfold Qle in Hx. cbn [Qnum Qden] in *.
  destruct n as [|n|n]; [| |lia].
  - right. exists 0%Q. split; [reflexivity|]. apply Qle_refl.
  - unfold round_positive, significand_exponent.
    destruct (_ <=? _)%Z; [left; reflexivity|right].
    unfold binary_value. eexists. split; [reflexivity|].
    unfold Qle. cbn [Qnum Qden]. rewrite Z.mul_1_r. cbn [Z.mul].
    apply scale_nonneg, round_half_even_nonneg; [apply scale_nonneg|apply scale_pos]; lia.
Qed.

(** An integer below [2^53] is a double. *)
Lemma to_double_int z : (0 <= z < 2 ^ 53)%Z -> to_double (z # 1) = Fin (z # 1).
Proof.
  intros [H0 H53]. unfold to_double. rewrite Qred_int. cbn [Qnum Qden].
  destruct z as [|p|p]; [reflexivity| |lia].
  assert (HL : (0 <= Z.log2 (Z.pos p) < 53)%Z).
  { split; [apply Z.log2_nonneg|]. apply Z.log2_lt_pow2; lia. }
  assert (Hlow : (2 ^ Z.log2 (Z.pos p) <= Z.pos p < 2 ^ (Z.succ (Z.log2 (Z.pos p))))%Z)
    by (apply Z.log2_spec; lia).
  set (L := Z.log2 (Z.pos p)) in *.
  assert (Hl : log2_ratio (Z.pos p) 1 = L).
  { unfold log2_ratio. change (Z.log2 1) with 0%Z. rewrite Z.sub_0_r. fold L.
    rewrite scale_up, scale_down by lia. rewrite Z.mul_1_l.
    destruct (Z.leb_spec (2 ^ L) (Z.pos p)); [reflexivity|lia]. }
  unfold round_positive, significand_exponent. rewrite Hl.
  rewrite Z.max_l by lia.
  rewrite (@scale_down 1) by lia. rewrite round_half_even_whole.
  rewrite scale_up by lia.
  replace (- (L - 52))%Z with (52 - L)%Z by lia.
  set (k := (52 - L)%Z).
  assert (Hk : (0 < 2 ^ k)%Z) by (apply Z.pow_pos_nonneg; lia).
  assert (Hm : (Z.pos p * 2 ^ k < 2 ^ 53)%Z).
  { replace 53%Z with (Z.succ L + k)%Z by lia.
    rewrite Z.pow_add_r by lia. apply Z.mul_lt_mono_pos_r; lia. }
  assert (Hbig : (2 ^ 53 <= 2 ^ (1024 - (L - 52)))%Z) by (apply Z.pow_le_mono_r; lia).
  destruct (Z.leb_spec (2 ^ (1024 - (L - 52))) (Z.pos p * 2 ^ k)); [lia|].
  f_equal. unfold binary_value. rewrite <- (Qred_int (Z.pos p)). apply Qred_complete.
  rewrite scale_down by lia. rewrite scale_up by lia.
  replace (- (L - 52))%Z with k by (unfold k; lia).
  unfold Qeq. cbn [Qnum Qden]. rewrite Z.mul_1_l, Z2Pos.id by exact Hk. lia.
Qed.

(** The double of an integer at least 0 is an integer, or [Infinity]. *)
Lemma to_double_integer z :
  (0 <= z)%Z ->
  to_double (z # 1) = PosInf \/ exists k, (0 <= k)%Z /\ to_double (z # 1) = Fin (k # 1).
Proof.
  intros H0. destruct (Z.lt_ge_cases z (2 ^ 53)) as [H53|H53].
  - right. exists z. split; [exact H0|]. apply to_double_int. lia.
  - unfold to_double. rewrite Qred_int. cbn [Qnum Qden].
    assert (Hpos : (0 < 2 ^ 53)%Z) by (apply Z.pow_pos_nonneg; lia).
    destruct z as [|p|p]; [lia| |lia].
    assert (HL : (53 <= Z.log2 (Z.pos p))%Z) by (apply Z.log2_le_pow2; lia).
    assert (Hlow : (2 ^ Z.log2 (Z.pos p) <= Z.pos p)%Z) by (apply Z.log2_spec; lia).
    set (L := Z.log2 (Z.pos p)) in *.
    assert (Hl : log2_ratio (Z.pos p) 1 = L).
    { unfold log2_ratio. change (Z.log2 1) with 0%Z. rewrite Z.sub_0_r. fold L.
      rewrite scale_up, scale_down by lia. rewrite Z.mul_1_l.
      destruct (Z.leb_spec (2 ^ L) (Z.pos p)); [reflexivity|lia]. }
    unfold round_positive, significand_exponent. rewrite Hl.
    rewrite Z.max_l by lia.
    destruct (_ <=? _)%Z; [left; reflexivity|right].
    set (m := round_half_even _ _).
    assert (Hm : (0 <= m)%Z).
    { apply round_half_even_nonneg; [apply scale_nonneg|apply scale_pos]; lia. }
    exists (scale m (L - 52)). split; [apply scale_nonneg, Hm|].
    f_equal. unfold binary_value. rewrite (@scale_down 1) by lia. apply Qred_int.
Qed.

(** What the rounding loses: at most half of the last place. *)
Lemma round_half_even_near n d :
  (0 < d)%Z -> (2 * Z.abs (n - round_half_even n d * d) <= d)%Z.
Proof.
  intros Hd. unfold round_half_even.
  pose proof (Z.div_mod n d ltac:(lia)) as E.
  pose proof (Z.mod_pos_bound n d Hd) as Hr.
  destruct (Z.compare_spec (2 * (n mod d)) d); [destruct (Z.even _)| |]; lia.
Qed.

Lemma log2_ratio_low n d :
  (0 < n)%Z -> (0 < d)%Z ->
  (scale d (log2_ratio n d) <= scale n (- log2_ratio n d))%Z.
Proof.
  intros Hn Hd. unfold log2_ratio.
  destruct (Z.leb_spec (scale d (Z.log2 n - Z.log2 d)) (scale n (- (Z.log2 n - Z.log2 d))))
    as [H|H]; [exact H|].
  pose proof (Z.log2_spec n Hn) as [Ha _]. pose proof (Z.log2_spec d Hd) as [_ Hb].
  pose proof (Z.log2_nonneg n) as Ha0. pose proof (Z.log2_nonneg d) as Hb0.
  set (a := Z.log2 n) in *. set (b := Z.log2 d) in *.
  destruct (Z.le_gt_cases 0 (a - b - 1)) as [Hs|Hs].
  - rewrite scale_up, scale_down by lia.
    assert (E : (2 ^ a = 2 ^ Z.succ b * 2 ^ (a - b - 1))%Z).
    { rewrite <- Z.pow_add_r by lia. f_equal; lia. }
    assert (Hp : (0 < 2 ^ (a - b - 1))%Z) by (apply Z.pow_pos_nonneg; lia).
    nia.
  - rewrite scale_down, scale_up by lia.
    assert (E : (2 ^ Z.succ b = 2 ^ a * 2 ^ (- (a - b - 1)))%Z).
    { rewrite <- Z.pow_add_r by lia. f_equal; lia. }
    assert (Hp : (0 < 2 ^ (- (a - b - 1)))%Z) by (apply Z.pow_pos_nonneg; lia).
    nia.
Qed.

(** In the range of the normal numbers the scaled ratio has 53 bits. *)
Lemma scaled_ratio_low n d :
  (0 < n)%Z -> (0 < d)%Z -> (d <= n * 2 ^ 1022)%Z ->
  let e := Z.max (log2_ratio n d - 52) (-1074) in
  (scale d e * 2 ^ 52 <= scale n (- e))%Z.
Proof.
  intros Hn Hd Hx e. pose proof (log2_ratio_low Hn Hd) as H.
  set (fl := log2_ratio n d) in *.
  destruct (Z.le_gt_cases (-1074) (fl - 52)) as [He|He].
  - unfold e. rewrite Z.max_l by lia.
    destruct (Z.le_gt_cases 52 fl) as [H52|H52].
    + rewrite scale_up in H by lia. rewrite scale_down in H by lia.
      rewrite scale_up by lia. rewrite scale_down by lia.
      replace fl with ((fl - 52) + 52)%Z in H by lia.
      rewrite Z.pow_add_r in H by lia. lia.
    + rewrite (@scale_down d) by lia. rewrite scale_up by lia.
      destruct (Z.le_gt_cases 0 fl) as [H0|H0].
      * rewrite scale_up in H by lia. rewrite scale_down in H by lia.
        replace 52%Z with (fl + - (fl - 52))%Z at 1 by lia.
        rewrite Z.pow_add_r by lia.
        assert (Hp : (0 < 2 ^ (- (fl - 52)))%Z) by (apply Z.pow_pos_nonneg; lia).
        nia.
      * rewrite scale_down in H by lia. rewrite scale_up in H by lia.
        replace (- (fl - 52))%Z with (- fl + 52)%Z by lia.
        rewrite Z.pow_add_r by lia.
        assert (Hp : (0 < 2 ^ 52)%Z) by (apply Z.pow_pos_nonneg; lia).
        nia.
  - unfold e. rewrite Z.max_r by lia.
    rewrite scale_down, scale_up by lia.
    change (- -1074)%Z with (1022 + 52)%Z. rewrite Z.pow_add_r by lia.
    assert (Hp : (0 < 2 ^ 52)%Z) by (apply Z.pow_pos_nonneg; lia).
    nia.
Qed.

(** A real from [2^-1022] on is rounded with a relative error of at most
    [2^-53], unless the result is [Infinity]. *)
Lemma to_double_near x :
  (1 # 2 ^ 1022 <= x)%Q ->
  to_double x = PosInf
  \/ exists r, to_double x = Fin r /\ (Qabs.Qabs (r - x) <= x * (1 # 2 ^ 53))%Q.
Proof.
  intros Hx. unfold to_double.
  pose proof (Qred_correct x) as Hr. rewrite <- Hr in Hx. 
  assert (Hgoal : forall r, (Qabs.Qabs (r - Qred x) <= Qred x * (1 # 2 ^ 53))%Q ->
                            (Qabs.Qabs (r - x) <= x * (1 # 2 ^ 53))%Q).
  { intros r H. rewrite <- Hr. exact H. }
  destruct (Qred x) as [n d]. cbn [Qnum Qden].
  assert (Hn : (0 < n)%Z).
  { unfold Qle in Hx. cbn [Qnum Qden] in Hx. lia. }
  destruct n as [|n|n]; try lia.
  unfold round_positive, significand_exponent.
  set (e := Z.max (log2_ratio (Z.pos n) (Z.pos d) - 52) (-1074)).
  set (N := scale (Z.pos n) (- e)). set (D := scale (Z.pos d) e).
  set (m := round_half_even N D).
  destruct (_ <=? _)%Z; [left; reflexivity|right].
  exists (binary_value m e). split; [reflexivity|]. apply Hgoal.
  unfold binary_value. rewrite Qred_correct.
  assert (HD : (0 < D)%Z) by (apply scale_pos; lia).
  pose proof (round_half_even_near N HD) as Hnear. fold m in Hnear.
  assert (Hlow : (D * 2 ^ 52 <= N)%Z).
  { apply scaled_ratio_low; try lia.
    unfold Qle in Hx. cbn [Qnum Qden] in Hx.
    rewrite Pos2Z.inj_pow in Hx. lia. }
  assert (HS : (0 < scale 1 (- e))%Z) by (apply scale_pos; lia).
  assert (E1 : (scale m e * Z.pos d = m * D)%Z) by (unfold D, scale; ring).
  assert (E2 : (Z.pos n * scale 1 (- e) = N)%Z) by (unfold N, scale; ring).
  assert (E3 : (Z.pos (2 ^ 53) = 2 * 2 ^ 52)%Z) by reflexivity.
  assert (Hp : (0 < 2 ^ 52)%Z) by (apply Z.pow_pos_nonneg; lia).
  apply Qabs.Qabs_Qle_condition.
  unfold Qle, Qminus, Qplus, Qopp, Qmult. cbn [Qnum Qden].
  rewrite !Pos2Z.inj_mul, !Z2Pos.id by exact HS. rewrite E3.
  generalize dependent (scale 1 (- e)). generalize dependent (scale m e).
  generalize dependent (2 ^ 52)%Z. intros K HK HlowK R E1 S HS E2.
  split; nia.
Qed.

Lemma log2_ratio_high n d :
  (0 < n)%Z -> (0 < d)%Z ->
  (scale n (- (log2_ratio n d + 1)) < scale d (log2_ratio n d + 1))%Z.
Proof.
  intros Hn Hd. unfold log2_ratio.
  pose proof (Z.log2_spec n Hn) as [_ Ha]. pose proof (Z.log2_spec d Hd) as [Hb _].
  pose proof (Z.log2_nonneg n) as Ha0. pose proof (Z.log2_nonneg d) as Hb0.
  set (a := Z.log2 n) in *. set (b := Z.log2 d) in *.
  destruct (Z.leb_spec (scale d (a - b)) (scale n (- (a - b)))) as [H|H].
  - destruct (Z.le_gt_cases 0 (a - b + 1)) as [Hs|Hs].
    + rewrite scale_down, scale_up by lia.
      assert (E : (2 ^ Z.succ a = 2 ^ b * 2 ^ (a - b + 1))%Z).
      { rewrite <- Z.pow_add_r by lia. f_equal; lia. }
      assert (Hp : (0 < 2 ^ (a - b + 1))%Z) by (apply Z.pow_pos_nonneg; lia).
      nia.
    + rewrite scale_up, scale_down by lia.
      assert (E : (2 ^ b = 2 ^ Z.succ a * 2 ^ (- (a - b + 1)))%Z).
      { rewrite <- Z.pow_add_r by lia. f_equal; lia. }
      assert (Hp : (0 < 2 ^ (- (a - b + 1)))%Z) by (apply Z.pow_pos_nonneg; lia).
      nia.
  - replace (a - b - 1 + 1)%Z with (a - b)%Z by lia. exact H.
Qed.

(** The scaled ratio has at most 53 bits. *)
Lemma scaled_ratio_high n d :
  (0 < n)%Z -> (0 < d)%Z ->
  let e := Z.max (log2_ratio n d - 52) (-1074) in
  (scale n (- e) < scale d e * 2 ^ 53)%Z.
Proof.
  intros Hn Hd e. pose proof (log2_ratio_high Hn Hd) as H.
  set (g := (log2_ratio n d + 1)%Z) in *.
  assert (He : (g - 53 <= e)%Z) by (unfold e, g; lia).
  clearbody e. clearbody g.
  assert (Hpow : forall u v, (0 <= u <= v)%Z -> (0 < 2 ^ u <= 2 ^ v)%Z).
  { intros u v Huv. split; [apply Z.pow_pos_nonneg; lia|apply Z.pow_le_mono_r; lia]. }
  destruct (Z.le_gt_cases 0 e) as [He0|He0], (Z.le_gt_cases 0 g) as [Hg0|Hg0].
  - rewrite scale_down, scale_up by lia. rewrite scale_down, scale_up in H by lia.
    rewrite <- Z.mul_assoc, <- Z.pow_add_r by lia.
    pose proof (Hpow g (e + 53)%Z ltac:(lia)). nia.
  - rewrite scale_down, scale_up by lia. rewrite scale_up, scale_down in H by lia.
    rewrite <- Z.mul_assoc, <- Z.pow_add_r by lia.
    pose proof (Hpow 0%Z (- g)%Z ltac:(lia)). pose proof (Hpow 0%Z (e + 53)%Z ltac:(lia)).
    change (2 ^ 0)%Z with 1%Z in *. nia.
  - rewrite scale_up, scale_down by lia. rewrite scale_down, scale_up in H by lia.
    assert (E : (2 ^ 53 = 2 ^ (g - e) * 2 ^ (53 - (g - e)))%Z).
    { rewrite <- Z.pow_add_r by lia. f_equal; lia. }
    assert (E' : (2 ^ (g - e) = 2 ^ g * 2 ^ (- e))%Z).
    { rewrite <- Z.pow_add_r by lia. f_equal; lia. }
    pose proof (Hpow 0%Z (53 - (g - e))%Z ltac:(lia)). pose proof (Hpow 0%Z (- e)%Z ltac:(lia)).
    change (2 ^ 0)%Z with 1%Z in *.
    rewrite E, E'.
    assert (Ha : (n * 2 ^ (- e) < d * 2 ^ g * 2 ^ (- e))%Z)
      by (apply Z.mul_lt_mono_pos_r; lia).
    assert (Hb : (0 <= d * 2 ^ g * 2 ^ (- e))%Z) by lia.
    assert (Hc : (d * 2 ^ g * 2 ^ (- e) * 1
                  <= d * 2 ^ g * 2 ^ (- e) * 2 ^ (53 - (g - e)))%Z)
      by (apply Z.mul_le_mono_nonneg_l; lia).
    rewrite Z.mul_1_r in Hc. rewrite !Z.mul_assoc. lia.
  - rewrite scale_up, scale_down by lia. rewrite scale_up, scale_down in H by lia.
    pose proof (Hpow 0%Z 53%Z ltac:(lia)). change (2 ^ 0)%Z with 1%Z in *.
    destruct (Z.le_gt_cases e g) as [Hge|Hge].
    + assert (E : (2 ^ (- e) = 2 ^ (- g) * 2 ^ (g - e))%Z).
      { rewrite <- Z.pow_add_r by lia. f_equal; lia. }
      pose proof (Hpow (g - e)%Z 53%Z ltac:(lia)).
      rewrite E. nia.
    + pose proof (Hpow (- e)%Z (- g)%Z ltac:(lia)). nia.
Qed.

Lemma round_half_even_le n d b :
  (0 < d)%Z -> (n < d * b)%Z -> (round_half_even n d <= b)%Z.
Proof.
  intros Hd H. unfold round_half_even.
  assert (n / d < b)%Z by (apply Z.div_lt_upper_bound; assumption).
  destruct (2 * (n mod d) ?= d)%Z; [destruct (Z.even _)| |]; lia.
Qed.

(** A real at least 0 and below [2^1023] has a finite double. *)
Lemma to_double_finite x :
  (0 <= x)%Q -> (x < 2 ^ 1023 # 1)%Q -> exists r, to_double x = Fin r.
Proof.
  intros H0 Hx. rewrite <- (Qred_correct x) in H0, Hx. unfold to_double.
  destruct (Qred x) as [n d]. unfold Qle in H0. unfold Qlt in Hx. cbn [Qnum Qden] in *.
  destruct n as [|n|n]; [eexists; reflexivity| |lia].
  unfold round_positive, significand_exponent.
  pose proof (@scaled_ratio_high (Z.pos n) (Z.pos d) ltac:(lia) ltac:(lia)) as Hhigh.
  pose proof (@log2_ratio_low (Z.pos n) (Z.pos d) ltac:(lia) ltac:(lia)) as Hlow.
  cbv zeta in Hhigh.
  set (fl := log2_ratio (Z.pos n) (Z.pos d)) in *.
  set (e := Z.max (fl - 52) (-1074)) in *.
  set (N := scale (Z.pos n) (- e)) in *. set (D := scale (Z.pos d) e) in *.
  assert (HD : (0 < D)%Z) by (apply scale_pos; lia).
  assert (Hm : (round_half_even N D <= 2 ^ 53)%Z) by (apply round_half_even_le; lia).
  destruct (Z.leb_spec (2 ^ (1024 - e)) (round_half_even N D)) as [Hov|_];
    [exfalso|eexists; reflexivity].
  assert (He : (971 <= e)%Z).
  { destruct (Z.le_gt_cases 971 e) as [?|Hlt]; [assumption|exfalso].
    assert (2 ^ 53 < 2 ^ (1024 - e))%Z by (apply Z.pow_lt_mono_r; lia). lia. }
  assert (Hfl : (1023 <= fl)%Z) by lia.
  rewrite scale_up, scale_down in Hlow by lia.
  assert (2 ^ 1023 <= 2 ^ fl)%Z by (apply Z.pow_le_mono_r; lia).
  rewrite Z.mul_1_r in Hx.
  nia.
Qed.

(** A real that is 0, or from [2^-1022] on and below [2^1023], has a
    finite double within the relative error [2^-53]. *)
Lemma to_double_close x :
  (x == 0 \/ 1 # 2 ^ 1022 <= x)%Q -> (x < 2 ^ 1023 # 1)%Q -> close_to x (to_double x).
Proof.
  intros [Hz|Hx] Hhigh.
  - exists 0%Q. split; [rewrite (to_double_Qeq Hz); reflexivity|].
    rewrite Hz. unfold Qle. vm_compute. discriminate.
  - assert (H0 : (0 <= x)%Q) by (eapply Qle_trans; [|exact Hx]; discriminate).
    destruct (to_double_finite H0 Hhigh) as (r & Hr).
    destruct (to_double_near Hx) as [E|(r' & E & Hnear)]; [congruence|].
    exists r'. split; assumption.
Qed.

(** Amounts in hundredths, and whole amounts, are 0 or at least
    [2^-1022]. *)
Lemma hundredths_range (c : N) :
  (Z.of_N c # 100 == 0 \/ 1 # 2 ^ 1022 <= Z.of_N c # 100)%Q.
Proof.
  destruct c as [|p]; [left; reflexivity|right].
  unfold Qle. cbn [Qnum Qden Z.of_N].
  assert (H : (100 <= Z.pos (2 ^ 1022))%Z) by (vm_compute; discriminate).
  nia.
Qed.

Lemma whole_range (c : N) : (Z.of_N c # 1 == 0 \/ 1 # 2 ^ 1022 <= Z.of_N c # 1)%Q.
Proof.
  destruct c as [|p]; [left; reflexivity|right].
  unfold Qle. cbn [Qnum Qden Z.of_N]. lia.
Qed.

(** ** What [parseFloat] reads *)

Lemma parseFloat_head c s' :
  isDigit c = true \/ c = 46%N ->
  parseFloat (c :: s') =
  let (ip, s3) := span_digits (c :: s') in
  let (fp, s4) :=
    match s3 with
    | c0 :: t => if (c0 =? 46)%N then span_digits t else ([], s3)
    | [] => ([], s3)
    end in
  match ip, fp with
  | [], [] => NaN
  | _, _ =>
    to_double (((Z.of_N (digits_value ip) # 1)
                + (Z.of_N (digits_value fp) # 1) / ((10 # 1) ^ Z.of_nat (length fp)))
               * (10 # 1) ^ exponent s4)
  end%Q.
Proof.
  intros H. destruct (digit_first_tests H) as (Hw & H45 & H43 & H73).
  unfold parseFloat. rewrite trimStart_id by exact Hw. rewrite H45, H43.
  unfold parse_decimal.
  change (js "Infinity") with (73%N :: js "nfinity").
  cbn [startsWith]. rewrite H73. cbn [andb]. reflexivity.
Qed.

Lemma parseFloat_decimal d x y :
  Forall (fun c => isDigit c = true) d -> isDigit x = true -> isDigit y = true ->
  parseFloat (d ++ [46%N; x; y]) =
  to_double (Z.of_N (digits_value d * 100 + digits_value [x; y]) # 100).
Proof.
  intros Hd Hx Hy.
  assert (Hs : exists c s', d ++ [46%N; x; y] = c :: s' /\ (isDigit c = true \/ c = 46%N)).
  { destruct d as [|c d]; simpl; [eauto|]. inversion Hd; subst. eauto. }
  destruct Hs as (c & s' & Es & Hc).
  rewrite Es, parseFloat_head by exact Hc. rewrite <- Es.
  rewrite span_digits_app by (auto; reflexivity).
  rewrite N.eqb_refl.
  replace (span_digits [x; y]) with ([x; y], @nil N) by (simpl; rewrite Hx, Hy; reflexivity).
  assert (E : forall A (a b : A), match d, [x; y] with [], [] => a | _, _ => b end = b).
  { intros; destruct d; reflexivity. }
  rewrite (E jsnum NaN). apply to_double_Qeq.
  generalize (digits_value d) as a. generalize (digits_value [x; y]) as b. intros b a.
  rewrite N2Z.inj_add, N2Z.inj_mul.
  change (exponent []) with 0%Z. change (Z.of_nat (length [x; y])) with 2%Z.
  change ((10 # 1) ^ 2)%Q with (100 # 1)%Q. change ((10 # 1) ^ 0)%Q with 1%Q.
  unfold Qeq, Qplus, Qmult, Qdiv, Qinv. simpl. lia.
Qed.

Lemma parseFloat_integer d :
  Forall (fun c => isDigit c = true) d -> d <> [] ->
  parseFloat d = to_double (Z.of_N (digits_value d) # 1).
Proof.
  intros Hd Hne. destruct d as [|c d]; [congruence|].
  inversion Hd as [|? ? Hc Hd']; subst.
  rewrite parseFloat_head by auto.
  rewrite <- (app_nil_r (c :: d)) at 1. rewrite span_digits_app by auto.
  cbn [length]. change (digits_value []) with 0%N. change (exponent []) with 0%Z.
  generalize (digits_value (c :: d)) as a. intros a.
  apply to_double_Qeq.
  change ((10 # 1) ^ 0)%Q with 1%Q. change ((10 # 1) ^ Z.of_nat 0)%Q with 1%Q.
  unfold Qeq, Qplus, Qmult, Qdiv, Qinv. simpl. lia.
Qed.

(** A trailing comma and two digits are the decimals, every dot is a
    thousands separator. *)
Lemma parseArgentineAmount_decimal d x y :
  Forall digit_or_dot d -> isDigit x = true -> isDigit y = true ->
  parseArgentineAmount (d ++ [44%N; x; y]) =
  to_double (Z.of_N (digits_value (undot d) * 100 + digits_value [x; y]) # 100).
Proof.
  intros Hd Hx Hy. unfold parseArgentineAmount, clean_amount.
  assert (Hx' : (48 <= x <= 57)%N) by (apply isDigit_spec, Hx).
  assert (Hy' : (48 <= y <= 57)%N) by (apply isDigit_spec, Hy).
  rewrite trim_id.
  2:{ apply Forall_app. split.
      - eapply Forall_impl; [|exact Hd]. apply digit_or_dot_not_ws.
      - repeat constructor; try reflexivity; apply digit_or_dot_not_ws; left; assumption. }
  rewrite test_decimal_tail_yes by assumption.
  rewrite replace_all_dot, undot_app.
  replace (undot [44%N; x; y]) with [44%N; x; y].
  2:{ unfold undot. cbn [filter].
      destruct (N.eqb_spec x 46), (N.eqb_spec y 46); try lia. reflexivity. }
  rewrite replace_first_comma by (apply undot_digits, Hd).
  rewrite parseFloat_decimal by (auto using undot_digits).
  rewrite to_double_num. reflexivity.
Qed.

(** Without that tail every dot is removed and the value is the double
    of an integer (0 when no digit is left). *)
Lemma parseArgentineAmount_integer d :
  Forall digit_or_dot d ->
  parseArgentineAmount d = to_double (Z.of_N (digits_value (undot d)) # 1).
Proof.
  intros Hd. unfold parseArgentineAmount, clean_amount.
  rewrite trim_id.
  2:{ eapply Forall_impl; [|exact Hd]. apply digit_or_dot_not_ws. }
  rewrite test_decimal_tail_no by assumption. rewrite replace_all_dot.
  destruct (undot d) as [|c u] eqn:E; [reflexivity|].
  rewrite parseFloat_integer; [rewrite to_double_num; reflexivity| |discriminate].
  rewrite <- E. apply undot_digits, Hd.
Qed.

(** ** Parsed candidates are never negative *)

Lemma zero_reduced : zero = Fin (Qred 0).
Proof. reflexivity. Qed.

Lemma parseArgentineAmount_nonneg w :
  amount_shape w -> nonneg_value (parseArgentineAmount w).
Proof.
  intros (d & _ & Hd & [->|(x & y & Hx & Hy & ->)]).
  - rewrite parseArgentineAmount_integer by assumption.
    apply to_double_nonneg. unfold Qle; simpl. lia.
  - rewrite parseArgentineAmount_decimal by assumption.
    apply to_double_nonneg. unfold Qle; simpl. lia.
Qed.

Lemma nonneg_le_zero a : nonneg_value a -> le a zero = true -> a = zero.
Proof.
  intros [->|(v & -> & Hv)] H; simpl in H; [discriminate|].
  apply Qle_bool_iff in H. rewrite Qred_correct in H.
  rewrite zero_reduced. f_equal. apply Qred_complete. apply Qle_antisym; assumption.
Qed.

Lemma amount_matches_shape text m :
  In m (amount_matches text) -> amount_shape (capture1 m).
Proof.
  unfold amount_matches. intros Hm.
  apply in_flat_map in Hm. destruct Hm as ([fl r] & Hp & Hm). simpl in Hm.
  unfold match_all in Hm. apply match_all_from_In in Hm.
  destruct Hm as (p' & pv' & l' & Hm).
  eapply amount_capture_shape in Hm; [|exact Hp]. apply Hm.
Qed.

Lemma amount_candidates_nonneg text a :
  In a (amount_candidates text) -> nonneg_value a.
Proof.
  unfold amount_candidates. intros H.
  apply in_map_iff in H. destruct H as (m & <- & Hm).
  apply parseArgentineAmount_nonneg. eapply amount_matches_shape, Hm.
Qed.

(** ** Amount extraction: the maximum, its sign, the locale rules *)

(** C3. [extractAmount] scans every match of the two patterns and returns
    the maximum of the parsed values, not the first: the loops end with
    the fuel given (and with any larger fuel), the result is at least
    every parsed value, it is one of them when there is a match, and it
    is 0 when there is none.  On a text holding "$50" and then "$1.200"
    the parsed values are 50 and 1200 and the result is 1200.  A parsed
    value is a double, [Infinity] for a number too large, which is then
    the maximum. *)
Theorem extractAmount_is_maximum (text : jsstr) :
  (forall n, extractAmount_fuel (S (length text) + n) text = Some (extractAmount text))
  /\ (forall a, In a (amount_candidates text) -> le a (extractAmount text) = true)
  /\ (amount_candidates text <> [] -> In (extractAmount text) (amount_candidates text))
  /\ (amount_candidates text = [] -> extractAmount text = zero)
  /\ amount_candidates (js "Fee $50 total $1.200") = [Fin 50; Fin 1200]
  /\ extractAmount (js "Fee $50 total $1.200") = Fin 1200
  /\ amount_candidates (js "$" ++ overflowing_amount ++ js " fee $50") = [PosInf; Fin 50]
  /\ extractAmount (js "$" ++ overflowing_amount ++ js " fee $50") = PosInf.
Proof.
  destruct (extractAmount_fuel_enough text 0) as [_ Hfold].
  assert (Hnum : Forall (fun c => isNaN c = false) (amount_candidates text)).
  { apply Forall_forall. intros c Hc. apply amount_candidates_nonneg in Hc.
    destruct Hc as [->|(v & -> & _)]; reflexivity. }
  destruct (@fold_pick_max (amount_candidates text) zero eq_refl Hnum)
    as (_ & _ & Hall & Hin).
  rewrite <- Hfold in Hall, Hin.
  split; [intros n; apply extractAmount_fuel_enough|].
  split; [exact Hall|].
  split; [|split; [|repeat split; vm_compute; reflexivity]].
  - intros Hne. destruct Hin as [Hz|Hin]; [|exact Hin].
    destruct (amount_candidates text) as [|c cs] eqn:E; [congruence|].
    assert (Hc : c = zero).
    { apply nonneg_le_zero.
      - apply (@amount_candidates_nonneg text). rewrite E. left; reflexivity.
      - rewrite <- Hz. apply Hall. left; reflexivity. }
    rewrite Hz, Hc. left; reflexivity.
  - intros E. rewrite Hfold, E. reflexivity.
Qed.

(** C9. The extracted amount is never negative: the running maximum
    starts at 0 and only grows, so the result of the loops (which end
    with the fuel given) is at least 0; a candidate never parses to NaN,
    and one that [parseFloat] cannot read contributes 0. *)
Theorem extractAmount_nonnegative (text : jsstr) :
  (forall n, extractAmount_fuel (S (length text) + n) text = Some (extractAmount text))
  /\ le zero (extractAmount text) = true
  /\ (forall str, isNaN (parseArgentineAmount str) = false)
  /\ (forall str, isNaN (parseFloat (clean_amount str)) = true ->
                  parseArgentineAmount str = zero).
Proof.
  split; [intros n; apply extractAmount_fuel_enough|].
  split; [|split].
  - destruct (extractAmount_fuel_enough text 0) as [_ ->].
    destruct (@fold_pick_max (amount_candidates text) zero eq_refl) as (_ & H & _);
      [|exact H].
    apply Forall_forall. intros c Hc. unfold amount_candidates in Hc.
    apply in_map_iff in Hc. destruct Hc as (m & <- & _). apply parseArgentineAmount_num.
  - apply parseArgentineAmount_num.
  - intros str H. unfold parseArgentineAmount. rewrite H. reflexivity.
Qed.

(** C4. Locale parsing of a matched numeric string.  Every capture of the
    two patterns is a run of digits and dots, possibly followed by a
    comma and two digits.  With that tail the comma is the decimal
    separator and the dots are dropped; without it the dots are dropped
    and an integer is read.  The value is the double nearest to the
    decimal number so written: below [2^1023] it is finite and within the
    relative error [2^-53]; an integer below [2^53] is kept as it is, a
    larger one gives an integer or [Infinity].  "$1.500,50" gives
    1500.50, "$1.500" gives 1500 and "ARS 2.000,00" gives 2000. *)
Theorem parseArgentineAmount_locale :
  (forall text m, In m (amount_matches text) -> amount_shape (capture1 m))
  /\ (forall d x y,
        Forall digit_or_dot d -> isDigit x = true -> isDigit y = true ->
        let written :=
          (Z.of_N (digits_value (undot d) * 100 + digits_value [x; y]) # 100)%Q in
        parseArgentineAmount (d ++ js "," ++ [x; y]) = to_double written
        /\ ((written < 2 ^ 1023 # 1)%Q ->
            close_to written (parseArgentineAmount (d ++ js "," ++ [x; y]))))
  /\ (forall d,
        Forall digit_or_dot d ->
        let written := Z.of_N (digits_value (undot d)) in
        parseArgentineAmount d = to_double (written # 1)
        /\ (parseArgentineAmount d = PosInf \/ whole_value (parseArgentineAmount d))
        /\ ((written < 2 ^ 1023)%Z -> close_to (written # 1) (parseArgentineAmount d))
        /\ ((written < 2 ^ 53)%Z -> parseArgentineAmount d = Fin (written # 1)))
  /\ extractAmount (js "$1.500,50") = Fin (Qred (150050 # 100)%Q)
  /\ extractAmount (js "$1.500") = Fin 1500
  /\ extractAmount (js "ARS 2.000,00") = Fin 2000.
Proof.
  split; [apply amount_matches_shape|].
  split; [|split; [|repeat split; vm_compute; reflexivity]].
  - intros d x y Hd Hx Hy written.
    change (d ++ js "," ++ [x; y]) with (d ++ [44%N; x; y]).
    rewrite parseArgentineAmount_decimal by assumption. fold written.
    split; [reflexivity|]. intros Hhigh.
    apply to_double_close; [apply hundredths_range|exact Hhigh].
  - intros d Hd written.
    rewrite parseArgentineAmount_integer by assumption. fold written.
    assert (H0 : (0 <= written)%Z) by apply N2Z.is_nonneg.
    split; [reflexivity|]. split; [apply to_double_integer, H0|]. split.
    + intros Hhigh. apply to_double_close; [apply whole_range|].
      unfold Qlt. cbn [Qnum Qden]. lia.
    + intros Hlow. apply to_double_int. lia.
Qed.

Lemma digit_or_dot_all s :
  forallb (fun c => isDigit c || (c =? 46)%N) s = true -> Forall digit_or_dot s.
Proof.
  intros H. apply Forall_forall. intros c Hc. rewrite forallb_forall in H.
  specialize (H c Hc). apply orb_true_iff in H. destruct H as [H|H]; [left; exact H|].
  right. apply N.eqb_eq, H.
Qed.

(** C4, counterexample. A matched string that writes a large integer does
    not yield that integer: 9.007.199.254.740.993 gives
    9007199254740992, and a one followed by 309 zeros gives [Infinity],
    which [extractAmount] returns. *)
Lemma large_amount_is_not_kept :
  Forall digit_or_dot (js "9.007.199.254.740.993")
  /\ digits_value (undot (js "9.007.199.254.740.993")) = 9007199254740993%N
  /\ parseArgentineAmount (js "9.007.199.254.740.993") = Fin 9007199254740992
  /\ Forall digit_or_dot overflowing_amount
  /\ parseArgentineAmount overflowing_amount = PosInf
  /\ extractAmount (js "$" ++ overflowing_amount) = PosInf.
Proof.
  split; [apply digit_or_dot_all; vm_compute; reflexivity|].
  split; [vm_compute; reflexivity|]. split; [vm_compute; reflexivity|].
  split; [apply digit_or_dot_all; vm_compute; reflexivity|].
  split; vm_compute; reflexivity.
Qed.

(** ** The type fallback *)

Lemma keyword_type_rules subjectLower bodyLower :
  keyword_type subjectLower bodyLower = first_rule_type subjectLower bodyLower.
Proof.
  unfold first_rule_type, keyword_type, type_rules, mk_rule.
  cbn [find map rule_applies existsb fst snd rule_type].
  repeat match goal with
  | |- context [includes ?a ?b] =>
      destruct (includes a b); cbn [orb]; [reflexivity|]
  end.
  reflexivity.
Qed.

Lemma arr_includes_In l x : arr_includes l x = true -> In x l.
Proof.
  unfold arr_includes. rewrite existsb_exists. intros (y & Hin & Heq).
  apply str_eqb_eq in Heq. subst. exact Hin.
Qed.

Lemma type_rules_types r :
  In r type_rules -> In (rule_type r) VALID_TRANSACTION_TYPES /\ rule_type r <> unknown.
Proof.
  intros H. unfold type_rules in H. cbn [In] in H.
  repeat (destruct H as [<-|H]; [split; [vm_compute; tauto|vm_compute; discriminate]|]).
  destruct H.
Qed.

(** C6. When the external type classifier throws, returns no text or
    returns a value outside the closed enumeration, the type is the one the
    ordered keyword rules give on the lower-cased subject and body (the
    legacy worker always uses them).  The rules are tried in order, the
    four money-in rules before the four money-out rules, the first one
    that applies wins, the result is "unknown" when none applies and a
    type of the enumeration when one does.  The functions are total. *)
Theorem type_fallback_rules (toLowerCase : jsstr -> jsstr) (AI_run : jsstr -> nat -> ai_result)
    (subject body : jsstr) :
  let answer := AI_run (type_prompt (type_context subject (substring body 0 500))) 30 in
  let fallback := keyword_type (toLowerCase subject) (toLowerCase body) in
  (answer = AiThrows \/ answer = AiNoText
   \/ (exists t, clean_answer toLowerCase "_" answer = Some t
                 /\ arr_includes VALID_TRANSACTION_TYPES t = false) ->
   p_type (parseTransaction toLowerCase AI_run subject body) = fallback)
  /\ p_type (legacy_parseTransaction toLowerCase subject body) = fallback
  /\ fallback = first_rule_type (toLowerCase subject) (toLowerCase body)
  /\ map rule_direction type_rules =
     [money_in; money_in; money_in; money_in; money_out; money_out; money_out; money_out]
  /\ ((forall r, In r type_rules ->
         rule_applies (toLowerCase subject) (toLowerCase body) r = false) ->
      fallback = unknown)
  /\ ((exists r, In r type_rules
         /\ rule_applies (toLowerCase subject) (toLowerCase body) r = true) ->
      fallback <> unknown /\ In fallback VALID_TRANSACTION_TYPES).
Proof.
  intros answer fallback.
  split; [|split; [reflexivity|split; [apply keyword_type_rules|split; [reflexivity|]]]].
  - intros H. unfold parseTransaction, detectTransactionTypeWithAI. cbn [p_type].
    fold answer.
    destruct H as [->|[->|(t & Ht & Hv)]]; [reflexivity|reflexivity|].
    destruct answer; [reflexivity|reflexivity|]. rewrite Ht, Hv. reflexivity.
  - subst fallback. rewrite keyword_type_rules. unfold first_rule_type. split.
    + intros Hnone.
      destruct (find _ type_rules) as [r|] eqn:E; [|reflexivity].
      apply find_some in E. destruct E as [Hin Happ].
      rewrite (Hnone r Hin) in Happ. discriminate.
    + intros (r & Hin & Happ).
      destruct (find _ type_rules) as [r'|] eqn:E.
      * apply find_some in E. destruct E as [Hin' _].
        apply type_rules_types in Hin'. tauto.
      * eapply find_none in E; [|exact Hin]. congruence.
Qed.

(** ** Intent classification *)

Lemma first_keyword_none fullText ks :
  first_keyword fullText ks = None <-> existsb (includes fullText) ks = false.
Proof.
  induction ks as [|k ks IH]; simpl; [tauto|].
  destruct (includes fullText k); simpl; [split; discriminate|exact IH].
Qed.

Lemma first_keyword_some fullText ks k :
  first_keyword fullText ks = Some k ->
  exists before after, ks = before ++ k :: after /\ includes fullText k = true
    /\ existsb (includes fullText) before = false.
Proof.
  induction ks as [|k0 ks IH]; simpl; [discriminate|].
  destruct (includes fullText k0) eqn:E.
  - intros [= <-]. exists [], ks. auto.
  - intros H. destruct (IH H) as (b & a & -> & Hk & Hb).
    exists (k0 :: b), a. simpl. rewrite E. auto.
Qed.

(** C5. Intent classification applies its rules in a fixed order and the
    first applicable rule wins: a promotional keyword gives type
    'promotional' with confidence 'keyword'; else a marketing-list sender
    gives 'promotional' with confidence 'domain'; else a transaction
    keyword gives type 'transaction' with confidence 'keyword'; else the
    external classifier decides, with confidence 'ai': an answer whose
    lower-cased, trimmed text holds the word transaction gives
    'transaction', every other answer gives 'promotional', and so does a
    result that carries no response text.  Only a call that throws gives
    'transaction' with confidence 'fallback'. *)
Theorem classifyEmailIntent_order (toLowerCase : jsstr -> jsstr)
    (AI_run : jsstr -> nat -> ai_result) (inst : sender_match) (subject bodyPreview : jsstr) :
  let fullText := toLowerCase subject ++ js " " ++ toLowerCase bodyPreview in
  let promo := existsb (includes fullText) PROMOTIONAL_KEYWORDS in
  let txn := existsb (includes fullText) transactionKeywords in
  let answer := AI_run (intent_prompt (sm_name inst) subject bodyPreview) 10 in
  let r := classifyEmailIntent toLowerCase AI_run inst subject bodyPreview in
  let type := type_label (i_type r) in
  let confidence := confidence_label (i_confidence r) in
  (promo = true ->
     type = js "promotional" /\ confidence = js "keyword"
     /\ first_keyword fullText PROMOTIONAL_KEYWORDS = Some (i_reason r))
  /\ (promo = false -> isMarketing inst = true ->
        type = js "promotional" /\ confidence = js "domain")
  /\ (promo = false -> isMarketing inst = false -> txn = true ->
        type = js "transaction" /\ confidence = js "keyword"
        /\ first_keyword fullText transactionKeywords = Some (i_reason r))
  /\ (promo = false -> isMarketing inst = false -> txn = false ->
        match answer with
        | AiThrows => type = js "transaction" /\ confidence = js "fallback"
        | AiText response =>
          confidence = js "ai"
          /\ type = (if includes (trim (toLowerCase response)) (js "transaction")
                     then js "transaction" else js "promotional")
        | AiNoText => confidence = js "ai" /\ type = js "promotional"
        end).
Proof.
  intros fullText promo txn answer r type confidence.
  assert (Hp : promo = false -> first_keyword fullText PROMOTIONAL_KEYWORDS = None)
    by apply first_keyword_none.
  assert (Ht : txn = false -> first_keyword fullText transactionKeywords = None)
    by apply first_keyword_none.
  subst type confidence r. unfold classifyEmailIntent. fold fullText. fold answer.
  split; [|split; [|split]].
  - intros H. destruct (first_keyword fullText PROMOTIONAL_KEYWORDS) eqn:E.
    + repeat split; reflexivity.
    + apply first_keyword_none in E. fold promo in E. congruence.
  - intros H Hm. rewrite (Hp H), Hm. split; reflexivity.
  - intros H Hm Hx. rewrite (Hp H), Hm.
    destruct (first_keyword fullText transactionKeywords) eqn:E.
    + repeat split; reflexivity.
    + apply first_keyword_none in E. fold txn in E. congruence.
  - intros H Hm Hx. rewrite (Hp H), Hm, (Ht Hx).
    destruct answer as [| |response]; [split; reflexivity|split; reflexivity|].
    split; [reflexivity|]. cbn [i_type].
    destruct (includes (trim (toLowerCase response)) (js "transaction")); reflexivity.
Qed.

(** C5, counterexample. A result of the classifier that carries no
    response text is not treated as a failed call: the message is taken
    as 'promotional' with confidence 'ai', not as 'transaction' with
    confidence 'fallback'.  The labels of the code are 'transaction' and
    'ai'; it writes neither 'transactional' nor 'model'. *)
Lemma answer_without_text_is_promotional :
  existsb (includes (toLowerCaseLatin1 (js "Aviso") ++ js " "
                     ++ toLowerCaseLatin1 (js "Tu cuenta")))
          (PROMOTIONAL_KEYWORDS ++ transactionKeywords) = false
  /\ isMarketing uala_sender = false
  /\ type_label (i_type (classifyEmailIntent toLowerCaseLatin1 (fun _ _ => AiNoText)
                                             uala_sender (js "Aviso") (js "Tu cuenta")))
     = js "promotional"
  /\ confidence_label
       (i_confidence (classifyEmailIntent toLowerCaseLatin1 (fun _ _ => AiNoText)
                                          uala_sender (js "Aviso") (js "Tu cuenta")))
     = js "ai"
  /\ js "promotional" <> js "transaction" /\ js "ai" <> js "fallback"
  /\ (forall t, type_label t <> js "transactional")
  /\ (forall c, confidence_label c <> js "model").
Proof.
  repeat split; try (vm_compute; reflexivity); try (vm_compute; discriminate).
  - intros [|]; vm_compute; discriminate.
  - intros [| | |]; vm_compute; discriminate.
Qed.

(** ** Categories *)

Lemma category_of_answer_valid toLowerCase res :
  In (category_of_answer toLowerCase res) VALID_CATEGORIES.
Proof.
  assert (Hm : In miscellaneous_other VALID_CATEGORIES) by (vm_compute; tauto).
  unfold category_of_answer. destruct res; try exact Hm.
  destruct (clean_answer toLowerCase "-" (AiText response)) as [c|]; [|exact Hm].
  destruct (arr_includes VALID_CATEGORIES c) eqn:E; [|exact Hm].
  apply arr_includes_In, E.
Qed.

(** C10. The category is always one of the nine fixed identifiers, in
    both workers and whatever the external classifier does; it is
    'miscellaneous-other' when the context is empty, when the call throws,
    when the answer has no text and when the cleaned answer is not one of
    the nine.  The function is total: no case is left to an exception. *)
Theorem categorizeWithAI_closed (toLowerCase : jsstr -> jsstr)
    (AI_run : jsstr -> nat -> ai_result)
    (counterparty description subject : option jsstr) (transactionType : jsstr) :
  let context := category_context [counterparty; description; subject] in
  let answer :=
    AI_run (category_prompt (arr_includes incomeTypes transactionType) context) 30 in
  let legacy_answer := AI_run (legacy_category_prompt context) 30 in
  let category :=
    categorizeWithAI toLowerCase AI_run counterparty description subject transactionType in
  let legacy_category :=
    legacy_categorizeWithAI toLowerCase AI_run counterparty description subject in
  let invalid res :=
    res = AiThrows \/ res = AiNoText
    \/ exists c, clean_answer toLowerCase "-" res = Some c
                 /\ arr_includes VALID_CATEGORIES c = false in
  length VALID_CATEGORIES = 9
  /\ In category VALID_CATEGORIES /\ In legacy_category VALID_CATEGORIES
  /\ (context = [] -> category = miscellaneous_other /\ legacy_category = miscellaneous_other)
  /\ (invalid answer -> category = miscellaneous_other)
  /\ (invalid legacy_answer -> legacy_category = miscellaneous_other).
Proof.
  intros context answer legacy_answer category legacy_category invalid.
  assert (Hm : In miscellaneous_other VALID_CATEGORIES) by (vm_compute; tauto).
  assert (Hinv : forall res, invalid res ->
            category_of_answer toLowerCase res = miscellaneous_other).
  { intros res [->|[->|(c & Hc & Hv)]]; try reflexivity.
    unfold category_of_answer. destruct res; try reflexivity. rewrite Hc, Hv. reflexivity. }
  subst category legacy_category. unfold categorizeWithAI, legacy_categorizeWithAI.
  fold context. fold answer. fold legacy_answer.
  split; [reflexivity|].
  split; [destruct context; [exact Hm|apply category_of_answer_valid]|].
  split; [destruct context; [exact Hm|apply category_of_answer_valid]|].
  split; [intros ->; split; reflexivity|].
  split; intros H; destruct context; try reflexivity; apply Hinv, H.
Qed.

(** ** The fingerprint *)

Lemma substring_firstn s n : substring s 0 n = firstn n s.
Proof.
  unfold substring. rewrite Nat.min_0_l, Nat.max_0_l, Nat.sub_0_r. simpl skipn.
  destruct (Nat.le_ge_cases n (length s)) as [H|H].
  - rewrite Nat.min_l by exact H. reflexivity.
  - rewrite Nat.min_r by exact H. rewrite !firstn_all2; auto.
Qed.

Lemma be_bytes_length k x : length (Sha256.be_bytes k x) = k.
Proof. unfold Sha256.be_bytes. rewrite length_map, length_rev, length_seq. reflexivity. Qed.

Lemma sha256_length msg : length (Sha256.sha256 msg) = 32.
Proof.
  unfold Sha256.sha256.
  destruct (Sha256.absorb Sha256.H0 [] 0 (Sha256.pad msg)) as [[[[[[[a b] c] d] e] f] g] h].
  rewrite !length_app, !be_bytes_length. reflexivity.
Qed.

Lemma hexdigit_hex d : (d < 16)%N -> is_hex (hexdigit d).
Proof.
  intros H. unfold hexdigit, is_hex. destruct (N.ltb_spec d 10); lia.
Qed.

Lemma hex_byte b :
  length (padStart0 2 (toString16 b)) = 2 /\ Forall is_hex (padStart0 2 (toString16 b)).
Proof.
  assert (H0 : is_hex 48) by (unfold is_hex; lia).
  unfold toString16, padStart0. destruct (N.ltb_spec b 16); simpl.
  - split; [reflexivity|].
    constructor; [exact H0|]. constructor; [apply hexdigit_hex; assumption|constructor].
  - split; [reflexivity|].
    constructor; [|constructor; [|constructor]];
      apply hexdigit_hex; apply N.mod_lt; discriminate.
Qed.

Lemma hex_bytes bs :
  let h := concat (map (fun b => padStart0 2 (toString16 b)) bs) in
  length h = 2 * length bs /\ Forall is_hex h.
Proof.
  induction bs as [|b bs [IHl IHf]]; simpl; [split; [reflexivity|constructor]|].
  destruct (hex_byte b) as [Hl Hf].
  rewrite length_app, Forall_app, Hl, IHl. split; [lia|auto].
Qed.

Lemma createHash_hex str :
  length (createHash str) = 64 /\ Forall is_hex (createHash str).
Proof.
  unfold createHash. destruct (hex_bytes (Sha256.sha256 (utf8_encode str))) as [Hl Hf].
  rewrite sha256_length in Hl. split; assumption.
Qed.

(** The records of the last step of a handler: the record sent, and the
    error report when the backend refuses it. *)
Lemma posted_send backend (data : record) :
  posted (fst (try_catch (sendToBackend backend data) (report_error backend))) =
  data :: match backend data with
          | Some err => [RecWorkerError err]
          | None => []
          end.
Proof.
  unfold sendToBackend, report_error, try_catch.
  destruct (backend data) as [err|]; [|reflexivity].
  cbn. destruct (backend (RecWorkerError err)); reflexivity.
Qed.

Lemma bind_ret_l (A B : Type) (x : A) (k : A -> M B) : bind (ret x) k = k x.
Proof. unfold bind, ret. destruct (k x). reflexivity. Qed.

(** The multi-institution handler, case by case. *)
Lemma email_cases toLowerCase AI_run backend now msg :
  posted (email toLowerCase AI_run backend now msg) =
  match extractUserId toLowerCase (msg_to msg) with
  | None => []
  | Some userId =>
    match msg_raw msg with
    | StreamError err => [RecWorkerError err]
    | StreamText rawEmail =>
      let emailBody := extractEmailBody toLowerCase rawEmail in
      let subject := or_empty (extractHeader rawEmail "Subject") in
      if is_gmail_verification (msg_from msg) then []
      else
        match identifyInstitution toLowerCase (msg_from msg) with
        | None => []
        | Some inst =>
          let data :=
            let intent :=
              classifyEmailIntent toLowerCase AI_run inst subject (substring emailBody 0 500) in
            match i_type intent with
            | promotional => RecPromotional userId inst subject (i_reason intent) now
            | transaction =>
              let tx := parseTransaction toLowerCase AI_run subject emailBody in
              if no_amount (p_amount tx)
              then RecParseFailed userId (Some inst) subject (substring emailBody 0 500)
              else RecTransaction userId tx (fingerprint subject emailBody)
                     (Some (categorizeWithAI toLowerCase AI_run (p_counterparty tx)
                              (p_description tx) (Some subject) (p_type tx)))
                     (Some inst) subject (msg_from msg) now
            end in
          data :: match backend data with
                  | Some err => [RecWorkerError err]
                  | None => []
                  end
        end
    end
  end.
Proof.
  unfold email, email_try.
  destruct (extractUserId toLowerCase (msg_to msg)) as [userId|]; [|reflexivity].
  destruct (msg_raw msg) as [rawEmail|err].
  - cbn [streamToString]. rewrite bind_ret_l.
    destruct (is_gmail_verification (msg_from msg)); [reflexivity|].
    destruct (identifyInstitution toLowerCase (msg_from msg)) as [inst|]; [|reflexivity].
    cbv zeta.
    destruct (i_type (classifyEmailIntent _ _ _ _ _)); [|apply posted_send].
    destruct (no_amount _); apply posted_send.
  - cbn. destruct (backend (RecWorkerError err)); reflexivity.
Qed.

(** The legacy handler, case by case. *)
Lemma legacy_email_cases toLowerCase AI_run backend now msg :
  posted (legacy_email toLowerCase AI_run backend now msg) =
  match extractUserId toLowerCase (msg_to msg) with
  | None => []
  | Some userId =>
    match msg_raw msg with
    | StreamError err => [RecWorkerError err]
    | StreamText rawEmail =>
      let emailBody := extractEmailBody toLowerCase rawEmail in
      let subject := or_empty (extractHeader rawEmail "Subject") in
      if is_gmail_verification (msg_from msg) then []
      else
        let data :=
          if negb (legacy_isFromMercadoPago toLowerCase (msg_from msg))
          then RecNotMercadoPago userId (msg_from msg) subject
          else
            let tx := legacy_parseTransaction toLowerCase subject emailBody in
            if no_amount (p_amount tx)
            then RecParseFailed userId None subject (substring emailBody 0 500)
            else RecTransaction userId tx (fingerprint subject emailBody)
                   (if arr_includes expenseTypes (p_type tx)
                    then Some (legacy_categorizeWithAI toLowerCase AI_run (p_counterparty tx)
                                 (p_description tx) (Some subject))
                    else None)
                   None subject (msg_from msg) now in
        data :: match backend data with
                | Some err => [RecWorkerError err]
                | None => []
                end
    end
  end.
Proof.
  unfold legacy_email, legacy_email_try.
  destruct (extractUserId toLowerCase (msg_to msg)) as [userId|]; [|reflexivity].
  destruct (msg_raw msg) as [rawEmail|err].
  - cbn [streamToString]. rewrite bind_ret_l.
    destruct (is_gmail_verification (msg_from msg)); [reflexivity|].
    cbv zeta.
    destruct (negb (legacy_isFromMercadoPago toLowerCase (msg_from msg))); [apply posted_send|].
    destruct (no_amount _); apply posted_send.
  - cbn. destruct (backend (RecWorkerError err)); reflexivity.
Qed.

(** C1 (as amended). In the multi-institution worker, a message whose
    content is read without error and whose sender matches no institution
    of the registry makes the handler return without calling
    [sendToBackend]: no record is sent. *)
Theorem email_unknown_sender_silent (toLowerCase : jsstr -> jsstr)
    (AI_run : jsstr -> nat -> ai_result) (backend : record -> option jsstr) (now : jsstr)
    (msg : message) (rawEmail : jsstr) :
  msg_raw msg = StreamText rawEmail ->
  identifyInstitution toLowerCase (msg_from msg) = None ->
  posted (email toLowerCase AI_run backend now msg) = [].
Proof.
  intros Hraw Hid. rewrite email_cases, Hraw, Hid.
  destruct (extractUserId toLowerCase (msg_to msg)); [|reflexivity].
  cbv zeta. destruct (is_gmail_verification (msg_from msg)); reflexivity.
Qed.

Lemma email_unknown_sender_silent_witness :
  msg_raw unknown_sender_message
    = StreamText (js "Subject: Hola" ++ nl ++ nl ++ js "Te enviaron $2.500")
  /\ identifyInstitution toLowerCaseLatin1 (msg_from unknown_sender_message) = None
  /\ posted (email toLowerCaseLatin1 (fun _ _ => AiThrows) (fun _ => None)
                   (js "2024-01-01T00:00:00.000Z") unknown_sender_message) = [].
Proof.
  split; [reflexivity|]. split; [vm_compute; reflexivity|].
  apply (@email_unknown_sender_silent toLowerCaseLatin1 (fun _ _ => AiThrows) (fun _ => None)
           (js "2024-01-01T00:00:00.000Z") unknown_sender_message
           (js "Subject: Hola" ++ nl ++ nl ++ js "Te enviaron $2.500")).
  - reflexivity.
  - vm_compute; reflexivity.
Defined.

(** C1, counterexample. The sender unknown@random.com matches no
    institution, yet the legacy worker calls [sendToBackend] with a record
    whose reason is 'not_mercadopago'; and when the content of such a
    message cannot be read, the multi-institution worker reports a
    'worker_error'. *)
Lemma unknown_sender_is_reported :
  identifyInstitution toLowerCaseLatin1 (js "unknown@random.com") = None
  /\ legacy_isFromMercadoPago toLowerCaseLatin1 (js "unknown@random.com") = false
  /\ posted (legacy_email toLowerCaseLatin1 (fun _ _ => AiThrows) (fun _ => None)
                          (js "2024-01-01T00:00:00.000Z") unknown_sender_message)
     = [RecNotMercadoPago (js "123") (js "unknown@random.com") (js "Hola")]
  /\ posted (email toLowerCaseLatin1 (fun _ _ => AiThrows) (fun _ => None)
                   (js "2024-01-01T00:00:00.000Z")
                   (Message (js "user_123@jamty.xyz") (js "unknown@random.com")
                            (StreamError (js "stream failed"))))
     = [RecWorkerError (js "stream failed")].
Proof. repeat split; vm_compute; reflexivity. Qed.

(** ** Sender matching *)

Lemma endsWith_spec s p : endsWith s p = true <-> exists pre, s = pre ++ p.
Proof.
  unfold endsWith. rewrite andb_true_iff, Nat.leb_le, str_eqb_eq. split.
  - intros [Hl He]. exists (firstn (length s - length p) s).
    set (n := length s - length p) in *. rewrite <- He.
    symmetry. apply firstn_skipn.
  - intros (pre & ->). rewrite length_app. split; [lia|].
    replace (length pre + length p - length p) with (length pre + 0) by lia.
    rewrite skipn_app, Nat.add_0_r, skipn_all.
    replace (length pre - length pre) with 0 by lia. reflexivity.
Qed.

Lemma sender_entry_matches_spec email domain :
  sender_entry_matches email domain = true <-> entry_rule email domain.
Proof.
  unfold sender_entry_matches, entry_rule.
  destruct (startsWith domain (js "@")); [apply endsWith_spec|apply str_eqb_eq].
Qed.

Lemma any_domain_matches_spec email domains :
  any_domain_matches email domains = true <->
  exists d, In d domains /\ entry_rule email d.
Proof.
  induction domains as [|d ds IH]; simpl.
  - split; [discriminate|intros (d & [] & _)].
  - destruct (sender_entry_matches email d) eqn:E.
    + split; [|reflexivity]. intros _. exists d. split; [left; reflexivity|].
      apply sender_entry_matches_spec, E.
    + rewrite IH. split.
      * intros (d' & Hin & H). eauto.
      * intros (d' & [<-|Hin] & H); [|eauto].
        apply sender_entry_matches_spec in H. congruence.
Qed.

Lemma identify_in_spec email registry :
  identify_in email registry <> None <->
  exists inst d, In inst registry
    /\ In d (transactionalDomains inst ++ marketingDomains inst) /\ entry_rule email d.
Proof.
  induction registry as [|inst reg IH]; simpl.
  - split; [congruence|intros (i & d & [] & _)].
  - destruct (any_domain_matches email (transactionalDomains inst)) eqn:Et.
    + split; [|discriminate]. intros _.
      apply any_domain_matches_spec in Et. destruct Et as (d & Hin & H).
      exists inst, d. rewrite in_app_iff. auto.
    + destruct (any_domain_matches email (marketingDomains inst)) eqn:Em.
      * split; [|discriminate]. intros _.
        apply any_domain_matches_spec in Em. destruct Em as (d & Hin & H).
        exists inst, d. rewrite in_app_iff. auto.
      * rewrite IH. split.
        -- intros (i & d & Hin & H). exists i, d. auto.
        -- intros (i & d & [<-|Hin] & Hd & H); [|exists i, d; auto].
           apply in_app_iff in Hd.
           assert (Hf : forall ds, any_domain_matches email ds = false -> ~ In d ds).
           { intros ds Hds Hin.
             assert (any_domain_matches email ds = true)
               by (apply any_domain_matches_spec; eauto).
             congruence. }
           destruct Hd as [Hd|Hd]; exfalso; [apply (Hf _ Et Hd)|apply (Hf _ Em Hd)].
Qed.

(** C2. In the multi-institution worker a sender matches exactly when
    the bare, case-folded address ends with a registry entry that starts
    with '@' or equals an entry that does not; an address that holds an
    exact entry with something before or after it does not match that
    entry.  The legacy worker looks its two addresses up as substrings:
    it accepts xinfo@mercadopago.com.evil.org, which the multi-institution
    worker rejects. *)
Theorem sender_matching_exact_or_tail :
  (forall toLowerCase from,
     let email := extractEmailAddress toLowerCase from in
     identifyInstitution toLowerCase from <> None <->
     email <> [] /\
     exists inst d,
       In inst FINANCIAL_INSTITUTIONS
       /\ In d (transactionalDomains inst ++ marketingDomains inst)
       /\ entry_rule email d)
  /\ (forall d pre post,
        startsWith d (js "@") = false -> pre ++ post <> [] ->
        sender_entry_matches (pre ++ d ++ post) d = false)
  /\ identifyInstitution toLowerCaseLatin1 (js "xinfo@mercadopago.com.evil.org") = None
  /\ legacy_isFromMercadoPago toLowerCaseLatin1 (js "xinfo@mercadopago.com.evil.org") = true.
Proof.
  split; [|split; [|split; vm_compute; reflexivity]].
  - intros tl from email. unfold identifyInstitution. fold email.
    destruct email as [|c e] eqn:E.
    + split; [congruence|intros [H _]; congruence].
    + rewrite identify_in_spec. split; [intros H; split; [discriminate|exact H]|tauto].
  - intros d pre post Hd Hne. unfold sender_entry_matches. rewrite Hd.
    destruct (str_eqb (pre ++ d ++ post) d) eqn:E; [|reflexivity].
    apply str_eqb_eq in E. apply (f_equal (@length N)) in E.
    rewrite !length_app in E.
    destruct pre, post; simpl in *; try congruence; lia.
Qed.

(** C7. The fingerprint is a function of the subject and of the first
    200 code units of the body alone: it is always 64 lower-case
    hexadecimal digits, two bodies that agree on their first 200 code
    units have the same fingerprint under every subject, and the
    [emailHash] of every transaction record either handler sends is the
    fingerprint of the message's subject and body, whatever the external
    classifier, the backend and the clock do.  It is SHA-256: the
    fingerprint of "abc" with an empty body is the digest of "abc". *)
Theorem fingerprint_pure :
  (forall s b, length (fingerprint s b) = 64 /\ Forall is_hex (fingerprint s b))
  /\ (forall s b1 b2, firstn 200 b1 = firstn 200 b2 -> fingerprint s b1 = fingerprint s b2)
  /\ (forall toLowerCase AI_run backend now msg userId tx emailHash category inst
             subject from receivedAt,
        In (RecTransaction userId tx emailHash category inst subject from receivedAt)
           (posted (email toLowerCase AI_run backend now msg)
            ++ posted (legacy_email toLowerCase AI_run backend now msg)) ->
        exists rawEmail,
          msg_raw msg = StreamText rawEmail
          /\ subject = or_empty (extractHeader rawEmail "Subject")
          /\ emailHash = fingerprint subject (extractEmailBody toLowerCase rawEmail))
  /\ fingerprint (js "abc") []
     = js "ba7816bf8f01cfea414140de5dae2223b00361a396177a9cb410ff61f20015ad".
Proof.
  split; [intros s b; apply createHash_hex|].
  split; [intros s b1 b2 H; unfold fingerprint; rewrite !substring_firstn, H; reflexivity|].
  split; [|vm_compute; reflexivity].
  intros tl AI backend now msg userId tx emailHash category inst subject from receivedAt H.
  rewrite email_cases, legacy_email_cases in H.
  destruct (extractUserId tl (msg_to msg)) as [u|]; [|destruct H].
  destruct (msg_raw msg) as [rawEmail|err].
  2:{ simpl in H. destruct H as [H|[H|[]]]; discriminate. }
  exists rawEmail. split; [reflexivity|].
  cbv zeta in H.
  destruct (is_gmail_verification (msg_from msg)); [destruct H|].
  assert (Hsent : forall data : record,
    In (RecTransaction userId tx emailHash category inst subject from receivedAt)
       (data :: match backend data with Some err => [RecWorkerError err] | None => [] end) ->
    data = RecTransaction userId tx emailHash category inst subject from receivedAt).
  { intros data [Hd|Hd]; [exact Hd|].
    destruct (backend data); simpl in Hd; [destruct Hd as [Hd|[]]; discriminate|destruct Hd]. }
  apply in_app_or in H. destruct H as [H|H].
  - destruct (identifyInstitution tl (msg_from msg)) as [i|]; [|destruct H].
    apply Hsent in H.
    destruct (i_type _); [|discriminate].
    destruct (no_amount _); [discriminate|].
    injection H as <- <- <- <- <- <- <- <-. split; reflexivity.
  - apply Hsent in H.
    destruct (negb _); [discriminate|].
    destruct (no_amount _); [discriminate|].
    injection H as <- <- <- <- <- <- <- <-. split; reflexivity.
Qed.

(** ** Counterparty extraction *)

Lemma trimStart_app_keep l c :
  isWhiteSpace c = false -> trimStart (l ++ [c]) = trimStart l ++ [c].
Proof.
  intros H. induction l as [|x l IH]; simpl; [rewrite H; reflexivity|].
  destruct (isWhiteSpace x); [exact IH|reflexivity].
Qed.

Lemma trimStart_idem s : trimStart (trimStart s) = trimStart s.
Proof.
  induction s as [|c s IH]; simpl; [reflexivity|].
  destruct (isWhiteSpace c) eqn:E; [exact IH|]. simpl. rewrite E. reflexivity.
Qed.

Lemma trimStart_head s :
  match trimStart s with
  | c :: _ => isWhiteSpace c = false
  | [] => True
  end.
Proof.
  induction s as [|c s IH]; simpl; [exact I|].
  destruct (isWhiteSpace c) eqn:E; [exact IH|exact E].
Qed.

(** [trim] removes nothing more from a trimmed string. *)
Lemma trim_idem s : trim (trim s) = trim s.
Proof.
  unfold trim. set (t := trimStart s).
  assert (Hs : trimStart (trimEnd t) = trimEnd t).
  { pose proof (trimStart_head s) as Hh. fold t in Hh.
    destruct t as [|c t']; [reflexivity|].
    unfold trimEnd. simpl rev. rewrite trimStart_app_keep by exact Hh.
    rewrite rev_app_distr. simpl. rewrite Hh. reflexivity. }
  rewrite Hs. unfold trimEnd. rewrite rev_involutive, trimStart_idem. reflexivity.
Qed.

Lemma find_counterparty_spec fullText : forall patterns,
  match find_counterparty fullText patterns with
  | Some v =>
    exists before pattern after,
      patterns = before ++ pattern :: after
      /\ qualifies fullText pattern v
      /\ (forall q, In q before -> forall v', ~ qualifies fullText q v')
  | None => forall q, In q patterns -> forall v', ~ qualifies fullText q v'
  end.
Proof.
  induction patterns as [|p ps IH]; simpl; [intros q []|].
  assert (Hskip : (forall v', ~ qualifies fullText p v') ->
    match find_counterparty fullText ps with
    | Some v =>
      exists before pattern after,
        p :: ps = before ++ pattern :: after
        /\ qualifies fullText pattern v
        /\ (forall q, In q before -> forall v', ~ qualifies fullText q v')
    | None => forall q, In q (p :: ps) -> forall v', ~ qualifies fullText q v'
    end).
  { intros Hp. destruct (find_counterparty fullText ps) as [v|].
    - destruct IH as (b & q & a & -> & Hq & Hb).
      exists (p :: b), q, a. split; [reflexivity|]. split; [exact Hq|].
      intros q' [<-|Hin]; [exact Hp|apply Hb, Hin].
    - intros q [<-|Hin]; [exact Hp|apply IH, Hin]. }
  destruct (pattern_capture fullText p) as [c|] eqn:Ec.
  - destruct (1 <? length (trim c))%nat eqn:El.
    + exists [], p, ps. split; [reflexivity|]. split; [|intros q []].
      exists c. apply Nat.ltb_lt in El. auto.
    + apply Hskip. intros v' (c' & Hc' & Hl & _).
      rewrite Ec in Hc'. injection Hc' as <-. apply Nat.ltb_ge in El. lia.
  - apply Hskip. intros v' (c' & Hc' & _). rewrite Ec in Hc'. discriminate.
Qed.

(** C8 (as amended). Counterparty extraction tries its patterns in
    declaration order and returns the capture of the first pattern that
    matches with a capture whose trimmed length exceeds 1, and nothing
    when no pattern qualifies; the value returned is the capture with its
    leading and trailing white space removed ([trim]), and nothing else
    is stripped from it.  Both workers return it as the counterparty. *)
Theorem counterparty_first_qualifying (fullText : jsstr) :
  match find_counterparty fullText counterpartyPatterns with
  | Some v =>
    (exists before pattern after,
       counterpartyPatterns = before ++ pattern :: after
       /\ qualifies fullText pattern v
       /\ (forall q, In q before -> forall v', ~ qualifies fullText q v'))
    /\ trim v = v /\ 1 < length v
  | None => forall q, In q counterpartyPatterns -> forall v', ~ qualifies fullText q v'
  end
  /\ (forall toLowerCase AI_run subject body,
        fullText = subject ++ js " " ++ body ->
        p_counterparty (parseTransaction toLowerCase AI_run subject body)
          = find_counterparty fullText counterpartyPatterns
        /\ p_counterparty (legacy_parseTransaction toLowerCase subject body)
          = find_counterparty fullText counterpartyPatterns).
Proof.
  split; [|intros tl AI subject body ->; split; reflexivity].
  pose proof (find_counterparty_spec fullText counterpartyPatterns) as H.
  destruct (find_counterparty fullText counterpartyPatterns) as [v|]; [|exact H].
  split; [exact H|].
  destruct H as (_ & p & _ & _ & (c & _ & Hl & ->) & _).
  split; [apply trim_idem|exact Hl].
Qed.

(** C8, counterexample. On "Destinatario: Juan Perez por $500" the fifth
    pattern is the first to qualify; its capture runs over "por", one of
    the markers that end a name in the second and third patterns, and the
    counterparty returned ends with it. *)
Lemma counterparty_keeps_marker :
  p_counterparty (legacy_parseTransaction toLowerCaseLatin1 []
                    (js "Destinatario: Juan Perez por $500"))
    = Some (js "Juan Perez por")
  /\ p_counterparty (parseTransaction toLowerCaseLatin1 (fun _ _ => AiThrows) []
                       (js "Destinatario: Juan Perez por $500"))
    = Some (js "Juan Perez por")
  /\ ends_with_marker (js "Juan Perez por") = true.
Proof. repeat split; vm_compute; reflexivity. Qed.

(** * Instances of the statements on concrete messages *)

Lemma extractAmount_is_maximum_witness :
  amount_candidates (js "Fee $50 total $1.200") <> []
  /\ In (extractAmount (js "Fee $50 total $1.200"))
        (amount_candidates (js "Fee $50 total $1.200")).
Proof.
  assert (H : amount_candidates (js "Fee $50 total $1.200") <> [])
    by (vm_compute; discriminate).
  split; [exact H|].
  exact (proj1 (proj2 (proj2 (extractAmount_is_maximum (js "Fee $50 total $1.200")))) H).
Defined.

Lemma parseArgentineAmount_locale_witness :
  Forall digit_or_dot (js "1.500") /\ isDigit 53 = true /\ isDigit 48 = true
  /\ digits_value (undot (js "1.500")) = 1500%N
  /\ parseArgentineAmount (js "1.500" ++ js "," ++ [53; 48]%N)
     = to_double (Z.of_N (digits_value (undot (js "1.500")) * 100
                          + digits_value [53; 48]%N) # 100)
  /\ parseArgentineAmount (js "1.500") = Fin 1500.
Proof.
  assert (Hd : Forall digit_or_dot (js "1.500")).
  { repeat constructor; first [left; reflexivity|right; reflexivity]. }
  split; [exact Hd|]. split; [reflexivity|]. split; [reflexivity|].
  split; [reflexivity|]. split.
  - exact (proj1 (proj1 (proj2 parseArgentineAmount_locale) (js "1.500") 53%N 48%N
                        Hd eq_refl eq_refl)).
  - exact (proj2 (proj2 (proj2 (proj1 (proj2 (proj2 parseArgentineAmount_locale))
                                      (js "1.500") Hd)))
                 ltac:(vm_compute; reflexivity)).
Defined.

Lemma extractAmount_nonnegative_witness :
  isNaN (parseFloat (clean_amount (js "."))) = true
  /\ parseArgentineAmount (js ".") = zero.
Proof.
  assert (H : isNaN (parseFloat (clean_amount (js "."))) = true) by reflexivity.
  split; [exact H|].
  exact (proj2 (proj2 (proj2 (extractAmount_nonnegative []))) (js ".") H).
Defined.

Lemma classifyEmailIntent_order_witness :
  let classify := classifyEmailIntent toLowerCaseLatin1 (fun _ _ => AiThrows) uala_sender in
  (existsb (includes (toLowerCaseLatin1 (js "Hola") ++ js " "
                      ++ toLowerCaseLatin1 (js "Tenés CASHBACK disponible")))
           PROMOTIONAL_KEYWORDS = true
   /\ type_label (i_type (classify (js "Hola") (js "Tenés CASHBACK disponible")))
      = js "promotional"
   /\ confidence_label (i_confidence (classify (js "Hola") (js "Tenés CASHBACK disponible")))
      = js "keyword")
  /\ (type_label (i_type (classify (js "Aviso") (js "Tu cuenta"))) = js "transaction"
      /\ confidence_label (i_confidence (classify (js "Aviso") (js "Tu cuenta")))
         = js "fallback").
Proof.
  intros classify. split.
  - assert (H : existsb (includes (toLowerCaseLatin1 (js "Hola") ++ js " "
                           ++ toLowerCaseLatin1 (js "Tenés CASHBACK disponible")))
                        PROMOTIONAL_KEYWORDS = true) by (vm_compute; reflexivity).
    split; [exact H|].
    destruct (proj1 (classifyEmailIntent_order toLowerCaseLatin1 (fun _ _ => AiThrows)
                       uala_sender (js "Hola") (js "Tenés CASHBACK disponible")) H)
      as (Ht & Hc & _).
    split; [exact Ht|exact Hc].
  - exact (proj2 (proj2 (proj2 (classifyEmailIntent_order toLowerCaseLatin1
                                  (fun _ _ => AiThrows) uala_sender
                                  (js "Aviso") (js "Tu cuenta"))))
                 ltac:(vm_compute; reflexivity) eq_refl ltac:(vm_compute; reflexivity)).
Defined.

Lemma type_fallback_rules_witness :
  p_type (parseTransaction toLowerCaseLatin1 (fun _ _ => AiThrows)
            (js "Recibiste una transferencia") (js "Te enviaron $2.500"))
    = keyword_type (toLowerCaseLatin1 (js "Recibiste una transferencia"))
                   (toLowerCaseLatin1 (js "Te enviaron $2.500"))
  /\ keyword_type (toLowerCaseLatin1 (js "Recibiste una transferencia"))
                  (toLowerCaseLatin1 (js "Te enviaron $2.500")) <> unknown.
Proof.
  pose proof (type_fallback_rules toLowerCaseLatin1 (fun _ _ => AiThrows)
                (js "Recibiste una transferencia") (js "Te enviaron $2.500")) as H.
  cbv zeta in H. destruct H as (H1 & _ & _ & _ & _ & H6).
  split; [exact (H1 (or_introl eq_refl))|].
  refine (proj1 (H6 _)).
  exists (mk_rule money_in "transfer_received"
            [(in_subject, "recibiste"); (in_subject, "te transfirieron");
             (in_subject, "te enviaron"); (in_subject, "transferencia recibida")]).
  split; [left; reflexivity|vm_compute; reflexivity].
Defined.

Lemma fingerprint_pure_witness :
  firstn 200 (repeat 97%N 200 ++ [120%N]) = firstn 200 (repeat 97%N 200 ++ [121%N])
  /\ repeat 97%N 200 ++ [120%N] <> repeat 97%N 200 ++ [121%N]
  /\ fingerprint (js "Pago") (repeat 97%N 200 ++ [120%N])
     = fingerprint (js "Pago") (repeat 97%N 200 ++ [121%N]).
Proof.
  assert (H : firstn 200 (repeat 97%N 200 ++ [120%N])
              = firstn 200 (repeat 97%N 200 ++ [121%N])) by reflexivity.
  split; [exact H|]. split.
  - intros E. apply app_inv_head in E. discriminate.
  - exact (proj1 (proj2 fingerprint_pure) (js "Pago") _ _ H).
Defined.

Lemma counterparty_first_qualifying_witness :
  find_counterparty transfer_notice counterpartyPatterns = Some (js "Juan Pérez")
  /\ (exists before pattern after,
        counterpartyPatterns = before ++ pattern :: after
        /\ qualifies transfer_notice pattern (js "Juan Pérez")
        /\ (forall q, In q before -> forall v', ~ qualifies transfer_notice q v'))
  /\ p_counterparty (legacy_parseTransaction toLowerCaseLatin1 (js "Transferiste")
                       (js "Le transferiste a Juan Pérez $1.500,50"))
     = Some (js "Juan Pérez").
Proof.
  assert (E : find_counterparty transfer_notice counterpartyPatterns
              = Some (js "Juan Pérez")) by (vm_compute; reflexivity).
  destruct (counterparty_first_qualifying transfer_notice) as [H1 H2].
  destruct (H2 toLowerCaseLatin1 (fun _ _ => AiThrows) (js "Transferiste")
               (js "Le transferiste a Juan Pérez $1.500,50") eq_refl) as [_ Hl].
  rewrite E in H1, Hl.
  split; [exact E|]. split; [exact (proj1 H1)|exact Hl].
Defined.

Lemma categorizeWithAI_closed_witness :
  (exists c, clean_answer toLowerCaseLatin1 "-" (AiText (js "Banana!")) = Some c
             /\ arr_includes VALID_CATEGORIES c = false)
  /\ categorizeWithAI toLowerCaseLatin1 (fun _ _ => AiText (js "Banana!"))
       (Some (js "Kiosco")) None (Some (js "Pagaste")) (js "payment_sent")
     = miscellaneous_other
  /\ categorizeWithAI toLowerCaseLatin1 (fun _ _ => AiText (js " Food-Dining. "))
       (Some (js "Kiosco")) None (Some (js "Pagaste")) (js "payment_sent")
     = js "food-dining".
Proof.
  assert (H : exists c, clean_answer toLowerCaseLatin1 "-" (AiText (js "Banana!")) = Some c
                        /\ arr_includes VALID_CATEGORIES c = false).
  { eexists. split; [reflexivity|vm_compute; reflexivity]. }
  split; [exact H|]. split; [|vm_compute; reflexivity].
  exact (proj1 (proj2 (proj2 (proj2 (proj2
           (categorizeWithAI_closed toLowerCaseLatin1 (fun _ _ => AiText (js "Banana!"))
              (Some (js "Kiosco")) None (Some (js "Pagaste")) (js "payment_sent"))))))
           (or_intror (or_intror H))).
Defined.

(** * Further properties of the helpers and of the handlers *)

(** ** The matcher on literals and maximal runs *)

Lemma last_read_app pv a b : last_read pv (a ++ b) = last_read (last_read pv a) b.
Proof. apply fold_left_app. Qed.

Lemma advance_0 st : advance st 0 = st.
Proof. destruct st. unfold advance. simpl. rewrite Nat.add_0_r. reflexivity. Qed.

Lemma cs_match_one_self fl c : cs_match fl (one c) c = true.
Proof.
  unfold cs_match, one, in_ranges. simpl. rewrite N.leb_refl. reflexivity.
Qed.

Lemma lit_prefix_nil fl s : lit_prefix fl s [] = true.
Proof. destruct s; reflexivity. Qed.

Lemma lit_prefix_self fl w tl : lit_prefix fl (w ++ tl) w = true.
Proof.
  induction w as [|c w IH]; simpl; [destruct tl; reflexivity|].
  rewrite cs_match_one_self. exact IH.
Qed.

Lemma lit_prefix_no_flags s w : lit_prefix no_flags s w = startsWith s w.
Proof.
  revert s. induction w as [|y w IH]; intros [|x s]; simpl; try reflexivity.
  rewrite cs_match_one, IH. reflexivity.
Qed.

(** A literal is matched in one way: code unit by code unit. *)
Lemma rmatch_lit fl w : forall st k,
  rmatch fl (lit_units w) st k =
  if lit_prefix fl (rest st) w then k (advance st (length w)) else None.
Proof.
  induction w as [|y w IH]; intros st k.
  - simpl. rewrite lit_prefix_nil, advance_0. reflexivity.
  - assert (H1 : rmatch fl (RChar (one y)) st
                   (fun st' => rmatch fl (lit_units w) st' k) =
                 if lit_prefix fl (rest st) (y :: w) then k (advance st (length (y :: w)))
                 else None).
    { cbn [rmatch]. destruct st as [p pv l cp]. cbn [rest pos prev caps].
      destruct l as [|x l]; [reflexivity|]. cbn [lit_prefix].
      destruct (cs_match fl (one y) x); [|reflexivity]. cbn [andb].
      rewrite IH. cbn [rest]. destruct (lit_prefix fl l w); [|reflexivity].
      unfold advance. cbn [rest pos prev caps length firstn skipn last_read fold_left].
      replace (S p + length w) with (p + S (length w)) by lia. reflexivity. }
    destruct w as [|z w].
    + cbn [lit_units]. rewrite <- H1. cbn [rmatch lit_units].
      destruct (rest st); [reflexivity|]. destruct (cs_match fl (one y) n); reflexivity.
    + exact H1.
Qed.

(** A greedy quantifier without an upper bound reads the whole run of
    code units of its class; when the rest of the pattern matches from
    there, that is the match. *)
Lemma rep_greedy_run fl cs k r : forall w tl lo p pv cp,
  Forall (fun c => cs_match fl cs c = true) w ->
  match tl with c :: _ => cs_match fl cs c = false | [] => True end ->
  lo <= length w ->
  k (MState (p + length w) (last_read pv w) tl cp) = Some r ->
  rep fl cs true lo None (w ++ tl) p pv cp k = Some r.
Proof.
  induction w as [|c w IH]; intros tl lo p pv cp Hw Htl Hlo Hk.
  - simpl in Hlo. assert (lo = 0) by lia. subst lo.
    simpl in Hk. rewrite Nat.add_0_r in Hk. simpl app.
    destruct tl as [|x tl]; simpl; [exact Hk|]. rewrite Htl. exact Hk.
  - inversion Hw as [|? ? Hc Hw']; subst. simpl app. cbn [rep more_allowed andb].
    rewrite Hc. cbn [dec_hi].
    rewrite (IH tl (Nat.pred lo) (S p) (Some c) cp Hw' Htl); [reflexivity|simpl in Hlo; lia|].
    simpl in Hk. replace (S p + length w) with (p + S (length w)) by lia. exact Hk.
Qed.

(** The same with an upper bound that the run reaches exactly. *)
Lemma rep_greedy_full fl cs k r : forall w tl lo p pv cp,
  Forall (fun c => cs_match fl cs c = true) w ->
  lo <= length w ->
  k (MState (p + length w) (last_read pv w) tl cp) = Some r ->
  rep fl cs true lo (Some (length w)) (w ++ tl) p pv cp k = Some r.
Proof.
  induction w as [|c w IH]; intros tl lo p pv cp Hw Hlo Hk.
  - simpl in Hlo. assert (lo = 0) by lia. subst lo.
    simpl in Hk. rewrite Nat.add_0_r in Hk. simpl app. simpl length.
    destruct tl as [|x tl]; simpl; exact Hk.
  - inversion Hw as [|? ? Hc Hw']; subst. simpl app. cbn [rep more_allowed andb length].
    rewrite Hc. cbn [dec_hi Nat.pred].
    rewrite (IH tl (Nat.pred lo) (S p) (Some c) cp Hw'); [reflexivity|simpl in Hlo; lia|].
    simpl in Hk. replace (S p + length w) with (p + S (length w)) by lia. exact Hk.
Qed.

(** A pattern that matches at no index leaves [replace], [split] and
    [match] without a match. *)
Lemma search_never fl r : forall l p pv,
  never_matches fl r l -> search fl r p pv l = None.
Proof.
  induction l as [|c tl IH]; intros p pv H.
  - simpl. rewrite (H [] [] p pv eq_refl). reflexivity.
  - simpl. rewrite (H [] (c :: tl) p pv eq_refl). apply IH.
    intros l1 l2 p' pv' E. apply (H (c :: l1) l2). rewrite E. reflexivity.
Qed.

Lemma match_all_from_never fl r : forall l skip p pv,
  never_matches fl r l -> match_all_from fl r skip p pv l = [].
Proof.
  induction l as [|c tl IH]; intros skip p pv H.
  - destruct skip; simpl; [|reflexivity]. rewrite (H [] [] p pv eq_refl). reflexivity.
  - assert (Htl : never_matches fl r tl).
    { intros l1 l2 p' pv' E. apply (H (c :: l1) l2). rewrite E. reflexivity. }
    destruct skip; simpl; [|apply IH, Htl].
    rewrite (H [] (c :: tl) p pv eq_refl). apply IH, Htl.
Qed.

Lemma replace_all_never fl r f s : never_matches fl r s -> replace_all fl r f s = s.
Proof. intros H. unfold replace_all, match_all. rewrite match_all_from_never by exact H. reflexivity. Qed.

Lemma split_never fl r s : never_matches fl r s -> split fl r s = [s].
Proof. intros H. unfold split, match_all. rewrite match_all_from_never by exact H. reflexivity. Qed.

(** ** Replacement, match by match *)

Lemma replace_all_at fl r f s : replace_all fl r f s = replace_at fl r f 0 None s.
Proof. reflexivity. Qed.

Lemma match_all_from_skip fl r : forall skip l p pv,
  skip <= length l ->
  match_all_from fl r skip p pv l
  = match_all_from fl r 0 (p + skip) (last_read pv (firstn skip l)) (skipn skip l).
Proof.
  induction skip as [|skip IH]; intros l p pv Hs.
  - simpl. rewrite Nat.add_0_r. reflexivity.
  - destruct l as [|c tl]; [simpl in Hs; lia|].
    cbn [match_all_from firstn skipn last_read fold_left].
    rewrite IH by (simpl in Hs; lia).
    replace (S p + skip) with (p + S skip) by lia. reflexivity.
Qed.

(** Where the pattern matches, the match is replaced and the scan goes
    on after it. *)
Lemma replace_at_hit fl r f p pv l m :
  match_at fl r p pv l = Some m -> p < m_end m ->
  replace_at fl r f p pv l
  = f m ++ replace_at fl r f (m_end m) (last_read pv (firstn (m_end m - p) l))
                      (skipn (m_end m - p) l).
Proof.
  intros Hm Hlt. pose proof (match_at_bounds _ _ _ _ _ Hm) as (Hi & _ & Hle & _).
  unfold replace_at. destruct l as [|c tl]; [simpl in Hle; lia|].
  cbn [match_all_from]. rewrite Hm. cbn [replace_from].
  rewrite Hi, Nat.sub_diag. cbn [firstn app]. f_equal.
  rewrite match_all_from_skip by (simpl in Hle; lia).
  destruct (m_end m - p) as [|n] eqn:En; [lia|].
  cbn [Nat.pred firstn skipn last_read fold_left].
  replace (S p + n) with (m_end m) by lia. reflexivity.
Qed.

(** Where it does not, the code unit is kept. *)
Lemma replace_at_miss fl r f p pv c tl :
  match_at fl r p pv (c :: tl) = None ->
  replace_at fl r f p pv (c :: tl) = c :: replace_at fl r f (S p) (Some c) tl.
Proof.
  intros Hm. unfold replace_at. cbn [match_all_from]. rewrite Hm.
  apply replace_from_shift. intros m ms' E. apply match_all_from_head in E. lia.
Qed.

Lemma replace_at_nil fl r f p pv :
  nonempty r = true -> replace_at fl r f p pv [] = [].
Proof.
  intros Hn. unfold replace_at. cbn [match_all_from].
  destruct (match_at fl r p pv []) as [m|] eqn:E; [|reflexivity].
  apply match_at_bounds in E. destruct E as (_ & _ & Hle & Hlt). specialize (Hlt Hn).
  simpl in Hle. lia.
Qed.

(** ** The recipient address *)

Lemma search_bol_later r : forall l p c,
  search no_flags (RSeq RBol r) p (Some c) l = None.
Proof.
  induction l as [|x tl IH]; intros p c; simpl; unfold match_at; simpl; [reflexivity|apply IH].
Qed.

Lemma str_match_bol r s :
  str_match no_flags (RSeq RBol r) s = match_at no_flags (RSeq RBol r) 0 None s.
Proof.
  unfold str_match. destruct s as [|c tl]; simpl.
  - destruct (match_at _ _ _ _ _); reflexivity.
  - destruct (match_at _ _ _ _ _); [reflexivity|apply search_bol_later].
Qed.

Lemma startsWith_spec s p : startsWith s p = true <-> exists tl, s = p ++ tl.
Proof.
  revert s. induction p as [|y p IH]; intros s; cbn [startsWith app].
  - split; [intros _; exists s; reflexivity|intros _; destruct s; reflexivity].
  - destruct s as [|x s].
    + split; [discriminate|intros (tl & E); discriminate].
    + cbn [startsWith]. rewrite andb_true_iff, N.eqb_eq, IH. split.
      * intros (-> & tl & ->). exists tl. reflexivity.
      * intros (tl & E). injection E as -> ->. eauto.
Qed.

Lemma firstn_exact (w t : jsstr) n : n = length w -> firstn n (w ++ t) = w.
Proof.
  intros ->. rewrite <- (Nat.add_0_r (length w)), firstn_app_2. simpl. apply app_nil_r.
Qed.

Lemma cs_match_id_char c :
  cs_match no_flags (cls (range "a" "z" ++ range "0" "9" ++ chars "_")) c = true
  <-> is_id_char c.
Proof.
  unfold cs_match, cls, is_id_char. cbn [cs_neg cs_ranges ignoreCase no_flags andb orb xorb].
  rewrite orb_false_r. rewrite in_ranges_spec. split.
  - intros (a & b & Hin & Hc). simpl in Hin.
    destruct Hin as [[= <- <-]|[[= <- <-]|[[= <- <-]|[]]]]; lia.
  - intros [H|[H|H]].
    + exists 97%N, 122%N. split; [simpl; auto|exact H].
    + exists 48%N, 57%N. split; [simpl; auto|exact H].
    + exists 95%N, 95%N. split; [simpl; auto|lia].
Qed.

Lemma re_user_sound s m :
  match_at no_flags re_user 0 None s = Some m ->
  exists id tl, group 1 m = Some id /\ id <> [] /\ Forall is_id_char id
                /\ s = js "user_" ++ id ++ js "@" ++ tl.
Proof.
  unfold match_at, re_user.
  change (rseq [RBol; lit "user_"; RGroup 1 (plus (cls (range "a" "z" ++ range "0" "9" ++ chars "_"))); lit "@"])
    with (RSeq RBol (RSeq (lit_units (js "user_"))
            (RSeq (RGroup 1 (plus (cls (range "a" "z" ++ range "0" "9" ++ chars "_"))))
                  (RChar (one 64))))).
  cbn [rmatch at_bol prev]. rewrite rmatch_lit, lit_prefix_no_flags. cbn [rest].
  destruct (startsWith s (js "user_")) eqn:Es; [|discriminate].
  apply startsWith_spec in Es. destruct Es as (s1 & ->).
  unfold plus. cbn [rmatch]. unfold advance. cbn [rest pos prev caps].
  rewrite skipn_app, skipn_all, Nat.sub_diag. cbn [app skipn].
  destruct (rep _ _ _ _ _ _ _ _ _ _) as [res|] eqn:E; [|discriminate].
  intros [= <-].
  eapply rep_reads with (P := is_id_char) in E;
    [|intros c Hc; apply cs_match_id_char; exact Hc].
  destruct E as (w & st' & (E1 & L1 & F1) & Hlo & _ & Hk).
  cbn [rest pos prev caps] in E1, L1, Hk.
  destruct (rest st') as [|x tl] eqn:Er; [discriminate|].
  rewrite cs_match_one in Hk. destruct (N.eqb_spec x 64) as [->|]; [|discriminate].
  injection Hk as <-. exists w, tl. unfold group. cbn [m_caps find fst snd Nat.eqb caps].
  rewrite L1, E1.
  rewrite firstn_exact by (change (length (js "user_")) with 5; lia).
  split; [reflexivity|]. split; [intros ->; simpl in Hlo; lia|]. split; [exact F1|reflexivity].
Qed.

Lemma re_user_complete id tl :
  id <> [] -> Forall is_id_char id ->
  exists m, match_at no_flags re_user 0 None (js "user_" ++ id ++ js "@" ++ tl) = Some m
            /\ group 1 m = Some id.
Proof.
  intros Hne Hid. unfold match_at, re_user.
  change (rseq [RBol; lit "user_"; RGroup 1 (plus (cls (range "a" "z" ++ range "0" "9" ++ chars "_"))); lit "@"])
    with (RSeq RBol (RSeq (lit_units (js "user_"))
            (RSeq (RGroup 1 (plus (cls (range "a" "z" ++ range "0" "9" ++ chars "_"))))
                  (RChar (one 64))))).
  cbn [rmatch at_bol prev]. rewrite rmatch_lit. cbn [rest]. rewrite lit_prefix_self.
  unfold plus. cbn [rmatch]. unfold advance. cbn [rest pos prev caps].
  rewrite skipn_app, skipn_all, Nat.sub_diag. cbn [app skipn].
  erewrite rep_greedy_run; cycle 1.
  - apply Forall_forall. intros c Hc. apply cs_match_id_char.
    rewrite Forall_forall in Hid. apply Hid, Hc.
  - simpl. reflexivity.
  - destruct id; [congruence|simpl; lia].
  - cbn [rest js app]. change (js "@") with [64%N]. cbn [app].
    rewrite cs_match_one, N.eqb_refl. reflexivity.
  - eexists. split; [reflexivity|]. unfold group. cbn [m_caps find fst snd Nat.eqb caps pos].
    rewrite firstn_exact by (change (length (js "user_")) with 5; lia). reflexivity.
Qed.

(** X1. [extractUserId] gives an id exactly for a recipient address that
    is not empty and whose lower-cased form is user_, then the id, then
    '@', then anything, where the id is a non-empty run of the code units
    [[a-z0-9_]]; for every other address it gives null. *)
Theorem extractUserId_spec (toLowerCase : jsstr -> jsstr) (email id : jsstr) :
  extractUserId toLowerCase email = Some id <->
  email <> [] /\ id <> [] /\ Forall is_id_char id
  /\ exists tl, toLowerCase email = js "user_" ++ id ++ js "@" ++ tl.
Proof.
  unfold extractUserId.
  change re_user with (RSeq RBol (rseq [lit "user_"; RGroup 1 (plus (cls (range "a" "z" ++ range "0" "9" ++ chars "_"))); lit "@"])).
  rewrite str_match_bol.
  change (RSeq RBol (rseq [lit "user_"; RGroup 1 (plus (cls (range "a" "z" ++ range "0" "9" ++ chars "_"))); lit "@"])) with re_user.
  split.
  - destruct email as [|c email]; [discriminate|].
    destruct (match_at no_flags re_user 0 None (toLowerCase (c :: email))) as [m|] eqn:E;
      [|discriminate].
    intros Hg. apply re_user_sound in E. destruct E as (id' & tl & Hg' & Hne & Hid & E).
    rewrite Hg in Hg'. injection Hg' as <-.
    split; [discriminate|]. split; [exact Hne|]. split; [exact Hid|]. exists tl. exact E.
  - intros (He & Hne & Hid & tl & E). destruct email as [|c email]; [congruence|].
    rewrite E. destruct (re_user_complete tl Hne Hid) as (m & -> & Hg). exact Hg.
Qed.

(** ** Texts without a currency marker *)

Lemma includes_app_false a b p : includes (a ++ b) p = false -> startsWith b p = false.
Proof.
  induction a as [|c a IH]; cbn [app includes]; intros H.
  - destruct b; cbn [includes] in H; apply orb_false_iff in H; apply H.
  - apply orb_false_iff in H. apply IH, H.
Qed.

Lemma upper1_spec x :
  ((97 <= x <= 122)%N /\ upper1 x = (x - 32)%N)
  \/ ((224 <= x <= 254)%N /\ x <> 247%N /\ upper1 x = (x - 32)%N)
  \/ (x = 255%N /\ upper1 x = 376%N)
  \/ ((x < 97 \/ 122 < x < 224 \/ x = 247 \/ 255 < x)%N /\ upper1 x = x).
Proof.
  unfold upper1.
  destruct (N.leb_spec 97 x), (N.leb_spec x 122); cbn [andb]; try (left; lia);
    destruct (N.leb_spec 0xE0 x), (N.leb_spec x 0xFE), (N.eqb_spec x 0xF7); cbn [andb negb];
    try (right; left; lia);
    destruct (N.eqb_spec x 0xFF); try (right; right; left; lia); right; right; right; lia.
Qed.

Lemma lower1_spec x :
  ((65 <= x <= 90)%N /\ lower1 x = (x + 32)%N)
  \/ ((192 <= x <= 222)%N /\ x <> 215%N /\ lower1 x = (x + 32)%N)
  \/ (x = 376%N /\ lower1 x = 255%N)
  \/ ((x < 65 \/ 90 < x < 192 \/ x = 215 \/ 222 < x /\ x <> 376)%N /\ lower1 x = x).
Proof.
  unfold lower1.
  destruct (N.leb_spec 65 x), (N.leb_spec x 90); cbn [andb]; try (left; lia);
    destruct (N.leb_spec 0xC0 x), (N.leb_spec x 0xDE), (N.eqb_spec x 0xD7); cbn [andb negb];
    try (right; left; lia);
    destruct (N.eqb_spec x 0x178); try (right; right; left; lia); right; right; right; lia.
Qed.

(** Under the [i] flag an upper-case letter of the pattern matches the
    code units whose upper case it is. *)
Lemma cs_match_upper c x :
  (65 <= c <= 90)%N -> cs_match flag_i (one c) x = (upper1 x =? c)%N.
Proof.
  intros Hc. unfold cs_match, one, in_ranges, flag_i.
  cbn [cs_neg cs_ranges ignoreCase existsb fst snd xorb andb orb].
  rewrite !orb_false_r. apply eq_true_iff_eq.
  rewrite !orb_true_iff, !andb_true_iff, !N.leb_le, N.eqb_eq.
  destruct (upper1_spec x) as [H|[H|[H|H]]], (lower1_spec x) as [G|[G|[G|G]]]; lia.
Qed.

Lemma lit_prefix_upper s w :
  Forall (fun c => 65 <= c <= 90)%N w ->
  lit_prefix flag_i s w = startsWith (map upper1 s) w.
Proof.
  revert s. induction w as [|y w IH]; intros s Hw.
  - destruct s; reflexivity.
  - inversion Hw as [|? ? Hy Hw']; subst. destruct s as [|x s]; [reflexivity|].
    cbn [lit_prefix map startsWith]. rewrite cs_match_upper by exact Hy.
    rewrite IH by exact Hw'. reflexivity.
Qed.

Lemma dollar_pattern_never text :
  ~ In 36%N text ->
  never_matches no_flags (rseq [lit "$"; star cs_space; re_number]) text.
Proof.
  intros Hno l1 l2 p pv ->. unfold match_at.
  change (rseq [lit "$"; star cs_space; re_number])
    with (RSeq (RChar (one 36)) (RSeq (star cs_space) re_number)).
  cbn [rmatch rest]. destruct l2 as [|c tl]; [reflexivity|].
  rewrite cs_match_one. destruct (N.eqb_spec c 36) as [->|]; [|reflexivity].
  exfalso. apply Hno. apply in_or_app. right. left. reflexivity.
Qed.

Lemma ars_pattern_never text :
  includes (map upper1 text) (js "ARS") = false ->
  never_matches flag_i (rseq [lit "ARS"; star cs_space; re_number]) text.
Proof.
  intros Hno l1 l2 p pv ->. unfold match_at.
  change (rseq [lit "ARS"; star cs_space; re_number])
    with (RSeq (lit_units (js "ARS")) (RSeq (star cs_space) re_number)).
  cbn [rmatch]. rewrite rmatch_lit. cbn [rest].
  rewrite lit_prefix_upper by (repeat constructor; cbv; discriminate).
  rewrite map_app in Hno. apply includes_app_false in Hno. rewrite Hno. reflexivity.
Qed.

(** X12. A text without '$' and without ARS in any letter case holds no
    amount: the patterns of [extractAmount] match nowhere, the result is
    0, and the handlers take it as a missing amount. *)
Theorem extractAmount_needs_marker (text : jsstr) :
  ~ In 36%N text ->
  includes (map upper1 text) (js "ARS") = false ->
  amount_candidates text = []
  /\ extractAmount text = zero
  /\ no_amount (extractAmount text) = true.
Proof.
  intros Hd Ha.
  assert (Hc : amount_candidates text = []).
  { unfold amount_candidates, amount_matches, amount_patterns, match_all.
    cbn [flat_map fst snd].
    rewrite (match_all_from_never 0 0 None (dollar_pattern_never Hd)).
    rewrite (match_all_from_never 0 0 None (ars_pattern_never Ha)). reflexivity. }
  assert (Hz : extractAmount text = zero).
  { destruct (extractAmount_fuel_enough text 0) as [_ ->]. rewrite Hc. reflexivity. }
  split; [exact Hc|]. split; [exact Hz|]. rewrite Hz. reflexivity.
Qed.

(** ** The fields [parseTransaction] extracts *)

(** What a quantified class reads: a run of code units of the class,
    within the bounds, after which the rest of the pattern matches. *)
Lemma rep_inv fl cs greedy : forall l lo hi p pv cp k res,
  rep fl cs greedy lo hi l p pv cp k = Some res ->
  exists w tl, l = w ++ tl /\ Forall (fun c => cs_match fl cs c = true) w
               /\ lo <= length w /\ within hi (length w)
               /\ k (MState (p + length w) (last_read pv w) tl cp) = Some res.
Proof.
  assert (Hnil : forall hi, within hi 0) by (intros [h|]; simpl; lia).
  assert (Hstop : forall (l : jsstr) lo hi p pv cp (k : mstate -> option mstate) r0,
    match lo with 0 => k (MState p pv l cp) | S _ => None end = Some r0 ->
    exists w tl, l = w ++ tl /\ Forall (fun c => cs_match fl cs c = true) w
                 /\ lo <= length w /\ within hi (length w)
                 /\ k (MState (p + length w) (last_read pv w) tl cp) = Some r0).
  { intros l lo hi p pv cp k r0 Hr. destruct lo; [|discriminate].
    exists [], l. simpl. rewrite Nat.add_0_r. repeat split; auto. }
  induction l as [|c tl IH]; intros lo hi p pv cp k res H.
  - apply Hstop. simpl in H. destruct greedy; [exact H|].
    destruct (match lo with 0 => _ | S _ => None end); [exact H|discriminate].
  - simpl in H.
    assert (Hmore : forall r0,
      (if more_allowed hi && cs_match fl cs c
       then rep fl cs greedy (Nat.pred lo) (dec_hi hi) tl (S p) (Some c) cp k else None) = Some r0 ->
      exists w tl', c :: tl = w ++ tl' /\ Forall (fun c => cs_match fl cs c = true) w
                    /\ lo <= length w /\ within hi (length w)
                    /\ k (MState (p + length w) (last_read pv w) tl' cp) = Some r0).
    { intros r0 Hr. destruct (more_allowed hi && cs_match fl cs c) eqn:E; [|discriminate].
      apply andb_true_iff in E. destruct E as [Ea E].
      apply IH in Hr. destruct Hr as (w & tl' & -> & Hw & Hlo & Hhi & Hk).
      exists (c :: w), tl'. split; [reflexivity|]. split; [constructor; assumption|].
      split; [simpl; lia|]. split.
      - destruct hi as [[|h]|]; simpl in *; try discriminate; try lia; auto.
      - simpl. replace (p + S (length w)) with (S p + length w) by lia. exact Hk. }
    destruct greedy.
    + destruct (if more_allowed hi && cs_match fl cs c then _ else None) eqn:E.
      * inversion H; subst. apply Hmore; assumption.
      * apply Hstop; assumption.
    + destruct (match lo with 0 => _ | S _ => None end) eqn:E.
      * inversion H; subst. apply Hstop; assumption.
      * apply Hmore; assumption.
Qed.

(** What a pattern reads is within its bound and in its classes; the
    captures of a pattern whose groups are bounded by [n] are bounded by
    [n]; every capture occurs in the input and holds only code units its
    group can read. *)
Lemma rmatch_inv fl n (P : N -> Prop) r : forall st k res,
  rmatch fl r st k = Some res ->
  exists w st', rest st = w ++ rest st' /\ pos st' = pos st + length w
                /\ (forall m, max_len r = Some m -> length w <= m)
                /\ (reads_only fl P r -> Forall P w)
                /\ (groups_within n r = true ->
                    Forall (fun e => length (snd e) <= n) (caps st) ->
                    Forall (fun e => length (snd e) <= n) (caps st'))
                /\ (groups_only fl P r ->
                    Forall (fun e => Forall P (snd e)) (caps st) ->
                    Forall (fun e => Forall P (snd e)) (caps st'))
                /\ (forall a, Forall (fun e => occurs_in (snd e) (a ++ rest st)) (caps st) ->
                    Forall (fun e => occurs_in (snd e) (a ++ rest st)) (caps st'))
                /\ k st' = Some res.
Proof.
  induction r; simpl; intros st k res H.
  - exists [], st. simpl. rewrite Nat.add_0_r. repeat split; auto; intros; lia.
  - destruct (rest st) as [|x tl] eqn:E; [discriminate|].
    destruct (cs_match fl c x) eqn:Ec; [|discriminate].
    exists [x], (MState (S (pos st)) (Some x) tl (caps st)). simpl.
    repeat split; auto; [lia|intros m [= <-]; lia].
  - apply IHr1 in H. destruct H as (w1 & st1 & E1 & L1 & M1 & R1 & C1 & G1 & S1 & H1).
    apply IHr2 in H1. destruct H1 as (w2 & st2 & E2 & L2 & M2 & R2 & C2 & G2 & S2 & H2).
    exists (w1 ++ w2), st2. rewrite E1, E2, L2, L1, length_app, <- app_assoc.
    repeat split; auto; [lia| | | | |].
    + intros m Hm. destruct (max_len r1) as [x|]; [|discriminate].
      destruct (max_len r2) as [y|]; [|discriminate]. injection Hm as <-.
      specialize (M1 _ eq_refl). specialize (M2 _ eq_refl). lia.
    + intros [Ha Hb]. apply Forall_app. auto.
    + intros Hg Hc. apply andb_true_iff in Hg. destruct Hg as [Ga Gb]. auto.
    + intros [Ha Hb] Hc. auto.
    + intros a Hc. specialize (S1 a). rewrite E1, E2 in S1. specialize (S1 Hc).
      specialize (S2 (a ++ w1)). rewrite E2, <- !app_assoc in S2. apply S2, S1.
  - assert (Hb : forall w : jsstr, ((forall m, max_len r1 = Some m -> length w <= m)
                            \/ (forall m, max_len r2 = Some m -> length w <= m)) ->
                 forall m, match max_len r1, max_len r2 with
                           | Some x, Some y => Some (Nat.max x y)
                           | _, _ => None
                           end = Some m -> length w <= m).
    { intros w Hw m Hm. destruct (max_len r1) as [x|] eqn:X; [|discriminate].
      destruct (max_len r2) as [y|] eqn:Y; [|discriminate]. injection Hm as <-.
      destruct Hw as [Hw|Hw]; specialize (Hw _ eq_refl); lia. }
    destruct (rmatch fl r1 st k) eqn:E1.
    + inversion H; subst. apply IHr1 in E1.
      destruct E1 as (w & st' & E & L & M & R & C & G & S & Hk).
      exists w, st'. repeat split; auto.
      * intros [Ha _]. auto.
      * intros Hg. apply andb_true_iff in Hg. apply C, Hg.
      * intros [Ha _]. auto.
    + apply IHr2 in H. destruct H as (w & st' & E & L & M & R & C & G & S & Hk).
      exists w, st'. repeat split; auto.
      * intros [_ Hb']. auto.
      * intros Hg. apply andb_true_iff in Hg. apply C, Hg.
      * intros [_ Hb']. auto.
  - apply rep_inv in H. destruct H as (w & tl & E & Hw & _ & Hhi & Hk).
    exists w, (MState (pos st + length w) (last_read (prev st) w) tl (caps st)). simpl.
    repeat split; auto.
    + intros m ->. exact Hhi.
    + intros HP. eapply Forall_impl; [|exact Hw]. exact HP.
  - destruct (rmatch fl r st k) eqn:E1.
    + inversion H; subst. apply IHr in E1. exact E1.
    + exists [], st. simpl. rewrite Nat.add_0_r. repeat split; auto; intros; lia.
  - apply IHr in H. destruct H as (w & st' & E & L & M & R & C & G & S & Hk).
    eexists w, _.
    split; [|split; [|split; [exact M|split; [exact R|split; [|split; [|split; [|exact Hk]]]]]]];
      simpl; auto.
    + intros Hg Hc. apply andb_true_iff in Hg. destruct Hg as [Gm Gg].
      destruct (max_len r) as [x|]; [|discriminate]. apply Nat.leb_le in Gm.
      constructor; [|auto]. simpl. rewrite L, E.
      rewrite firstn_exact by lia. specialize (M _ eq_refl). lia.
    + intros [Hr Hg] Hc. constructor; [|auto]. simpl. rewrite L, E.
      rewrite firstn_exact by lia. auto.
    + intros a Hc. constructor; [|auto]. simpl. rewrite L, E.
      rewrite firstn_exact by lia. exists a, (rest st'). reflexivity.
  - destruct (at_bol fl st); [|discriminate].
    exists [], st. simpl. rewrite Nat.add_0_r. repeat split; auto; intros; lia.
  - destruct (at_eol fl st); [|discriminate].
    exists [], st. simpl. rewrite Nat.add_0_r. repeat split; auto; intros; lia.
Qed.

Lemma search_some fl r : forall l p pv m,
  search fl r p pv l = Some m ->
  exists l1 l2 pv', l = l1 ++ l2 /\ match_at fl r (p + length l1) pv' l2 = Some m.
Proof.
  induction l as [|c tl IH]; intros p pv m H; simpl in H;
    destruct (match_at fl r p pv _) as [m0|] eqn:E.
  - inversion H; subst. exists [], [], pv. simpl. rewrite Nat.add_0_r. auto.
  - discriminate.
  - inversion H; subst. exists [], (c :: tl), pv. simpl. rewrite Nat.add_0_r. auto.
  - apply IH in H. destruct H as (l1 & l2 & pv' & -> & H).
    exists (c :: l1), l2, pv'. simpl. replace (p + S (length l1)) with (S p + length l1) by lia.
    auto.
Qed.

Lemma capture_within fl n r s m :
  groups_within n r = true -> str_match fl r s = Some m -> length (capture1 m) <= n.
Proof.
  intros Hg H. unfold str_match in H. apply search_some in H.
  destruct H as (l1 & l2 & pv' & _ & H). unfold match_at in H.
  destruct (rmatch fl r _ Some) as [st|] eqn:E; [|discriminate]. injection H as <-.
  apply (@rmatch_inv fl n (fun _ => True)) in E.
  destruct E as (w & st' & _ & _ & _ & _ & C & _ & _ & [= ->]).
  specialize (C Hg (Forall_nil _)). unfold capture1, group. cbn [m_caps].
  destruct (find _ (caps st)) as [e|] eqn:Ef; [|simpl; lia].
  apply find_some in Ef. destruct Ef as [Hin _].
  rewrite Forall_forall in C. apply C, Hin.
Qed.

(** A capture holds only code units its group can read. *)
Lemma capture_only fl (P : N -> Prop) r s m :
  groups_only fl P r -> str_match fl r s = Some m -> Forall P (capture1 m).
Proof.
  intros Hg H. unfold str_match in H. apply search_some in H.
  destruct H as (l1 & l2 & pv' & _ & H). unfold match_at in H.
  destruct (rmatch fl r _ Some) as [st|] eqn:E; [|discriminate]. injection H as <-.
  apply (@rmatch_inv fl 0 P) in E.
  destruct E as (w & st' & _ & _ & _ & _ & _ & G & _ & [= ->]).
  specialize (G Hg (Forall_nil _)). unfold capture1, group. cbn [m_caps].
  destruct (find _ (caps st)) as [e|] eqn:Ef; [|constructor].
  apply find_some in Ef. destruct Ef as [Hin _].
  rewrite Forall_forall in G. apply G, Hin.
Qed.

(** A capture is a piece of the text. *)
Lemma capture_occurs fl r s m :
  str_match fl r s = Some m -> occurs_in (capture1 m) s.
Proof.
  intros H. unfold str_match in H. apply search_some in H.
  destruct H as (l1 & l2 & pv' & -> & H). unfold match_at in H.
  destruct (rmatch fl r _ Some) as [st|] eqn:E; [|discriminate]. injection H as <-.
  apply (@rmatch_inv fl 0 (fun _ => True)) in E.
  destruct E as (w & st' & _ & _ & _ & _ & _ & _ & S & [= ->]).
  specialize (S l1 (Forall_nil _)). cbn [rest] in S. unfold capture1, group. cbn [m_caps].
  destruct (find _ (caps st)) as [e|] eqn:Ef; [|exists [], (l1 ++ l2); reflexivity].
  apply find_some in Ef. destruct Ef as [Hin _].
  rewrite Forall_forall in S. apply S, Hin.
Qed.

Lemma trimStart_suffix s : exists a, s = a ++ trimStart s.
Proof.
  induction s as [|c s (a & IH)]; [exists []; reflexivity|]. simpl.
  destruct (isWhiteSpace c); [|exists []; reflexivity].
  exists (c :: a). simpl. rewrite <- IH. reflexivity.
Qed.

Lemma trim_occurs s : occurs_in (trim s) s.
Proof.
  unfold trim, trimEnd. destruct (trimStart_suffix s) as (a & Ea).
  destruct (trimStart_suffix (rev (trimStart s))) as (b & Eb).
  exists a, (rev b). rewrite <- rev_app_distr, <- Eb, rev_involutive. exact Ea.
Qed.

Lemma occurs_in_trans a b c : occurs_in a b -> occurs_in b c -> occurs_in a c.
Proof.
  intros (x & y & ->) (u & v & ->). exists (u ++ x), (y ++ v).
  rewrite <- !app_assoc. reflexivity.
Qed.

Lemma trimStart_length s : length (trimStart s) <= length s.
Proof.
  induction s as [|c s IH]; simpl; [lia|]. destruct (isWhiteSpace c); simpl; lia.
Qed.

Lemma trim_length s : length (trim s) <= length s.
Proof.
  unfold trim, trimEnd. rewrite length_rev.
  etransitivity; [apply trimStart_length|]. rewrite length_rev. apply trimStart_length.
Qed.

Lemma counterparty_patterns_within :
  Forall (fun r => groups_within 41 r = true) counterpartyPatterns.
Proof. repeat constructor. Qed.

Lemma find_counterparty_length fullText : forall patterns v,
  Forall (fun r => groups_within 41 r = true) patterns ->
  find_counterparty fullText patterns = Some v ->
  2 <= length v <= 41 /\ occurs_in v fullText.
Proof.
  induction patterns as [|r rs IH]; intros v Hg; simpl; [discriminate|].
  inversion Hg as [|? ? Hr Hrs]; subst.
  unfold pattern_capture.
  destruct (str_match flag_i r fullText) as [m|] eqn:E; [|apply IH, Hrs].
  destruct (1 <? length (trim (capture1 m)))%nat eqn:El; [|apply IH, Hrs].
  intros [= <-]. apply Nat.ltb_lt in El. split; [split; [lia|]|].
  - etransitivity; [apply trim_length|]. eapply capture_within; eauto.
  - eapply occurs_in_trans; [apply trim_occurs|]. eapply capture_occurs, E.
Qed.

Lemma re_reference_reads fl st k res :
  rmatch fl (at_least 5 cs_digit) st k = Some res ->
  exists w st', reads (fun _ => True) st w st'
                /\ (5 <= length w /\ Forall (fun c => isDigit c = true) w)
                /\ k st' = Some res.
Proof.
  unfold at_least. cbn [rmatch]. intros H.
  eapply rep_reads with (P := fun c => isDigit c = true) in H; [|apply cs_match_digit_i].
  destruct H as (w & st' & R & Hlo & _ & Hk).
  exists w, st'. split; [|split; [split; [exact Hlo|apply R]|exact Hk]].
  destruct st. eapply reads_weaken; [|exact R]. auto.
Qed.

Lemma find_reference_digits fullText ref :
  find_reference fullText = Some ref ->
  (5 <= length ref /\ Forall (fun c => isDigit c = true) ref) /\ occurs_in ref fullText.
Proof.
  unfold find_reference.
  destruct (str_match flag_i re_reference fullText) as [m|] eqn:E; [|discriminate].
  intros [= <-]. split; [|eapply capture_occurs, E].
  unfold str_match in E. apply search_some in E.
  destruct E as (l1 & l2 & pv' & _ & E).
  apply (@group_capture_reads flag_i _ _ _
           (fun w => 5 <= length w /\ Forall (fun c => isDigit c = true) w) _ _ _ _
           (@re_reference_reads flag_i)) in E.
  destruct E as (w & Hg & Hw). unfold capture1. rewrite Hg. exact Hw.
Qed.

(** X13. The counterparty and the reference the two workers extract are
    the same.  A counterparty is 2 to 41 code units long and a reference
    is a run of at least 5 decimal digits; both occur in the subject, a
    space and the body, as written there. *)
Theorem parsed_fields_shape (toLowerCase : jsstr -> jsstr)
    (AI_run : jsstr -> nat -> ai_result) (subject body : jsstr) :
  let tx := parseTransaction toLowerCase AI_run subject body in
  let legacy := legacy_parseTransaction toLowerCase subject body in
  p_counterparty legacy = p_counterparty tx
  /\ p_referenceId legacy = p_referenceId tx
  /\ (forall v, p_counterparty tx = Some v ->
                2 <= length v <= 41 /\ occurs_in v (subject ++ js " " ++ body))
  /\ (forall ref, p_referenceId tx = Some ref ->
                  (5 <= length ref /\ Forall (fun c => isDigit c = true) ref)
                  /\ occurs_in ref (subject ++ js " " ++ body)).
Proof.
  cbv zeta. unfold parseTransaction, legacy_parseTransaction.
  cbn [p_counterparty p_referenceId].
  split; [reflexivity|]. split; [reflexivity|]. split.
  - intros v. apply find_counterparty_length, counterparty_patterns_within.
  - intros ref. apply find_reference_digits.
Qed.

(** ** The sender address *)

Lemma search_skip fl cs r : forall pre l p pv,
  Forall (fun c => cs_match fl cs c = false) pre ->
  search fl (RSeq (RChar cs) r) p pv (pre ++ l)
  = search fl (RSeq (RChar cs) r) (p + length pre) (last_read pv pre) l.
Proof.
  induction pre as [|c pre IH]; intros l p pv Hpre.
  - simpl. rewrite Nat.add_0_r. reflexivity.
  - inversion Hpre as [|? ? Hc Hpre']; subst. cbn [app search].
    unfold match_at at 1. cbn [rmatch rest]. rewrite Hc.
    rewrite IH by exact Hpre'. cbn [length last_read fold_left].
    replace (S p + length pre) with (p + S (length pre)) by lia. reflexivity.
Qed.

Lemma search_found fl r p pv l m :
  match_at fl r p pv l = Some m -> search fl r p pv l = Some m.
Proof. intros H. destruct l; simpl; rewrite H; reflexivity. Qed.

Lemma first_char_never fl cs r text :
  Forall (fun c => cs_match fl cs c = false) text ->
  never_matches fl (RSeq (RChar cs) r) text.
Proof.
  intros Hno l1 l2 p pv ->. unfold match_at. cbn [rmatch rest].
  destruct l2 as [|c tl]; [reflexivity|].
  apply Forall_app in Hno. destruct Hno as [_ Hno]. inversion Hno as [|? ? Hc _]; subst.
  rewrite Hc. reflexivity.
Qed.

Lemma cs_match_not_one c x : cs_match no_flags (ncls [(x, x)]) c = negb (c =? x)%N.
Proof.
  unfold cs_match, ncls, in_ranges. simpl.
  destruct (N.leb_spec x c), (N.leb_spec c x), (N.eqb_spec c x); simpl; try reflexivity; lia.
Qed.

Lemma not_in_forall (x : N) s (f : N -> bool) :
  (forall c, c <> x -> f c = true) -> ~ In x s -> Forall (fun c => f c = true) s.
Proof.
  intros Hf Hs. apply Forall_forall. intros c Hc. apply Hf. intros ->. exact (Hs Hc).
Qed.

Lemma re_angle_match pre addr post :
  ~ In 60%N pre -> addr <> [] -> ~ In 62%N addr ->
  exists m, str_match no_flags re_angle (pre ++ js "<" ++ addr ++ js ">" ++ post) = Some m
            /\ capture1 m = addr.
Proof.
  intros Hpre Hne Haddr. unfold str_match, re_angle.
  change (rseq [lit "<"; RGroup 1 (plus (ncls (chars ">"))); lit ">"])
    with (RSeq (RChar (one 60)) (RSeq (RGroup 1 (plus (ncls [(62, 62)%N]))) (RChar (one 62)))).
  rewrite search_skip.
  2:{ apply Forall_forall. intros c Hc. rewrite cs_match_one.
      apply N.eqb_neq. intros ->. exact (Hpre Hc). }
  change (js "<") with [60%N]. change (js ">") with [62%N]. cbn [app].
  assert (Hm : exists st,
    rmatch no_flags (RSeq (RChar (one 60)) (RSeq (RGroup 1 (plus (ncls [(62, 62)%N])))
                                                 (RChar (one 62))))
           (MState (0 + length pre) (last_read None pre) (60%N :: addr ++ 62%N :: post) [])
           Some = Some st /\ caps st = [(1, addr)]).
  { cbn [rmatch rest]. rewrite cs_match_one_self. unfold plus. cbn [rmatch rest pos prev caps].
    erewrite rep_greedy_run; cycle 1.
    - apply Forall_forall. intros c Hc. rewrite cs_match_not_one.
      apply negb_true_iff, N.eqb_neq. intros ->. exact (Haddr Hc).
    - rewrite cs_match_not_one. reflexivity.
    - destruct addr; [congruence|simpl; lia].
    - cbn [rest]. rewrite cs_match_one_self. reflexivity.
    - eexists. split; [reflexivity|]. cbn [caps pos].
      rewrite firstn_exact by lia. reflexivity. }
  destruct Hm as (st & Hm & Hcaps).
  eexists. split.
  - apply search_found. unfold match_at. rewrite Hm. reflexivity.
  - unfold capture1, group. cbn [m_caps]. rewrite Hcaps. reflexivity.
Qed.

(** X6. [extractEmailAddress] on a sender that is not empty: when the
    lower-cased, trimmed sender holds a first '<' followed by a non-empty
    text without '>' and then '>', the result is that text, trimmed; when
    it holds no '<' the result is the lower-cased, trimmed sender itself;
    and the result is trimmed in every case. *)
Theorem extractEmailAddress_spec (toLowerCase : jsstr -> jsstr) (from : jsstr) :
  from <> [] ->
  let lowerFrom := trim (toLowerCase from) in
  (forall pre addr post,
     lowerFrom = pre ++ js "<" ++ addr ++ js ">" ++ post ->
     ~ In 60%N pre -> addr <> [] -> ~ In 62%N addr ->
     extractEmailAddress toLowerCase from = trim addr)
  /\ (~ In 60%N lowerFrom -> extractEmailAddress toLowerCase from = lowerFrom)
  /\ trim (extractEmailAddress toLowerCase from) = extractEmailAddress toLowerCase from.
Proof.
  intros Hfrom lowerFrom. unfold extractEmailAddress.
  destruct from as [|c from]; [congruence|]. fold lowerFrom.
  split; [|split].
  - intros pre addr post E Hpre Hne Haddr. rewrite E.
    destruct (@re_angle_match pre addr post Hpre Hne Haddr) as (m & -> & ->). reflexivity.
  - intros Hno. unfold str_match, re_angle.
    change (rseq [lit "<"; RGroup 1 (plus (ncls (chars ">"))); lit ">"])
      with (RSeq (RChar (one 60)) (RSeq (RGroup 1 (plus (ncls [(62, 62)%N]))) (RChar (one 62)))).
    rewrite search_never; [reflexivity|]. apply first_char_never.
    apply Forall_forall. intros x Hx. rewrite cs_match_one.
    apply N.eqb_neq. intros ->. exact (Hno Hx).
  - destruct (str_match no_flags re_angle lowerFrom); apply trim_idem.
Qed.

(** ** Header lines *)

Lemma cs_match_dot_i fl c : cs_match fl cs_dot c = negb (isLineTerminator c).
Proof.
  unfold cs_match, cs_dot, in_ranges, isLineTerminator.
  cbn [cs_neg cs_ranges existsb fst snd].
  rewrite !orb_false_r.
  assert (H : forall b1 b2, b1 = b2 -> xorb true b1 = negb b2) by (intros b1 b2 ->; destruct b2; reflexivity).
  apply H. apply eq_true_iff_eq.
  destruct (ignoreCase fl); cbn [andb];
    rewrite ?orb_false_r, !orb_true_iff, !andb_true_iff, !N.leb_le, !N.eqb_eq;
    [destruct (upper1_spec c) as [U|[U|[U|U]]], (lower1_spec c) as [L|[L|[L|L]]]|]; lia.
Qed.

Lemma in_ranges_space c : in_ranges ws_ranges c = isWhiteSpace c.
Proof.
  unfold in_ranges, ws_ranges, isWhiteSpace. cbn [existsb fst snd].
  rewrite !orb_false_r. apply eq_true_iff_eq.
  rewrite !orb_true_iff, !andb_true_iff, !N.leb_le, !N.eqb_eq. lia.
Qed.

Lemma isWhiteSpace_spec c :
  isWhiteSpace c = true <->
  (9 <= c <= 13 \/ c = 32 \/ c = 0xA0 \/ c = 0x1680 \/ 0x2000 <= c <= 0x200A
   \/ c = 0x2028 \/ c = 0x2029 \/ c = 0x202F \/ c = 0x205F \/ c = 0x3000 \/ c = 0xFEFF)%N.
Proof.
  unfold isWhiteSpace.
  rewrite !orb_true_iff, !andb_true_iff, !N.leb_le, !N.eqb_eq. tauto.
Qed.

Lemma upper1_space c : isWhiteSpace (upper1 c) = true -> isWhiteSpace c = true.
Proof.
  rewrite !isWhiteSpace_spec. destruct (upper1_spec c) as [U|[U|[U|U]]]; lia.
Qed.

Lemma lower1_space c : isWhiteSpace (lower1 c) = true -> isWhiteSpace c = true.
Proof.
  rewrite !isWhiteSpace_spec. destruct (lower1_spec c) as [L|[L|[L|L]]]; lia.
Qed.

Lemma cs_match_space_i fl c : cs_match fl cs_space c = isWhiteSpace c.
Proof.
  unfold cs_match, cs_space. cbn [cs_neg cs_ranges xorb]. rewrite !in_ranges_space.
  destruct (isWhiteSpace c) eqn:E; [reflexivity|].
  destruct (isWhiteSpace (upper1 c)) eqn:Eu; [apply upper1_space in Eu; congruence|].
  destruct (isWhiteSpace (lower1 c)) eqn:El; [apply lower1_space in El; congruence|].
  destruct (ignoreCase fl); reflexivity.
Qed.

Lemma lit_prefix_app fl : forall a b s,
  lit_prefix fl s (a ++ b) = lit_prefix fl s a && lit_prefix fl (skipn (length a) s) b.
Proof.
  induction a as [|y a IH]; intros b s.
  - cbn [app length skipn]. rewrite lit_prefix_nil. reflexivity.
  - destruct s as [|x s]; [reflexivity|]. cbn [app lit_prefix length skipn].
    rewrite IH, andb_assoc. reflexivity.
Qed.

Lemma re_header_eq headerName :
  re_header headerName
  = RSeq RBol (RSeq (lit_units (js headerName))
      (RSeq (lit_units (js ":"))
         (RSeq (star cs_space) (RSeq (RGroup 1 (plus cs_dot)) REol)))).
Proof. reflexivity. Qed.

Lemma at_bol_mi st : at_bol flag_mi st = bol_after (prev st).
Proof. unfold at_bol, bol_after. destruct (prev st); reflexivity. Qed.

(** Where no header line begins, the pattern does not match. *)
Lemma header_no_match headerName p pv l :
  bol_after pv && begins_header headerName l = false ->
  match_at flag_mi (re_header headerName) p pv l = None.
Proof.
  intros H. rewrite re_header_eq. unfold match_at. cbn [rmatch].
  rewrite at_bol_mi. cbn [prev]. destruct (bol_after pv); [|reflexivity].
  cbn [andb] in H. unfold begins_header in H. rewrite lit_prefix_app in H.
  rewrite !rmatch_lit. cbn [rest].
  destruct (lit_prefix flag_mi l (js headerName)); [|reflexivity].
  cbn [andb] in H. unfold advance. cbn [rest]. rewrite H. reflexivity.
Qed.

Lemma search_skip_none fl r : forall pre p pv l,
  (forall a b, pre = a ++ b -> b <> [] ->
     match_at fl r (p + length a) (last_read pv a) (b ++ l) = None) ->
  search fl r p pv (pre ++ l) = search fl r (p + length pre) (last_read pv pre) l.
Proof.
  induction pre as [|c pre IH]; intros p pv l H.
  - simpl. rewrite Nat.add_0_r. reflexivity.
  - cbn [app search].
    pose proof (H [] (c :: pre) eq_refl) as H0. cbn [length last_read fold_left app] in H0.
    rewrite Nat.add_0_r in H0. rewrite H0 by discriminate.
    rewrite IH.
    + cbn [length last_read fold_left]. replace (S p + length pre) with (p + S (length pre)) by lia.
      reflexivity.
    + intros a b E Hb. specialize (H (c :: a) b). cbn [length last_read fold_left app] in H.
      replace (S p + length a) with (p + S (length a)) by lia. apply H; [rewrite E; reflexivity|exact Hb].
Qed.

Lemma header_free_spec headerName : forall pre pv after,
  header_free headerName pv pre after = true ->
  forall a b, pre = a ++ b -> b <> [] ->
    bol_after (last_read pv a) && begins_header headerName (b ++ after) = false.
Proof.
  induction pre as [|c pre IH]; intros pv after H a b E Hb.
  - symmetry in E. apply app_eq_nil in E. destruct E as [_ ->]. congruence.
  - cbn [header_free] in H. apply andb_true_iff in H. destruct H as [H1 H2].
    apply negb_true_iff in H1. destruct a as [|x a].
    + cbn [app] in E. subst b. exact H1.
    + cbn [app] in E. injection E as <- E. cbn [last_read fold_left].
      eapply (IH (Some c) after H2 a b E Hb).
Qed.

Lemma lit_prefix_front fl : forall name w after,
  lit_prefix fl w name = true -> lit_prefix fl (w ++ after) name = true.
Proof.
  induction name as [|y name IH]; intros w after H; [apply lit_prefix_nil|].
  destruct w as [|x w]; [discriminate|]. cbn [app lit_prefix] in *.
  apply andb_true_iff in H. destruct H as [-> H]. apply IH, H.
Qed.

(** At the header line the pattern matches and captures the value. *)
Lemma header_match headerName written p pv sp v tl :
  lit_prefix flag_mi written (js headerName) = true ->
  length written = length (js headerName) ->
  bol_after pv = true ->
  Forall (fun c => isWhiteSpace c = true) sp ->
  v <> [] -> Forall (fun c => isLineTerminator c = false) v ->
  match v with c :: _ => isWhiteSpace c = false | [] => True end ->
  match tl with c :: _ => isLineTerminator c = true | [] => True end ->
  exists m, match_at flag_mi (re_header headerName) p pv
              (written ++ js ":" ++ sp ++ v ++ tl) = Some m
            /\ group 1 m = Some v.
Proof.
  intros Hw Hlen Hbol Hsp Hne Hv Hv0 Htl. rewrite re_header_eq. unfold match_at. cbn [rmatch].
  rewrite at_bol_mi. cbn [prev]. rewrite Hbol.
  rewrite rmatch_lit. cbn [rest]. rewrite (@lit_prefix_front _ _ _ _ Hw).
  unfold advance at 1. cbn [rest pos prev caps].
  rewrite <- Hlen, skipn_app, skipn_all, Nat.sub_diag. cbn [app skipn].
  rewrite rmatch_lit. cbn [rest]. rewrite lit_prefix_self.
  unfold advance at 1. cbn [rest pos prev caps].
  rewrite skipn_app, skipn_all, Nat.sub_diag. cbn [app skipn].
  unfold star, plus. cbn [rmatch rest pos prev caps].
  erewrite rep_greedy_run; cycle 1.
  - eapply Forall_impl; [|exact Hsp]. intros c Hc. rewrite cs_match_space_i. exact Hc.
  - destruct v as [|c v]; [congruence|]. cbn [app]. rewrite cs_match_space_i. exact Hv0.
  - lia.
  - cbn [rmatch rest pos prev caps].
    erewrite rep_greedy_run; cycle 1.
    + eapply Forall_impl; [|exact Hv]. intros c Hc. rewrite cs_match_dot_i, Hc. reflexivity.
    + destruct tl as [|c tl]; [exact I|]. rewrite cs_match_dot_i, Htl. reflexivity.
    + destruct v; [congruence|simpl; lia].
    + cbn [rmatch]. unfold at_eol. cbn [rest multiline flag_mi].
      destruct tl as [|c tl]; [reflexivity|]. rewrite Htl. reflexivity.
    + reflexivity.
  - eexists. split; [reflexivity|]. unfold group. cbn [m_caps caps pos prev rest find fst snd Nat.eqb].
    rewrite firstn_exact by lia. reflexivity.
Qed.

Lemma re_header_groups headerName :
  groups_only flag_mi (fun c => isLineTerminator c = false) (re_header headerName).
Proof.
  rewrite re_header_eq. cbn [groups_only reads_only plus star].
  assert (Hl : forall w, groups_only flag_mi (fun c => isLineTerminator c = false) (lit_units w)).
  { induction w as [|c [|d w] IH]; cbn [lit_units groups_only]; auto. }
  repeat split; auto.
  intros c Hc. rewrite cs_match_dot_i in Hc. apply negb_true_iff, Hc.
Qed.

Lemma group1_capture m v : group 1 m = Some v -> capture1 m = v.
Proof. unfold capture1. intros ->. reflexivity. Qed.

(** The value of a header is trimmed, lies on one line and is a piece of
    the message. *)
Lemma extractHeader_sound headerName rawEmail value :
  extractHeader rawEmail headerName = Some value ->
  trim value = value /\ Forall (fun c => isLineTerminator c = false) value
  /\ occurs_in value rawEmail.
Proof.
  unfold extractHeader.
  destruct (str_match flag_mi (re_header headerName) rawEmail) as [m|] eqn:E; [|discriminate].
  destruct (group 1 m) as [w|] eqn:Eg; [|discriminate]. cbn [option_map]. intros [= <-].
  apply group1_capture in Eg.
  pose proof (@capture_only _ _ _ _ _ (re_header_groups headerName) E) as Hc.
  pose proof (@capture_occurs _ _ _ _ E) as Ho. rewrite Eg in Hc, Ho.
  split; [apply trim_idem|]. split.
  - destruct (trim_occurs w) as (a & b & Ew). rewrite Ew in Hc.
    apply Forall_app in Hc. destruct Hc as [_ Hc]. apply Forall_app in Hc. apply Hc.
  - eapply occurs_in_trans; [apply trim_occurs|exact Ho].
Qed.

(** X2. The value [extractHeader] returns is trimmed, holds no line
    terminator and occurs in the raw message.  When the first line that
    begins with the header name, in any letter case, and a colon goes on
    with white space and then a value that is not empty and ends with the
    line, the result is that value, trimmed.  The white space may hold
    line ends: a header whose own line holds no value is given the next
    line. *)
Theorem extractHeader_value (headerName : string) :
  (forall rawEmail value,
     extractHeader rawEmail headerName = Some value ->
     trim value = value /\ Forall (fun c => isLineTerminator c = false) value
     /\ occurs_in value rawEmail)
  /\ (forall pre written sp v tl,
        header_free headerName None pre (written ++ js ":" ++ sp ++ v ++ tl) = true ->
        bol_after (last_read None pre) = true ->
        lit_prefix flag_mi written (js headerName) = true ->
        length written = length (js headerName) ->
        Forall (fun c => isWhiteSpace c = true) sp ->
        v <> [] -> Forall (fun c => isLineTerminator c = false) v ->
        match v with c :: _ => isWhiteSpace c = false | [] => True end ->
        match tl with c :: _ => isLineTerminator c = true | [] => True end ->
        extractHeader (pre ++ written ++ js ":" ++ sp ++ v ++ tl) headerName
        = Some (trim v)).
Proof.
  split; [intros rawEmail value; apply extractHeader_sound|].
  intros pre written sp v tl Hfree Hbol Hw Hlen Hsp Hne Hv Hv0 Htl.
  unfold extractHeader, str_match.
  rewrite search_skip_none.
  - destruct (@header_match headerName written (0 + length pre) (last_read None pre) sp v tl
                Hw Hlen Hbol Hsp Hne Hv Hv0 Htl) as (m & Hm & Hg).
    rewrite (@search_found _ _ _ _ _ _ Hm), Hg. reflexivity.
  - intros a b E Hb. apply header_no_match.
    eapply header_free_spec; eauto.
Qed.

(** ** Text without markup *)

Lemma includes_spec s p : includes s p = true <-> occurs_in p s.
Proof.
  unfold occurs_in. induction s as [|c s IH]; cbn [includes].
  - rewrite orb_false_r, startsWith_spec. split.
    + intros (tl & E). exists [], tl. exact E.
    + intros (a & b & E). symmetry in E. apply app_eq_nil in E. destruct E as [-> E].
      exists b. symmetry. exact E.
  - rewrite orb_true_iff, startsWith_spec, IH. split.
    + intros [(tl & E)|(a & b & E)]; [exists [], tl; exact E|].
      exists (c :: a), b. rewrite E. reflexivity.
    + intros ([|x a] & b & E); [left; exists b; exact E|].
      right. injection E as -> E. exists a, b. exact E.
Qed.

Lemma cs_match_space c : cs_match no_flags cs_space c = isWhiteSpace c.
Proof.
  unfold cs_match, cs_space, in_ranges, ws_ranges, isWhiteSpace, no_flags.
  cbn [cs_neg cs_ranges ignoreCase existsb fst snd xorb andb orb].
  rewrite !orb_false_r. apply eq_true_iff_eq.
  rewrite !orb_true_iff, !andb_true_iff, !N.leb_le, !N.eqb_eq. lia.
Qed.

Lemma span_space : forall l : jsstr,
  exists w tl, l = w ++ tl /\ Forall (fun c => isWhiteSpace c = true) w
               /\ match tl with c :: _ => isWhiteSpace c = false | [] => True end.
Proof.
  induction l as [|c l (w & tl & E & Hw & Htl)].
  - exists [], []. repeat split; auto.
  - destruct (isWhiteSpace c) eqn:Ec.
    + exists (c :: w), tl. rewrite E. repeat split; auto.
    + exists [], (c :: l). repeat split; auto.
Qed.

Lemma spaces_at_run p pv w tl :
  w <> [] -> Forall (fun c => isWhiteSpace c = true) w ->
  match tl with c :: _ => isWhiteSpace c = false | [] => True end ->
  replace_at no_flags (plus cs_space) (fun _ => js " ") p pv (w ++ tl)
  = 32%N :: replace_at no_flags (plus cs_space) (fun _ => js " ")
                       (p + length w) (last_read pv w) tl.
Proof.
  intros Hne Hw Htl.
  assert (Hm : match_at no_flags (plus cs_space) p pv (w ++ tl)
               = Some (Match p (p + length w) (firstn (p + length w - p) (w ++ tl)) [])).
  { unfold match_at, plus. cbn [rmatch rest pos prev caps].
    erewrite rep_greedy_run; cycle 1.
    - eapply Forall_impl; [|exact Hw]. intros c Hc. rewrite cs_match_space. exact Hc.
    - destruct tl; [exact I|]. rewrite cs_match_space. exact Htl.
    - destruct w; [congruence|simpl; lia].
    - reflexivity.
    - reflexivity. }
  assert (Hl : 0 < length w) by (destruct w; [congruence|simpl; lia]).
  rewrite (@replace_at_hit _ _ _ _ _ _ _ Hm) by (simpl; lia). cbn [m_end].
  replace (p + length w - p) with (length w) by lia.
  rewrite firstn_exact by reflexivity. rewrite skipn_app, skipn_all, Nat.sub_diag.
  reflexivity.
Qed.

Lemma spaces_at_other p pv c tl :
  isWhiteSpace c = false ->
  replace_at no_flags (plus cs_space) (fun _ => js " ") p pv (c :: tl)
  = c :: replace_at no_flags (plus cs_space) (fun _ => js " ") (S p) (Some c) tl.
Proof.
  intros Hc. apply replace_at_miss. unfold match_at, plus.
  cbn [rmatch rep rest pos prev caps more_allowed andb]. rewrite cs_match_space, Hc.
  reflexivity.
Qed.

(** After [/\s+/g] is replaced by one space, white space only occurs as
    single spaces. *)
Lemma spaces_collapsed : forall n l p pv,
  length l <= n ->
  single_spaced false (replace_at no_flags (plus cs_space) (fun _ => js " ") p pv l) = true.
Proof.
  induction n as [|n IH]; intros l p pv Hn.
  - destruct l; [|simpl in Hn; lia]. rewrite replace_at_nil by reflexivity. reflexivity.
  - destruct l as [|c l]; [rewrite replace_at_nil by reflexivity; reflexivity|].
    destruct (isWhiteSpace c) eqn:Ec.
    + destruct (span_space l) as (w & tl & E & Hw & Htl).
      change (c :: l) with ([c] ++ l). rewrite E, app_assoc.
      rewrite spaces_at_run; [|discriminate|constructor; assumption|exact Htl].
      cbn [single_spaced isWhiteSpace]. change (isWhiteSpace 32) with true. cbn [N.eqb Pos.eqb andb negb].
      destruct tl as [|c' tl]; [rewrite replace_at_nil by reflexivity; reflexivity|].
      rewrite spaces_at_other by exact Htl. cbn [single_spaced]. rewrite Htl.
      apply IH. subst l. simpl in Hn. rewrite length_app in Hn. simpl in Hn. lia.
    + rewrite spaces_at_other by exact Ec. cbn [single_spaced]. rewrite Ec.
      apply IH. simpl in Hn. lia.
Qed.

(** Text that is single-spaced already is left as it is. *)
Lemma spaces_kept : forall l b p pv,
  single_spaced b l = true ->
  replace_at no_flags (plus cs_space) (fun _ => js " ") p pv l = l.
Proof.
  induction l as [|c l IH]; intros b p pv H.
  - apply replace_at_nil. reflexivity.
  - cbn [single_spaced] in H. destruct (isWhiteSpace c) eqn:Ec.
    + apply andb_true_iff in H. destruct H as [H Hl]. apply andb_true_iff in H.
      destruct H as [Hc _]. apply N.eqb_eq in Hc. subst c.
      change (32%N :: l) with ([32%N] ++ l). rewrite spaces_at_run.
      * cbn [app]. f_equal. eapply IH. exact Hl.
      * discriminate.
      * repeat constructor.
      * destruct l as [|c' l]; [exact I|]. cbn [single_spaced] in Hl.
        destruct (isWhiteSpace c'); [|reflexivity].
        rewrite andb_false_r in Hl. discriminate.
    + rewrite spaces_at_other by exact Ec. f_equal. eapply IH. exact H.
Qed.

Lemma single_spaced_weaken s : single_spaced true s = true -> single_spaced false s = true.
Proof.
  destruct s as [|c s]; [reflexivity|]. cbn [single_spaced].
  destruct (isWhiteSpace c); [|auto]. rewrite andb_false_r. discriminate.
Qed.

Lemma single_spaced_tail : forall a b s,
  single_spaced b (a ++ s) = true -> single_spaced false s = true.
Proof.
  induction a as [|c a IH]; intros b s H.
  - destruct b; [apply single_spaced_weaken|]; exact H.
  - cbn [app single_spaced] in H. destruct (isWhiteSpace c).
    + apply andb_true_iff in H. destruct H as [_ H]. eapply IH, H.
    + eapply IH, H.
Qed.

Lemma single_spaced_front : forall s a b,
  single_spaced b (s ++ a) = true -> single_spaced b s = true.
Proof.
  induction s as [|c s IH]; intros a b H; [reflexivity|].
  cbn [app single_spaced] in *. destruct (isWhiteSpace c).
  - apply andb_true_iff in H. destruct H as [H1 H]. rewrite H1. eapply IH, H.
  - eapply IH, H.
Qed.

Lemma single_spaced_spec : forall s b,
  single_spaced b s = true ->
  Forall (fun c => isWhiteSpace c = true -> c = 32%N) s /\ includes s (js "  ") = false.
Proof.
  assert (Hfa : forall s b, single_spaced b s = true ->
                Forall (fun c => isWhiteSpace c = true -> c = 32%N) s).
  { induction s as [|c s IH]; intros b H; [constructor|].
    cbn [single_spaced] in H. destruct (isWhiteSpace c) eqn:Ec.
    - apply andb_true_iff in H. destruct H as [H Hs]. apply andb_true_iff in H.
      destruct H as [Hc _]. apply N.eqb_eq in Hc. constructor; [auto|eapply IH, Hs].
    - constructor; [congruence|eapply IH, H]. }
  intros s b H. split; [eapply Hfa, H|].
  destruct (includes s (js "  ")) eqn:E; [|reflexivity].
  apply includes_spec in E. destruct E as (a & t & ->).
  apply single_spaced_tail in H. change (js "  ") with [32%N; 32%N] in H.
  cbn [app single_spaced] in H. change (isWhiteSpace 32) with true in H.
  cbn [N.eqb Pos.eqb andb negb] in H. discriminate.
Qed.

Lemma single_spaced_trim s : single_spaced false s = true -> single_spaced false (trim s) = true.
Proof.
  intros H. destruct (trim_occurs s) as (a & b & E). rewrite E in H.
  apply single_spaced_tail in H. eapply single_spaced_front, H.
Qed.

Lemma lit_prefix_absent (fl : flags) (x : N) w l1 l2 :
  (x < 65)%N -> ~ In x (l1 ++ l2) -> lit_prefix fl l2 (x :: w) = false.
Proof.
  intros Hx Hno. destruct l2 as [|c tl]; [reflexivity|]. cbn [lit_prefix].
  destruct (cs_match fl (one x) c) eqn:E; [|reflexivity].
  change (one x) with (cls [(x, x)]) in E. apply cs_match_low in E.
  - apply in_ranges_spec in E. destruct E as (a & b & [[= <- <-]|[]] & Hc).
    assert (c = x) by lia. subst c. exfalso. apply Hno. apply in_or_app. right. left.
    reflexivity.
  - intros a b [[= <- <-]|[]]. exact Hx.
Qed.

Lemma lit_never (fl : flags) (x : N) w text :
  (x < 65)%N -> ~ In x text -> never_matches fl (lit_units (x :: w)) text.
Proof.
  intros Hx Hno l1 l2 p pv ->. unfold match_at. rewrite rmatch_lit. cbn [rest].
  rewrite (lit_prefix_absent fl w l1 l2 Hx Hno). reflexivity.
Qed.

Lemma lit_seq_never (fl : flags) (x : N) w r text :
  (x < 65)%N -> ~ In x text -> never_matches fl (RSeq (lit_units (x :: w)) r) text.
Proof.
  intros Hx Hno l1 l2 p pv ->. unfold match_at. cbn [rmatch]. rewrite rmatch_lit. cbn [rest].
  rewrite (lit_prefix_absent fl w l1 l2 Hx Hno). reflexivity.
Qed.

Lemma first_char_never_i fl (x : N) r text :
  (x < 65)%N -> ~ In x text -> never_matches fl (RSeq (RChar (one x)) r) text.
Proof.
  intros Hx Hno. apply first_char_never. apply Forall_forall. intros c Hc.
  destruct (cs_match fl (one x) c) eqn:E; [|reflexivity].
  change (one x) with (cls [(x, x)]) in E. apply cs_match_low in E.
  - apply in_ranges_spec in E. destruct E as (a & b & [[= <- <-]|[]] & Hb).
    assert (c = x) by lia. subst c. contradiction.
  - intros a b [[= <- <-]|[]]. exact Hx.
Qed.

(** X4. The text [stripHtml] returns is trimmed, its only white space is
    the space, and it never holds two spaces in a row.  A text without
    '<' and '&' in which white space only occurs as single spaces is
    returned trimmed and otherwise unchanged. *)
Theorem stripHtml_normal_form (html : jsstr) :
  let textOnly := stripHtml html in
  trim textOnly = textOnly
  /\ Forall (fun c => isWhiteSpace c = true -> c = 32%N) textOnly
  /\ includes textOnly (js "  ") = false
  /\ (~ In 60%N html -> ~ In 38%N html -> single_spaced false html = true ->
      stripHtml html = trim html).
Proof.
  cbv zeta.
  assert (Hs : single_spaced false (stripHtml html) = true).
  { unfold stripHtml. apply single_spaced_trim. rewrite replace_all_at.
    eapply spaces_collapsed. reflexivity. }
  split; [apply trim_idem|]. split; [eapply single_spaced_spec, Hs|].
  split; [eapply single_spaced_spec, Hs|].
  intros Hlt Hamp Hsp. unfold stripHtml, replace_lit.
  rewrite (@replace_all_never flag_i re_style)
    by (apply (@lit_seq_never flag_i 60); [reflexivity|exact Hlt]).
  rewrite (@replace_all_never flag_i re_script)
    by (apply (@lit_seq_never flag_i 60); [reflexivity|exact Hlt]).
  rewrite (@replace_all_never no_flags re_tag)
    by (apply (@first_char_never_i no_flags 60); [reflexivity|exact Hlt]).
  rewrite (@replace_all_never no_flags (lit "&nbsp;"))
    by (apply (@lit_never no_flags 38); [reflexivity|exact Hamp]).
  rewrite (@replace_all_never no_flags (lit "&amp;"))
    by (apply (@lit_never no_flags 38); [reflexivity|exact Hamp]).
  rewrite (@replace_all_never no_flags (lit "&lt;"))
    by (apply (@lit_never no_flags 38); [reflexivity|exact Hamp]).
  rewrite (@replace_all_never no_flags (lit "&gt;"))
    by (apply (@lit_never no_flags 38); [reflexivity|exact Hamp]).
  rewrite replace_all_at, (@spaces_kept _ _ 0 None Hsp). reflexivity.
Qed.

(** ** The body of a message *)

Lemma split_at_never fl r p pv l : never_matches fl r l -> split_at fl r p pv l = [l].
Proof. intros H. unfold split_at. rewrite match_all_from_never by exact H. reflexivity. Qed.

Lemma split_from_shift c tl p ms :
  (forall m ms', ms = m :: ms' -> S p <= m_index m /\ m_index m <= m_end m) ->
  split_from ms p (c :: tl) = push c (split_from ms (S p) tl).
Proof.
  destruct ms as [|m ms']; intros H; simpl; [reflexivity|].
  destruct (H m ms' eq_refl) as [H1 H2].
  replace (m_index m - p) with (S (m_index m - S p)) by lia.
  replace (m_end m - p) with (S (m_end m - S p)) by lia.
  reflexivity.
Qed.

Lemma split_at_miss fl r p pv c tl :
  match_at fl r p pv (c :: tl) = None ->
  split_at fl r p pv (c :: tl) = push c (split_at fl r (S p) (Some c) tl).
Proof.
  intros Hm. unfold split_at. cbn [match_all_from]. rewrite Hm.
  apply split_from_shift. intros m ms' E. apply match_all_from_head in E. lia.
Qed.

Lemma split_at_hit fl r p pv l m :
  match_at fl r p pv l = Some m -> p < m_end m ->
  split_at fl r p pv l
  = [] :: split_at fl r (m_end m) (last_read pv (firstn (m_end m - p) l))
                   (skipn (m_end m - p) l).
Proof.
  intros Hm Hlt. pose proof (match_at_bounds _ _ _ _ _ Hm) as (Hi & _ & Hle & _).
  unfold split_at. destruct l as [|c tl]; [simpl in Hle; lia|].
  cbn [match_all_from]. rewrite Hm. cbn [split_from].
  rewrite Hi, Nat.sub_diag. cbn [firstn]. f_equal.
  rewrite match_all_from_skip by (simpl in Hle; lia).
  destruct (m_end m - p) as [|n] eqn:En; [lia|].
  cbn [Nat.pred firstn skipn last_read fold_left].
  replace (S p + n) with (m_end m) by lia. reflexivity.
Qed.

(** The pieces before the first match. *)
Lemma split_at_skip fl r : forall t p pv after,
  (forall a b p' pv', t = a ++ b -> b <> [] -> match_at fl r p' pv' (b ++ after) = None) ->
  exists x xs, split_at fl r (p + length t) (last_read pv t) after = x :: xs
               /\ split_at fl r p pv (t ++ after) = (t ++ x) :: xs.
Proof.
  induction t as [|c t IH]; intros p pv after H.
  - cbn [app length last_read fold_left]. rewrite Nat.add_0_r.
    unfold split_at. destruct (match_all_from fl r 0 p pv after) as [|m ms]; cbn [split_from]; eauto.
  - cbn [app]. rewrite split_at_miss by (apply (H [] (c :: t)); [reflexivity|discriminate]).
    destruct (IH (S p) (Some c) after) as (x & xs & E1 & E2).
    + intros a b p' pv' E Hb. apply (H (c :: a) b); [rewrite E; reflexivity|exact Hb].
    + exists x, xs. cbn [length last_read fold_left].
      replace (p + S (length t)) with (S p + length t) by lia.
      split; [exact E1|]. rewrite E2. reflexivity.
Qed.

Lemma blank_line_eq :
  re_blank_line
  = RSeq (RRep (one 13) 0 (Some 1) true)
         (RSeq (RChar (one 10)) (RSeq (RRep (one 13) 0 (Some 1) true) (RChar (one 10)))).
Proof. reflexivity. Qed.

Lemma blank_line_other p pv c tl :
  c <> 10%N -> c <> 13%N -> match_at no_flags re_blank_line p pv (c :: tl) = None.
Proof.
  intros H10 H13. rewrite blank_line_eq. unfold match_at.
  cbn [rmatch rep rest pos prev caps more_allowed andb]. rewrite !cs_match_one.
  destruct (N.eqb_spec c 13); [contradiction|]. destruct (N.eqb_spec c 10); [contradiction|].
  reflexivity.
Qed.

(** Where the pattern matches, a blank line begins. *)
Lemma blank_line_starts p pv l m :
  match_at no_flags re_blank_line p pv l = Some m ->
  exists tl, l = nl ++ nl ++ tl \/ l = nl ++ 13%N :: nl ++ tl
             \/ l = 13%N :: nl ++ nl ++ tl \/ l = 13%N :: nl ++ 13%N :: nl ++ tl.
Proof.
  unfold match_at. rewrite blank_line_eq. unfold nl.
  destruct (rmatch _ _ _ _) as [st|] eqn:E; [|discriminate]. intros _.
  cbn [rmatch rest pos prev caps] in E.
  apply rep_inv in E. destruct E as (w1 & t1 & -> & Hw1 & _ & Hh1 & E).
  cbn [rmatch rest pos prev caps] in E.
  destruct t1 as [|x1 t1]; [discriminate|].
  rewrite cs_match_one in E. destruct (N.eqb_spec x1 10) as [->|]; [|discriminate].
  apply rep_inv in E. destruct E as (w2 & t2 & -> & Hw2 & _ & Hh2 & E).
  cbn [rmatch rest pos prev caps] in E.
  destruct t2 as [|x2 t2]; [discriminate|].
  rewrite cs_match_one in E. destruct (N.eqb_spec x2 10) as [->|]; [|discriminate].
  assert (Hw : forall w, Forall (fun c => cs_match no_flags (one 13) c = true) w ->
               within (Some 1) (length w) -> w = [] \/ w = [13%N]).
  { intros [|c [|c' w]] Hf Hl; [left; reflexivity| |simpl in Hl; lia].
    inversion Hf as [|? ? Hc _]; subst. rewrite cs_match_one in Hc.
    apply N.eqb_eq in Hc. subst c. right; reflexivity. }
  exists t2.
  destruct (Hw w1 Hw1 Hh1) as [-> | ->], (Hw w2 Hw2 Hh2) as [-> | ->]; cbn [app]; auto.
Qed.

Lemma no_blank_line text :
  includes text (nl ++ nl) = false -> includes text (nl ++ 13%N :: nl) = false ->
  never_matches no_flags re_blank_line text.
Proof.
  intros H1 H2 l1 l2 p pv ->.
  destruct (match_at no_flags re_blank_line p pv l2) as [m|] eqn:E; [|reflexivity].
  exfalso. apply blank_line_starts in E. destruct E as (tl & [E|[E|[E|E]]]); subst l2.
  - assert (H : includes (l1 ++ nl ++ nl ++ tl) (nl ++ nl) = true)
      by (apply includes_spec; exists l1, tl; rewrite <- !app_assoc; reflexivity).
    congruence.
  - assert (H : includes (l1 ++ nl ++ 13%N :: nl ++ tl) (nl ++ 13%N :: nl) = true)
      by (apply includes_spec; exists l1, tl; rewrite <- !app_assoc; reflexivity).
    congruence.
  - assert (H : includes (l1 ++ 13%N :: nl ++ nl ++ tl) (nl ++ nl) = true)
      by (apply includes_spec; exists (l1 ++ [13%N]), tl; rewrite <- !app_assoc; reflexivity).
    congruence.
  - assert (H : includes (l1 ++ 13%N :: nl ++ 13%N :: nl ++ tl) (nl ++ 13%N :: nl) = true)
      by (apply includes_spec; exists (l1 ++ [13%N]), tl; rewrite <- !app_assoc; reflexivity).
    congruence.
Qed.

Lemma shifted_result_first d (a1 b1 a2 b2 : option mstate) :
  shifted_result d a1 a2 -> shifted_result d b1 b2 ->
  shifted_result d (match a1 with Some r => Some r | None => b1 end)
                   (match a2 with Some r => Some r | None => b2 end).
Proof. destruct a1, a2; simpl; intros Ha Hb; tauto. Qed.

Lemma rep_shift fl cs greedy d : forall l lo hi p1 p2 pv1 pv2 cp k1 k2,
  p2 = p1 + d ->
  (forall s1 s2, shifted d s1 s2 -> shifted_result d (k1 s1) (k2 s2)) ->
  shifted_result d (rep fl cs greedy lo hi l p1 pv1 cp k1)
                   (rep fl cs greedy lo hi l p2 pv2 cp k2).
Proof.
  induction l as [|c tl IH]; intros lo hi p1 p2 pv1 pv2 cp k1 k2 Hp Hk.
  - assert (Hs : shifted_result d
                   (match lo with 0 => k1 (MState p1 pv1 [] cp) | S _ => None end)
                   (match lo with 0 => k2 (MState p2 pv2 [] cp) | S _ => None end)).
    { destruct lo; [|exact I]. apply Hk. repeat split; auto. }
    cbn [rep]. destruct greedy; [exact Hs|].
    apply shifted_result_first; [exact Hs|exact I].
  - assert (Hs : shifted_result d
                   (match lo with 0 => k1 (MState p1 pv1 (c :: tl) cp) | S _ => None end)
                   (match lo with 0 => k2 (MState p2 pv2 (c :: tl) cp) | S _ => None end)).
    { destruct lo; [|exact I]. apply Hk. repeat split; auto. }
    assert (Hm : shifted_result d
                   (if more_allowed hi && cs_match fl cs c
                    then rep fl cs greedy (Nat.pred lo) (dec_hi hi) tl (S p1) (Some c) cp k1
                    else None)
                   (if more_allowed hi && cs_match fl cs c
                    then rep fl cs greedy (Nat.pred lo) (dec_hi hi) tl (S p2) (Some c) cp k2
                    else None)).
    { destruct (more_allowed hi && cs_match fl cs c); [|exact I].
      apply IH; [lia|exact Hk]. }
    cbn [rep]. destruct greedy; apply shifted_result_first; assumption.
Qed.

(** A pattern without [^] matches in the same way wherever the text
    stands. *)
Lemma rmatch_shift fl d r : no_bol r = true ->
  forall s1 s2 k1 k2,
    shifted d s1 s2 ->
    (forall t1 t2, shifted d t1 t2 -> shifted_result d (k1 t1) (k2 t2)) ->
    shifted_result d (rmatch fl r s1 k1) (rmatch fl r s2 k2).
Proof.
  induction r; cbn [no_bol rmatch]; intros Hn s1 s2 k1 k2 Hs Hk.
  - apply Hk, Hs.
  - destruct Hs as (Hp & Hr & Hc). rewrite Hr, Hc, Hp.
    destruct (rest s1) as [|x tl]; [exact I|].
    destruct (cs_match fl c x); [|exact I]. apply Hk. repeat split; simpl; auto.
  - apply andb_true_iff in Hn. destruct Hn as [N1 N2].
    apply IHr1; [exact N1|exact Hs|]. intros t1 t2 Ht. apply IHr2; assumption.
  - apply andb_true_iff in Hn. destruct Hn as [N1 N2].
    apply shifted_result_first; [apply IHr1|apply IHr2]; assumption.
  - destruct Hs as (Hp & Hr & Hc). rewrite Hr, Hc. apply rep_shift; assumption.
  - apply shifted_result_first; [apply IHr; assumption|apply Hk, Hs].
  - apply IHr; [exact Hn|exact Hs|]. intros t1 t2 Ht. apply Hk.
    destruct Hs as (Hp & Hr & Hc). destruct Ht as (Hp' & Hr' & Hc').
    repeat split; simpl; auto. rewrite Hc', Hr, Hp', Hp.
    replace (pos t1 + d - (pos s1 + d)) with (pos t1 - pos s1) by lia. reflexivity.
  - discriminate.
  - destruct Hs as (Hp & Hr & Hc). unfold at_eol. rewrite Hr.
    destruct (match rest s1 with [] => true | c :: _ => multiline fl && isLineTerminator c end);
      [|exact I].
    apply Hk. repeat split; auto.
Qed.

Lemma match_at_shift fl r p pv pv' l :
  no_bol r = true ->
  match match_at fl r 0 pv l, match_at fl r p pv' l with
  | Some m1, Some m2 => m_end m2 = m_end m1 + p
  | None, None => True
  | _, _ => False
  end.
Proof.
  intros Hn. unfold match_at.
  pose proof (@rmatch_shift fl p r Hn (MState 0 pv l []) (MState p pv' l []) Some Some) as H.
  destruct (rmatch fl r (MState 0 pv l []) Some) as [s1|],
           (rmatch fl r (MState p pv' l []) Some) as [s2|]; cbn [m_end];
    (lapply H; [|repeat split; auto]); intros H'; lapply H'; try (intros t1 t2 Ht; exact Ht);
    simpl; try tauto.
  intros (Hp & _). exact Hp.
Qed.

(** So the pieces of a text do not depend on where it stands. *)
Lemma split_at_shift fl r :
  no_bol r = true -> nonempty r = true ->
  forall n l p pv, length l <= n -> split_at fl r p pv l = split_at fl r 0 None l.
Proof.
  intros Hb Hn. induction n as [|n IH]; intros l p pv Hl.
  - destruct l; [|simpl in Hl; lia]. unfold split_at. cbn [match_all_from].
    destruct (match_at fl r p pv []) as [m|] eqn:E1.
    { apply match_at_bounds in E1. destruct E1 as (_ & _ & Hle & Hlt). specialize (Hlt Hn).
      simpl in Hle. lia. }
    destruct (match_at fl r 0 None []) as [m|] eqn:E2; [|reflexivity].
    apply match_at_bounds in E2. destruct E2 as (_ & _ & Hle & Hlt). specialize (Hlt Hn).
    simpl in Hle. lia.
  - pose proof (@match_at_shift fl r p None pv l Hb) as Hs.
    destruct (match_at fl r 0 None l) as [m1|] eqn:E1,
             (match_at fl r p pv l) as [m2|] eqn:E2; try contradiction.
    + pose proof (match_at_bounds _ _ _ _ _ E1) as (_ & _ & Hle1 & Hlt1). specialize (Hlt1 Hn).
      pose proof (match_at_bounds _ _ _ _ _ E2) as (_ & _ & Hle2 & Hlt2). specialize (Hlt2 Hn).
      rewrite (@split_at_hit _ _ _ _ _ _ E1 Hlt1), (@split_at_hit _ _ _ _ _ _ E2 Hlt2).
      f_equal. replace (m_end m2 - p) with (m_end m1 - 0) by lia.
      assert (Hk : length (skipn (m_end m1 - 0) l) <= n) by (rewrite length_skipn; lia).
      rewrite (IH _ (m_end m2) _ Hk). rewrite (IH _ (m_end m1) _ Hk). reflexivity.
    + destruct l as [|c tl].
      * unfold split_at. cbn [match_all_from]. rewrite E1, E2. reflexivity.
      * rewrite !split_at_miss by assumption.
        rewrite (IH tl (S p)) by (simpl in Hl; lia).
        rewrite (IH tl 1) by (simpl in Hl; lia). reflexivity.
Qed.

Lemma no_match_in_app fl r t1 t2 after :
  no_match_in fl r t1 (t2 ++ after) -> no_match_in fl r t2 after ->
  no_match_in fl r (t1 ++ t2) after.
Proof.
  intros H1 H2 a b p pv E Hb. apply app_eq_app in E.
  destruct E as (l & [[-> ->]|[-> ->]]).
  - rewrite <- app_assoc. destruct l as [|x l].
    + cbn [app]. apply (H2 [] t2); [reflexivity|]. intros ->. apply Hb. reflexivity.
    + apply (H1 a (x :: l)); [reflexivity|discriminate].
  - apply (H2 l b); [reflexivity|exact Hb].
Qed.

Lemma no_match_in_line t after :
  Forall (fun c => c <> 10%N /\ c <> 13%N) t -> no_match_in no_flags re_blank_line t after.
Proof.
  intros Ht a b p pv -> Hb. destruct b as [|c b]; [congruence|].
  apply Forall_app in Ht. destruct Ht as [_ Ht]. inversion Ht as [|? ? [H10 H13] _]; subst.
  cbn [app]. apply blank_line_other; assumption.
Qed.

Lemma no_match_in_eol crlf x tl :
  x <> 10%N -> x <> 13%N -> no_match_in no_flags re_blank_line (eol crlf) (x :: tl).
Proof.
  intros H10 H13 a b p pv E Hb.
  assert (Hc : forall q qv, match_at no_flags re_blank_line q qv (10%N :: x :: tl) = None
                            /\ match_at no_flags re_blank_line q qv (13%N :: 10%N :: x :: tl) = None).
  { intros q qv. rewrite blank_line_eq. unfold match_at.
    cbn [rmatch rep rest pos prev caps more_allowed dec_hi Nat.pred andb]. rewrite !cs_match_one.
    cbn [N.eqb Pos.eqb].
    destruct (N.eqb_spec x 13); [contradiction|]. destruct (N.eqb_spec x 10); [contradiction|].
    split; reflexivity. }
  destruct crlf; cbn [eol] in E.
  - destruct a as [|a0 [|a1 [|a2 a]]]; cbn [app] in E.
    + subst b. apply Hc.
    + injection E as _ <-. apply Hc.
    + injection E as _ _ E. congruence.
    + discriminate.
  - destruct a as [|a0 [|a1 a]]; cbn [app] in E.
    + subst b. apply Hc.
    + injection E as _ E. congruence.
    + discriminate.
Qed.

Lemma no_match_in_lines crlf after : forall lines,
  lines <> [] -> Forall header_line lines ->
  no_match_in no_flags re_blank_line (join (eol crlf) lines) after.
Proof.
  induction lines as [|l lines IH]; intros Hne Hl; [congruence|].
  inversion Hl as [|? ? [Hl1 Hl2] Hls]; subst.
  destruct lines as [|l2 lines].
  - cbn [join]. apply no_match_in_line, Hl2.
  - change (join (eol crlf) (l :: l2 :: lines))
      with (l ++ eol crlf ++ join (eol crlf) (l2 :: lines)).
    apply no_match_in_app; [apply no_match_in_line, Hl2|].
    apply no_match_in_app; [|apply IH; [discriminate|exact Hls]].
    inversion Hls as [|? ? [Hn2 Hc2] _]; subst. destruct l2 as [|x l2]; [congruence|].
    inversion Hc2 as [|? ? [H10 H13] _]; subst.
    destruct lines; cbn [join app]; apply no_match_in_eol; assumption.
Qed.

Lemma blank_line_here crlf p pv body :
  exists m, match_at no_flags re_blank_line p pv (eol crlf ++ eol crlf ++ body) = Some m
            /\ m_end m = p + length (eol crlf ++ eol crlf).
Proof.
  rewrite blank_line_eq. unfold match_at. destruct crlf; cbn [eol app length];
    cbn [rmatch rep rest pos prev caps more_allowed dec_hi Nat.pred andb]; rewrite !cs_match_one;
    cbn [N.eqb Pos.eqb];
    cbn [rmatch rep rest pos prev caps more_allowed dec_hi Nat.pred andb];
    eexists; (split; [reflexivity|cbn [m_end pos]; lia]).
Qed.

(** The pieces of a message: the header lines, then the pieces of what
    follows the first blank line. *)
Lemma split_message crlf lines body :
  lines <> [] -> Forall header_line lines ->
  split no_flags re_blank_line (join (eol crlf) lines ++ eol crlf ++ eol crlf ++ body)
  = join (eol crlf) lines :: split no_flags re_blank_line body.
Proof.
  intros Hne Hl. change (split no_flags re_blank_line) with (split_at no_flags re_blank_line 0 None).
  destruct (@split_at_skip no_flags re_blank_line (join (eol crlf) lines) 0 None
              (eol crlf ++ eol crlf ++ body)) as (x & xs & E1 & E2).
  { intros a b p' pv' E Hb. eapply no_match_in_lines; eauto. }
  rewrite E2.
  destruct (blank_line_here crlf (0 + length (join (eol crlf) lines))
              (last_read None (join (eol crlf) lines)) body) as (m & Hm & He).
  rewrite (@split_at_hit _ _ _ _ _ _ Hm) in E1 by (rewrite He, length_app; destruct crlf; simpl; lia).
  rewrite He in E1.
  replace (0 + length (join (eol crlf) lines) + length (eol crlf ++ eol crlf)
           - (0 + length (join (eol crlf) lines)))
    with (length (eol crlf ++ eol crlf)) in E1 by lia.
  rewrite app_assoc, skipn_app, skipn_all, Nat.sub_diag in E1. cbn [app skipn] in E1.
  rewrite (@split_at_shift no_flags re_blank_line eq_refl eq_refl (length body)) in E1
    by reflexivity.
  injection E1 as <- <-. rewrite app_nil_r. reflexivity.
Qed.

Lemma split_cons fl r s : exists x xs, split fl r s = x :: xs.
Proof.
  unfold split. destruct (match_all fl r s) as [|m ms]; cbn [split_from]; eauto.
Qed.

Lemma includes_occurs v s p : occurs_in v s -> includes s p = false -> includes v p = false.
Proof.
  intros Hv Hs. destruct (includes v p) eqn:E; [|reflexivity].
  apply includes_spec in E. assert (H : includes s p = true).
  { apply includes_spec. eapply occurs_in_trans; eauto. }
  congruence.
Qed.

(** X3. [extractEmailBody] returns a raw message that holds no empty line
    as it is.  For header lines, an empty line and a body, with LF or with
    CR LF line ends, in a message that holds neither the word multipart
    nor a quoted-printable or base64 transfer encoding line, it returns the
    body with every empty-line separator written as two LF; that is the
    body itself when the body holds no empty line. *)
Theorem extractEmailBody_plain (toLowerCase : jsstr -> jsstr) :
  (forall rawEmail,
     includes rawEmail (nl ++ nl) = false ->
     includes rawEmail (nl ++ 13%N :: nl) = false ->
     extractEmailBody toLowerCase rawEmail = rawEmail)
  /\ (forall crlf lines body,
        lines <> [] -> Forall header_line lines ->
        let rawEmail := join (eol crlf) lines ++ eol crlf ++ eol crlf ++ body in
        includes rawEmail (js "multipart") = false ->
        includes rawEmail (js "Content-Transfer-Encoding: quoted-printable") = false ->
        includes rawEmail (js "Content-Transfer-Encoding: base64") = false ->
        extractEmailBody toLowerCase rawEmail
        = join (nl ++ nl) (split no_flags re_blank_line body)
        /\ (includes body (nl ++ nl) = false ->
            includes body (nl ++ 13%N :: nl) = false ->
            extractEmailBody toLowerCase rawEmail = body)).
Proof.
  split.
  - intros rawEmail H1 H2. unfold extractEmailBody.
    rewrite split_never by (apply no_blank_line; assumption). reflexivity.
  - intros crlf lines body Hne Hl rawEmail Hm Hq Hb.
    assert (E : extractEmailBody toLowerCase rawEmail
                = join (nl ++ nl) (split no_flags re_blank_line body)).
    { unfold extractEmailBody. unfold rawEmail at 1. rewrite split_message by assumption.
      destruct (split_cons no_flags re_blank_line body) as (x & xs & ->).
      assert (Hc : includes (or_empty (extractHeader rawEmail "Content-Type")) (js "multipart")
                   = false).
      { destruct (extractHeader rawEmail "Content-Type") as [v|] eqn:Ev; [|reflexivity].
        cbn [or_empty]. eapply includes_occurs; [|exact Hm].
        eapply extractHeader_sound, Ev. }
      rewrite Hc, Hq, Hb. reflexivity. }
    split; [exact E|]. intros H1 H2. rewrite E.
    rewrite split_never by (apply no_blank_line; assumption). reflexivity.
Qed.

(** ** The category of the records *)

Lemma categorizeWithAI_valid toLowerCase AI_run counterparty description subject type :
  In (categorizeWithAI toLowerCase AI_run counterparty description subject type)
     VALID_CATEGORIES.
Proof.
  unfold categorizeWithAI. destruct (category_context _);
    [vm_compute; tauto|apply category_of_answer_valid].
Qed.

Lemma legacy_categorizeWithAI_valid toLowerCase AI_run counterparty description subject :
  In (legacy_categorizeWithAI toLowerCase AI_run counterparty description subject)
     VALID_CATEGORIES.
Proof.
  unfold legacy_categorizeWithAI. destruct (category_context _);
    [vm_compute; tauto|apply category_of_answer_valid].
Qed.

(** X15. Every transaction record of the multi-institution worker
    carries one of the nine categories.  In the legacy worker a record
    whose type is one of the money-out types carries one of the nine, and
    a record of any other type carries none; the money-in types and
    unknown are not money-out types. *)
Theorem records_categories (toLowerCase : jsstr -> jsstr)
    (AI_run : jsstr -> nat -> ai_result) (backend : record -> option jsstr) (now : jsstr)
    (msg : message) :
  Forall categorised (posted (email toLowerCase AI_run backend now msg))
  /\ Forall legacy_categorised (posted (legacy_email toLowerCase AI_run backend now msg))
  /\ (forall type, In type incomeTypes \/ type = unknown ->
                   arr_includes expenseTypes type = false).
Proof.
  assert (Hrep : forall (P : record -> Prop) data, P data -> (forall err, P (RecWorkerError err)) ->
            Forall P (data :: match backend data with
                              | Some err => [RecWorkerError err]
                              | None => []
                              end)).
  { intros P data Hd He. constructor; [exact Hd|].
    destruct (backend data); repeat constructor. apply He. }
  split; [|split].
  - rewrite email_cases.
    destruct (extractUserId toLowerCase (msg_to msg)) as [userId|]; [|constructor].
    destruct (msg_raw msg) as [rawEmail|err]; [|repeat constructor].
    cbv zeta. destruct (is_gmail_verification (msg_from msg)); [constructor|].
    destruct (identifyInstitution toLowerCase (msg_from msg)) as [inst|]; [|constructor].
    apply Hrep; [|intros; exact I].
    destruct (i_type _); [|exact I]. destruct (no_amount _); [exact I|].
    cbn [categorised]. eexists. split; [reflexivity|apply categorizeWithAI_valid].
  - rewrite legacy_email_cases.
    destruct (extractUserId toLowerCase (msg_to msg)) as [userId|]; [|constructor].
    destruct (msg_raw msg) as [rawEmail|err]; [|repeat constructor].
    cbv zeta. destruct (is_gmail_verification (msg_from msg)); [constructor|].
    apply Hrep; [|intros; exact I].
    destruct (negb _); [exact I|]. destruct (no_amount _); [exact I|].
    cbn [legacy_categorised]. destruct (arr_includes expenseTypes _); [|reflexivity].
    eexists. split; [reflexivity|apply legacy_categorizeWithAI_valid].
  - intros type [H| ->]; [|vm_compute; reflexivity].
    unfold incomeTypes in H. cbn [map In] in H.
    repeat (destruct H as [<-|H]; [vm_compute; reflexivity|]). destruct H.
Qed.

(** ** The confirmation code of a forwarding request *)

(** What the matcher reads is a string of the pattern, and each capture
    it adds is a string of one of the groups. *)
Lemma rmatch_fits fl r : forall st k res,
  rmatch fl r st k = Some res ->
  exists w st', rest st = w ++ rest st' /\ pos st' = pos st + length w
                /\ fits fl r w
                /\ (exists more, caps st' = more ++ caps st
                                 /\ Forall (fun e => group_fits fl r (snd e)) more)
                /\ k st' = Some res.
Proof.
  induction r; cbn [rmatch fits group_fits]; intros st k res H.
  - exists [], st. simpl. rewrite Nat.add_0_r. repeat split; auto. exists []. auto.
  - destruct (rest st) as [|x tl] eqn:E; [discriminate|].
    destruct (cs_match fl c x) eqn:Ec; [|discriminate].
    exists [x], (MState (S (pos st)) (Some x) tl (caps st)). simpl.
    repeat split; eauto; [lia|]. exists []. auto.
  - apply IHr1 in H. destruct H as (w1 & st1 & E1 & L1 & F1 & (m1 & C1 & G1) & H1).
    apply IHr2 in H1. destruct H1 as (w2 & st2 & E2 & L2 & F2 & (m2 & C2 & G2) & H2).
    exists (w1 ++ w2), st2. rewrite E1, E2, L2, L1, length_app, <- app_assoc.
    repeat split; eauto; [lia|].
    exists (m2 ++ m1). rewrite C2, C1, app_assoc. split; [reflexivity|].
    apply Forall_app. split; (eapply Forall_impl; [|eassumption]); simpl; auto.
  - destruct (rmatch fl r1 st k) eqn:E1.
    + inversion H; subst. apply IHr1 in E1.
      destruct E1 as (w & st' & E & L & F & (m & C & G) & Hk).
      exists w, st'. repeat split; auto. exists m. split; [exact C|].
      eapply Forall_impl; [|exact G]. simpl; auto.
    + apply IHr2 in H. destruct H as (w & st' & E & L & F & (m & C & G) & Hk).
      exists w, st'. repeat split; auto. exists m. split; [exact C|].
      eapply Forall_impl; [|exact G]. simpl; auto.
  - apply rep_inv in H. destruct H as (w & tl & E & Hw & Hlo & Hhi & Hk).
    exists w, (MState (pos st + length w) (last_read (prev st) w) tl (caps st)). simpl.
    repeat split; auto. exists []. auto.
  - destruct (rmatch fl r st k) eqn:E1.
    + inversion H; subst. apply IHr in E1.
      destruct E1 as (w & st' & E & L & F & C & Hk). exists w, st'. repeat split; auto.
    + exists [], st. simpl. rewrite Nat.add_0_r. repeat split; auto. exists []. auto.
  - apply IHr in H. destruct H as (w & st' & E & L & F & (m & C & G) & Hk).
    eexists w, _. split; [|split; [|split; [exact F|split; [|exact Hk]]]]; simpl; auto.
    exists ((n, firstn (pos st' - pos st) (rest st)) :: m). rewrite C. split; [reflexivity|].
    constructor.
    + simpl. left. rewrite L, E. rewrite firstn_exact by lia. exact F.
    + eapply Forall_impl; [|exact G]. simpl; auto.
  - destruct (at_bol fl st); [|discriminate].
    exists [], st. simpl. rewrite Nat.add_0_r. repeat split; auto. exists []. auto.
  - destruct (at_eol fl st); [|discriminate].
    exists [], st. simpl. rewrite Nat.add_0_r. repeat split; auto. exists []. auto.
Qed.

Lemma capture_fits fl r s m :
  str_match fl r s = Some m -> group 1 m <> None -> group_fits fl r (capture1 m).
Proof.
  intros H Hg. unfold str_match in H. apply search_some in H.
  destruct H as (l1 & l2 & pv' & _ & H). unfold match_at in H.
  destruct (rmatch fl r _ Some) as [st|] eqn:E; [|discriminate]. injection H as <-.
  apply rmatch_fits in E. destruct E as (w & st' & _ & _ & _ & (more & C & G) & [= ->]).
  cbn [caps] in C. rewrite app_nil_r in C. subst more.
  unfold capture1, group in *. cbn [m_caps] in *.
  destruct (find _ (caps st)) as [e|] eqn:Ef; [|congruence].
  apply find_some in Ef. destruct Ef as [Hin _].
  rewrite Forall_forall in G. apply G, Hin.
Qed.

Lemma nine_digits_fit fl w : fits fl (exactly 9 cs_digit) w -> nine_digits w.
Proof.
  cbn [exactly fits within]. intros (Hlo & Hhi & Hw). split; [lia|].
  eapply Forall_impl; [|exact Hw]. intros c. apply cs_match_digit_i.
Qed.

Lemma group_fits_lit fl w : forall s, ~ group_fits fl (lit_units s) w.
Proof.
  induction s as [|c [|d s] IH]; cbn [lit_units group_fits]; auto.
  intros [H|H]; [exact H|]. apply IH, H.
Qed.

Lemma code_patterns_groups fl r w :
  In (fl, r) codePatterns -> group_fits fl r w -> nine_digits w.
Proof.
  unfold codePatterns. cbn [In].
  intros [[= <- <-]|[[= <- <-]|[[= <- <-]|[[= <- <-]|[]]]]];
    cbn [rseq]; intros H;
    repeat match goal with
    | H : _ \/ _ |- _ => destruct H as [H|H]
    | H : False |- _ => destruct H
    | H : group_fits _ (lit _) _ |- _ => apply group_fits_lit in H; destruct H
    | H : group_fits _ (plus _) _ |- _ => destruct H
    | H : group_fits _ (exactly _ _) _ |- _ => destruct H
    | H : group_fits _ _ _ |- _ => progress cbn [group_fits] in H
    end; eapply nine_digits_fit; eassumption.
Qed.

Lemma ends_with_group_caps fl r : ends_with_group r = true ->
  forall st res, rmatch fl r st Some = Some res -> exists w tl, caps res = (1, w) :: tl.
Proof.
  induction r; cbn [ends_with_group]; try discriminate; intros He st res H.
  - cbn [rmatch] in H. apply rmatch_reads in H. destruct H as (_ & st' & _ & _ & H).
    eapply IHr2; eauto.
  - destruct n as [|[|n]]; try discriminate. cbn [rmatch] in H.
    apply rmatch_reads in H. destruct H as (_ & st' & _ & _ & [= <-]). cbn [caps]. eauto.
Qed.

Lemma code_patterns_capture fl r s m :
  In (fl, r) codePatterns -> str_match fl r s = Some m -> group 1 m <> None.
Proof.
  intros Hin H. unfold str_match in H. apply search_some in H.
  destruct H as (l1 & l2 & pv' & _ & H). unfold match_at in H.
  destruct (rmatch fl r _ Some) as [st|] eqn:E; [|discriminate]. injection H as <-.
  assert (He : ends_with_group r = true).
  { unfold codePatterns in Hin. cbn [In] in Hin.
    destruct Hin as [[= <- <-]|[[= <- <-]|[[= <- <-]|[[= <- <-]|[]]]]]; reflexivity. }
  destruct (@ends_with_group_caps fl r He _ _ E) as (w & tl & Hc).
  unfold group. cbn [m_caps]. rewrite Hc. cbn [find fst Nat.eqb]. discriminate.
Qed.

Lemma search_complete fl r : forall a b p pv,
  match_at fl r (p + length a) (last_read pv a) b <> None ->
  search fl r p pv (a ++ b) <> None.
Proof.
  induction a as [|c a IH]; intros b p pv H.
  - cbn [app length last_read fold_left] in *. rewrite Nat.add_0_r in H. apply search_hit, H.
  - cbn [app search]. destruct (match_at fl r p pv (c :: a ++ b)); [discriminate|].
    apply IH. cbn [length last_read fold_left] in H.
    replace (S p + length a) with (p + S (length a)) by lia. exact H.
Qed.

Lemma nine_digits_match p pv d tl :
  nine_digits d ->
  match_at no_flags (RGroup 1 (exactly 9 cs_digit)) p pv (d ++ tl) <> None.
Proof.
  intros [Hl Hd]. unfold match_at, exactly. cbn [rmatch rest pos prev caps].
  rewrite <- Hl. erewrite rep_greedy_full; [discriminate| | |reflexivity].
  - eapply Forall_impl; [|exact Hd]. intros c Hc. rewrite cs_match_digit. exact Hc.
  - lia.
Qed.

Lemma find_code_sound fullContent : forall patterns code,
  (forall fl r, In (fl, r) patterns -> In (fl, r) codePatterns) ->
  find_code fullContent patterns = Some code ->
  nine_digits code /\ occurs_in code fullContent.
Proof.
  induction patterns as [|[fl r] ps IH]; intros code Hp; cbn [find_code]; [discriminate|].
  destruct (str_match fl r fullContent) as [m|] eqn:E.
  - intros [= <-]. split; [|eapply capture_occurs, E].
    apply (@code_patterns_groups fl r); [apply Hp; left; reflexivity|].
    apply (@capture_fits fl r fullContent m E).
    eapply code_patterns_capture; [|exact E]. apply Hp. left; reflexivity.
  - apply IH. intros fl' r' Hin. apply Hp. right. exact Hin.
Qed.

Lemma find_code_complete fullContent d :
  nine_digits d -> occurs_in d fullContent -> find_code fullContent codePatterns <> None.
Proof.
  intros Hd (a & b & ->). unfold codePatterns. cbn [find_code].
  repeat match goal with
  | |- context [str_match ?fl ?r ?s] =>
      destruct (str_match fl r s) eqn:?; [discriminate|]
  end.
  exfalso.
  match goal with
  | H : str_match no_flags _ _ = None |- _ => revert H
  end.
  unfold str_match. apply search_complete. apply nine_digits_match, Hd.
Qed.

Lemma find_verification_filter l :
  Forall (fun link => is_verify_link link = true) (filter is_verify_link l).
Proof. apply Forall_forall. intros x Hx. apply filter_In in Hx. apply Hx. Qed.

(** X14. [handleGmailVerification] returns true exactly when the body, a
    space and the raw message hold nine decimal digits in a row; the code
    it then logs is nine decimal digits of that text.  Otherwise every link
    it fetches holds vf-, confirm or verify. *)
Theorem handleGmailVerification_code (body rawEmail : jsstr) :
  let fullContent := body ++ js " " ++ rawEmail in
  let outcome := handleGmailVerification body rawEmail in
  (verified outcome = true <-> exists d, nine_digits d /\ occurs_in d fullContent)
  /\ (forall code, outcome = CodeLogged code ->
                   nine_digits code /\ occurs_in code fullContent)
  /\ (forall links, outcome = LinksFetched links ->
                    Forall (fun link => is_verify_link link = true) links).
Proof.
  cbv zeta. unfold handleGmailVerification.
  destruct (find_code (body ++ js " " ++ rawEmail) codePatterns) as [code|] eqn:E.
  - pose proof (@find_code_sound _ codePatterns code (fun fl r H => H) E) as Hs.
    split; [|split].
    + split; [intros _; exists code; exact Hs|reflexivity].
    + intros c [= <-]. exact Hs.
    + discriminate.
  - split; [|split].
    + split; [discriminate|]. intros (d & Hd & Ho).
      exfalso. exact (find_code_complete Hd Ho E).
    + discriminate.
    + intros links [= <-]. apply find_verification_filter.
Qed.

(** ** What the handlers send *)

Lemma extractAmount_value text : nonneg_value (extractAmount text).
Proof.
  destruct (extractAmount_fuel_enough text 0) as [_ ->].
  destruct (@fold_pick_max (amount_candidates text) zero eq_refl) as (_ & _ & _ & [E|Hin]).
  - apply Forall_forall. intros c Hc. apply amount_candidates_nonneg in Hc.
    destruct Hc as [->|(v & -> & _)]; reflexivity.
  - rewrite E. right. exists 0%Q. split; [reflexivity|]. apply Qle_refl.
  - apply amount_candidates_nonneg in Hin. exact Hin.
Qed.

(** The test [!amount || amount <= 0] lets through the values above 0,
    [Infinity] among them. *)
Lemma amount_present text :
  no_amount (extractAmount text) = false ->
  extractAmount text = PosInf \/ exists q, extractAmount text = Fin q /\ (0 < q)%Q.
Proof.
  destruct (extractAmount_value text) as [->|(v & -> & Hv)]; [left; reflexivity|right].
  unfold no_amount in H. cbn [falsy le zero] in H.
  apply orb_false_iff in H. destruct H as [_ H].
  exists (Qred v). split; [reflexivity|].
  apply Qnot_le_lt. intros Hle. apply Qle_bool_iff in Hle. congruence.
Qed.

Lemma keyword_type_valid subjectLower bodyLower :
  In (keyword_type subjectLower bodyLower) VALID_TRANSACTION_TYPES
  \/ keyword_type subjectLower bodyLower = unknown.
Proof.
  rewrite keyword_type_rules. unfold first_rule_type.
  destruct (find _ type_rules) as [r|] eqn:E; [|right; reflexivity].
  apply find_some in E. left. apply type_rules_types, E.
Qed.

Lemma detected_type_valid toLowerCase AI_run subject bodyPreview t :
  detectTransactionTypeWithAI toLowerCase AI_run subject bodyPreview = Some t ->
  In t VALID_TRANSACTION_TYPES.
Proof.
  unfold detectTransactionTypeWithAI.
  destruct (AI_run _ _) as [| |r]; try discriminate.
  destruct (clean_answer toLowerCase "_" (AiText r)) as [ty|]; [|discriminate].
  destruct (arr_includes VALID_TRANSACTION_TYPES ty) eqn:E; [|discriminate].
  intros [= <-]. apply arr_includes_In, E.
Qed.

(** X8. Every transaction record either worker sends to the backend has
    an amount above 0, the currency ARS, a type of
    [VALID_TRANSACTION_TYPES] or unknown, and no description, whatever
    the message, the classifier and the backend do.  The amount is a
    finite value or [Infinity], which the test of the handlers lets
    through; it is never 0, negative or [NaN]. *)
Theorem transactions_sent_are_sound (toLowerCase : jsstr -> jsstr)
    (AI_run : jsstr -> nat -> ai_result) (backend : record -> option jsstr) (now : jsstr)
    (msg : message) :
  Forall sound_transaction (posted (email toLowerCase AI_run backend now msg))
  /\ Forall sound_transaction (posted (legacy_email toLowerCase AI_run backend now msg)).
Proof.
  assert (Hrep : forall data, sound_transaction data ->
            Forall sound_transaction
              (data :: match backend data with
                       | Some err => [RecWorkerError err]
                       | None => []
                       end)).
  { intros data Hd. constructor; [exact Hd|].
    destruct (backend data); repeat constructor. }
  split.
  - rewrite email_cases.
    destruct (extractUserId toLowerCase (msg_to msg)) as [userId|]; [|constructor].
    destruct (msg_raw msg) as [rawEmail|err]; [|repeat constructor].
    cbv zeta. destruct (is_gmail_verification (msg_from msg)); [constructor|].
    destruct (identifyInstitution toLowerCase (msg_from msg)) as [inst|]; [|constructor].
    apply Hrep.
    destruct (i_type _); [|exact I].
    destruct (no_amount _) eqn:Ea; [exact I|].
    cbn [sound_transaction]. unfold parseTransaction in *. cbn [p_amount p_currency p_type p_description] in *.
    split; [apply amount_present, Ea|]. split; [reflexivity|]. split; [|reflexivity].
    destruct (detectTransactionTypeWithAI _ _ _ _) as [t|] eqn:Et.
    + left. eapply detected_type_valid, Et.
    + apply keyword_type_valid.
  - rewrite legacy_email_cases.
    destruct (extractUserId toLowerCase (msg_to msg)) as [userId|]; [|constructor].
    destruct (msg_raw msg) as [rawEmail|err]; [|repeat constructor].
    cbv zeta. destruct (is_gmail_verification (msg_from msg)); [constructor|].
    apply Hrep.
    destruct (negb _); [exact I|].
    destruct (no_amount _) eqn:Ea; [exact I|].
    cbn [sound_transaction]. unfold legacy_parseTransaction in *.
    cbn [p_amount p_currency p_type p_description] in *.
    split; [apply amount_present, Ea|]. split; [reflexivity|]. split; [|reflexivity].
    apply keyword_type_valid.
Qed.

(** X9. One run of either handler sends nothing, or the report of a
    content stream that failed, or one data record followed by a
    worker_error record exactly when the backend refuses that record: at
    most two requests.  For a recipient address that is not a user address
    the handlers do nothing at all. *)
Theorem handlers_send_one_report (toLowerCase : jsstr -> jsstr)
    (AI_run : jsstr -> nat -> ai_result) (backend : record -> option jsstr) (now : jsstr)
    (msg : message) :
  one_report backend (msg_raw msg) (posted (email toLowerCase AI_run backend now msg))
  /\ one_report backend (msg_raw msg)
                (posted (legacy_email toLowerCase AI_run backend now msg))
  /\ (extractUserId toLowerCase (msg_to msg) = None ->
      email toLowerCase AI_run backend now msg = []
      /\ legacy_email toLowerCase AI_run backend now msg = [])
  /\ length (email toLowerCase AI_run backend now msg) <= 2
  /\ length (legacy_email toLowerCase AI_run backend now msg) <= 2.
Proof.
  assert (Hlen : forall data,
            length (fst (try_catch (sendToBackend backend data) (report_error backend))) <= 2).
  { intros data. unfold sendToBackend, report_error, try_catch.
    destruct (backend data) as [err|]; [|simpl; lia].
    cbn. destruct (backend (RecWorkerError err)); simpl; lia. }
  split; [|split; [|split; [|split]]].
  - rewrite email_cases.
    destruct (extractUserId toLowerCase (msg_to msg)) as [userId|]; [|left; reflexivity].
    destruct (msg_raw msg) as [rawEmail|err]; [|right; left; eauto].
    cbv zeta. destruct (is_gmail_verification (msg_from msg)); [left; reflexivity|].
    destruct (identifyInstitution toLowerCase (msg_from msg)) as [inst|]; [|left; reflexivity].
    right; right. eexists. split; [|reflexivity].
    intros err. destruct (i_type _); [|discriminate]. destruct (no_amount _); discriminate.
  - rewrite legacy_email_cases.
    destruct (extractUserId toLowerCase (msg_to msg)) as [userId|]; [|left; reflexivity].
    destruct (msg_raw msg) as [rawEmail|err]; [|right; left; eauto].
    cbv zeta. destruct (is_gmail_verification (msg_from msg)); [left; reflexivity|].
    right; right. eexists. split; [|reflexivity].
    intros err. destruct (negb _); [discriminate|]. destruct (no_amount _); discriminate.
  - intros Hu. unfold email, email_try, legacy_email, legacy_email_try. rewrite Hu.
    split; reflexivity.
  - unfold email, email_try.
    destruct (extractUserId toLowerCase (msg_to msg)) as [userId|]; [|simpl; lia].
    destruct (msg_raw msg) as [rawEmail|err].
    + cbn [streamToString]. rewrite bind_ret_l.
      destruct (is_gmail_verification (msg_from msg)); [simpl; lia|].
      destruct (identifyInstitution toLowerCase (msg_from msg)) as [inst|]; [|simpl; lia].
      cbv zeta. destruct (i_type _); [|apply Hlen]. destruct (no_amount _); apply Hlen.
    + cbn. destruct (backend (RecWorkerError err)); simpl; lia.
  - unfold legacy_email, legacy_email_try.
    destruct (extractUserId toLowerCase (msg_to msg)) as [userId|]; [|simpl; lia].
    destruct (msg_raw msg) as [rawEmail|err].
    + cbn [streamToString]. rewrite bind_ret_l.
      destruct (is_gmail_verification (msg_from msg)); [simpl; lia|].
      cbv zeta. destruct (negb _); [apply Hlen|]. destruct (no_amount _); apply Hlen.
    + cbn. destruct (backend (RecWorkerError err)); simpl; lia.
Qed.

Lemma includes_suffix s a b : includes s (a ++ b) = true -> includes s b = true.
Proof.
  induction s as [|c s IH]; cbn [includes]; intros H.
  - apply orb_true_iff in H. destruct H as [H|H]; [|discriminate].
    apply startsWith_spec in H. destruct H as (tl & E).
    symmetry in E. apply app_eq_nil in E. destruct E as [E _].
    apply app_eq_nil in E. destruct E as [_ ->]. reflexivity.
  - apply orb_true_iff in H. apply orb_true_iff. destruct H as [H|H]; [|right; apply IH, H].
    apply startsWith_spec in H. destruct H as (tl & E).
    clear IH. revert c s E. induction a as [|x a IHa]; intros c s E.
    + left. apply startsWith_spec. exists tl. exact E.
    + simpl in E. injection E as -> E. right.
      destruct s as [|c' s'].
      * symmetry in E. apply app_eq_nil in E. destruct E as [E _].
        apply app_eq_nil in E. destruct E as [_ ->]. reflexivity.
      * cbn [includes]. apply orb_true_iff. apply IHa. exact E.
Qed.

Lemma find_verification_link_verifies fullContent : forall patterns l,
  find_verification_link fullContent patterns = Some l -> is_verify_link l = true.
Proof.
  induction patterns as [|pattern patterns IH]; intros l; simpl; [discriminate|].
  destruct (filter is_verify_link _) as [|link links] eqn:E.
  - apply IH.
  - intros [= <-].
    assert (Hin : In link (link :: links)) by (left; reflexivity).
    rewrite <- E in Hin. apply filter_In in Hin. apply Hin.
Qed.

(** X10. A message to a user address whose sender holds
    noreply@google.com and whose content is read without error is, in
    both workers, forwarded once to the
    verification endpoint with the user id, the subject, the body and
    the verification link found, and nothing else is sent; the link,
    when there is one, holds vf-, confirm or verify. *)
Theorem gmail_confirmation_forwarded (toLowerCase : jsstr -> jsstr)
    (AI_run : jsstr -> nat -> ai_result) (backend : record -> option jsstr) (now : jsstr)
    (msg : message) (userId rawEmail : jsstr) :
  extractUserId toLowerCase (msg_to msg) = Some userId ->
  msg_raw msg = StreamText rawEmail ->
  includes (msg_from msg) (js "noreply@google.com") = true ->
  let emailBody := extractEmailBody toLowerCase rawEmail in
  let subject := or_empty (extractHeader rawEmail "Subject") in
  let link := find_verification_link (emailBody ++ js " " ++ rawEmail) linkPatterns in
  email toLowerCase AI_run backend now msg = [Forwarded userId subject emailBody link]
  /\ legacy_email toLowerCase AI_run backend now msg
     = [Forwarded userId subject emailBody link]
  /\ (forall l, link = Some l -> is_verify_link l = true)
  /\ (forall from, is_gmail_verification from = includes from (js "noreply@google.com")).
Proof.
  intros Hu Hraw Hfrom emailBody subject link.
  assert (Hg : forall from, is_gmail_verification from = includes from (js "noreply@google.com")).
  { intros from. unfold is_gmail_verification.
    destruct (includes from (js "forwarding-noreply@google.com")) eqn:E; [|reflexivity].
    symmetry. apply (@includes_suffix from (js "forwarding-")). exact E. }
  split; [|split; [|split; [|exact Hg]]].
  - unfold email, email_try. rewrite Hu, Hraw. cbn [streamToString]. rewrite bind_ret_l.
    rewrite Hg, Hfrom. reflexivity.
  - unfold legacy_email, legacy_email_try. rewrite Hu, Hraw. cbn [streamToString].
    rewrite bind_ret_l. rewrite Hg, Hfrom. reflexivity.
  - intros l Hl. eapply find_verification_link_verifies, Hl.
Qed.

(** X11. A sender found on a marketing list of the registry is always
    classified promotional, whatever the subject and the text say, and
    the multi-institution handler never parses its message: it sends
    neither a transaction nor a parse_failed record. *)
Theorem marketing_sender_never_parsed (toLowerCase : jsstr -> jsstr)
    (AI_run : jsstr -> nat -> ai_result) (backend : record -> option jsstr) (now : jsstr)
    (msg : message) (inst : sender_match) :
  identifyInstitution toLowerCase (msg_from msg) = Some inst ->
  isMarketing inst = true ->
  (forall subject bodyPreview,
     i_type (classifyEmailIntent toLowerCase AI_run inst subject bodyPreview) = promotional)
  /\ Forall (fun r => taken_as_transaction r = false)
            (posted (email toLowerCase AI_run backend now msg)).
Proof.
  intros Hid Hm.
  assert (Hp : forall subject bodyPreview,
     i_type (classifyEmailIntent toLowerCase AI_run inst subject bodyPreview) = promotional).
  { intros subject bodyPreview. unfold classifyEmailIntent.
    destruct (first_keyword _ PROMOTIONAL_KEYWORDS); [reflexivity|].
    rewrite Hm. reflexivity. }
  split; [exact Hp|].
  rewrite email_cases, Hid.
  destruct (extractUserId toLowerCase (msg_to msg)) as [userId|]; [|constructor].
  destruct (msg_raw msg) as [rawEmail|err]; [|repeat constructor].
  cbv zeta. destruct (is_gmail_verification (msg_from msg)); [constructor|].
  rewrite Hp. constructor; [reflexivity|].
  destruct (backend _); repeat constructor.
Qed.

(** ** The registry *)

Lemma last_at_suffix s : exists pre, s = pre ++ last_at s.
Proof.
  induction s as [|c s (pre & IH)]; [exists []; reflexivity|]. cbn [last_at].
  destruct (last_at s) as [|x t] eqn:E.
  - destruct (c =? 64)%N; [exists []; reflexivity|]. exists (c :: s). rewrite app_nil_r. reflexivity.
  - exists (c :: pre). rewrite IH at 1. reflexivity.
Qed.

Lemma last_at_app pre e : last_at e <> [] -> last_at (pre ++ e) = last_at e.
Proof.
  intros He. induction pre as [|c pre IH]; [reflexivity|].
  cbn [app last_at]. rewrite IH. destruct (last_at e); [congruence|reflexivity].
Qed.

Lemma entry_by_tail_ok email e b :
  entry_by_tail (last_at email) e = Some b -> sender_entry_matches email e = b.
Proof.
  unfold entry_by_tail, sender_entry_matches.
  destruct (startsWith e (js "@")) eqn:Es.
  - destruct (str_eqb (last_at e) e) eqn:El; [|discriminate]. intros [= <-].
    apply str_eqb_eq in El.
    assert (Hne : last_at e <> []).
    { rewrite El. intros ->. discriminate Es. }
    destruct (endsWith email e) eqn:Ee.
    + apply endsWith_spec in Ee. destruct Ee as (pre & ->).
      rewrite last_at_app by exact Hne. rewrite El. symmetry. apply str_eqb_eq. reflexivity.
    + destruct (str_eqb (last_at email) e) eqn:Et; [|reflexivity].
      apply str_eqb_eq in Et. destruct (last_at_suffix email) as (pre & E).
      rewrite Et in E.
      assert (Ht : endsWith email e = true) by (apply endsWith_spec; eauto). congruence.
  - destruct (last_at e) as [|x te] eqn:El; [discriminate|].
    destruct (str_eqb (x :: te) (last_at email)) eqn:Et; [discriminate|]. intros [= <-].
    destruct (str_eqb email e) eqn:Ee; [|reflexivity].
    apply str_eqb_eq in Ee. subst e. rewrite El in Et.
    rewrite (proj2 (str_eqb_eq _ _) eq_refl) in Et. discriminate.
Qed.

Lemma any_by_tail_ok email : forall domains b,
  any_by_tail (last_at email) domains = Some b -> any_domain_matches email domains = b.
Proof.
  induction domains as [|d ds IH]; intros b; cbn [any_by_tail any_domain_matches].
  - intros [= <-]. reflexivity.
  - destruct (entry_by_tail (last_at email) d) as [[|]|] eqn:E; try discriminate;
      rewrite (entry_by_tail_ok _ _ E).
    + intros [= <-]. reflexivity.
    + apply IH.
Qed.

Lemma identify_by_tail_ok email : forall registry res,
  identify_by_tail (last_at email) registry = Some res -> identify_in email registry = res.
Proof.
  induction registry as [|inst reg IH]; intros res; cbn [identify_by_tail identify_in].
  - intros [= <-]. reflexivity.
  - destruct (any_by_tail (last_at email) (transactionalDomains inst)) as [[|]|] eqn:E1;
      try discriminate; rewrite (any_by_tail_ok _ _ E1).
    + intros [= <-]. reflexivity.
    + destruct (any_by_tail (last_at email) (marketingDomains inst)) as [[|]|] eqn:E2;
        try discriminate; rewrite (any_by_tail_ok _ _ E2).
      * intros [= <-]. reflexivity.
      * apply IH.
Qed.

Lemma registry_checked :
  Forall (fun inst => forall marketing,
            Forall (entry_reaches inst marketing) (entries marketing inst))
         FINANCIAL_INSTITUTIONS.
Proof.
  unfold FINANCIAL_INSTITUTIONS.
  repeat (apply Forall_cons;
          [intros [|]; unfold entries, mk_inst; cbn [marketingDomains transactionalDomains map];
           repeat (apply Forall_cons;
                   [vm_compute; repeat split; (reflexivity || discriminate)|]);
           apply Forall_nil|]).
  apply Forall_nil.
Qed.

(** X7. No entry of the registry is shadowed by another one: for every
    institution of [FINANCIAL_INSTITUTIONS] and every entry of its
    transactional or marketing list, a sender whose address is the entry,
    or any local part followed by an entry that starts with '@', is
    identified as that institution with that list's marketing flag; the
    compatibility function [isFromMercadoPago] of the multi-institution
    worker accepts it, whichever institution it is. *)
Theorem registry_entries_reach_their_institution (toLowerCase : jsstr -> jsstr)
    (inst : institution) (marketing : bool) (entry local from : jsstr) :
  In inst FINANCIAL_INSTITUTIONS ->
  In entry (entries marketing inst) ->
  extractEmailAddress toLowerCase from = address_of local entry ->
  identifyInstitution toLowerCase from
  = Some (SenderMatch (inst_id inst) (inst_name inst) (inst_type inst) marketing)
  /\ isFromMercadoPago toLowerCase from = true.
Proof.
  intros Hinst Hentry Hfrom.
  pose proof registry_checked as Hc. rewrite Forall_forall in Hc.
  specialize (Hc inst Hinst marketing). rewrite Forall_forall in Hc.
  specialize (Hc entry Hentry). unfold entry_reaches in Hc. unfold address_of in Hfrom.
  assert (H : identifyInstitution toLowerCase from
              = Some (SenderMatch (inst_id inst) (inst_name inst) (inst_type inst) marketing)).
  { unfold identifyInstitution. rewrite Hfrom.
    destruct (startsWith entry (js "@")).
    - destruct Hc as (Hl & Hne & Hi).
      assert (Ht : last_at (local ++ entry) = entry).
      { rewrite last_at_app; [exact Hl|]. rewrite Hl. exact Hne. }
      rewrite <- Ht in Hi. apply identify_by_tail_ok in Hi.
      destruct (local ++ entry) eqn:E; [|exact Hi].
      apply app_eq_nil in E. destruct E as [_ E]. contradiction.
    - destruct Hc as (Hne & Hi). destruct entry; [contradiction|exact Hi]. }
  split; [exact H|]. unfold isFromMercadoPago. rewrite H. reflexivity.
Qed.

(** ** Quoted-printable text *)

Lemma hex_digit_char_range upper d :
  (d < 16)%N ->
  let c := hex_digit_char upper d in
  (48 <= c <= 57 \/ 65 <= c <= 70 \/ 97 <= c <= 102)%N.
Proof.
  intros Hd. unfold hex_digit_char.
  destruct (N.ltb_spec d 10); [lia|]. destruct upper; lia.
Qed.

Lemma hex_value_digit upper d : (d < 16)%N -> hex_value (hex_digit_char upper d) = d.
Proof.
  intros Hd. pose proof (hex_digit_char_range upper Hd) as Hr. cbv zeta in Hr.
  assert (Hc : hex_digit_char upper d
               = (if d <? 10 then 48 + d else if upper then 55 + d else 87 + d)%N)
    by reflexivity.
  unfold hex_value. generalize dependent (hex_digit_char upper d). intros c Hr Hc.
  destruct (N.ltb_spec d 10); [|destruct upper];
    destruct (N.leb_spec 48 c), (N.leb_spec c 57); cbn [andb]; try lia;
    destruct (N.leb_spec 65 c), (N.leb_spec c 70); cbn [andb]; lia.
Qed.

Lemma cs_match_hex upper d :
  (d < 16)%N ->
  cs_match flag_i (cls (range "0" "9" ++ range "A" "F")) (hex_digit_char upper d) = true.
Proof.
  intros Hd. pose proof (hex_digit_char_range upper Hd) as Hr. cbv zeta in Hr.
  unfold cs_match, cls, flag_i. cbn [cs_neg cs_ranges ignoreCase xorb andb].
  change (range "0" "9" ++ range "A" "F") with [(48, 57); (65, 70)]%N.
  apply orb_true_iff. destruct Hr as [Hr|[Hr|Hr]].
  - left. apply in_ranges_spec. exists 48%N, 57%N. split; [simpl; auto|exact Hr].
  - left. apply in_ranges_spec. exists 65%N, 70%N. split; [simpl; auto|exact Hr].
  - right. apply orb_true_iff. left. apply in_ranges_spec. exists 65%N, 70%N.
    split; [simpl; auto|]. destruct (upper1_spec (hex_digit_char upper d)) as [H|[H|[H|H]]]; lia.
Qed.

Lemma cs_match_one_i c x : (c < 65)%N -> cs_match flag_i (one c) x = (x =? c)%N.
Proof.
  intros Hc. destruct (N.eqb_spec x c) as [->|Hne]; [apply cs_match_one_self|].
  destruct (cs_match flag_i (one c) x) eqn:E; [|reflexivity].
  change (one c) with (cls [(c, c)]) in E. apply cs_match_low in E.
  - apply in_ranges_spec in E. destruct E as (a & b & [[= <- <-]|[]] & Hx). lia.
  - intros a b [[= <- <-]|[]]. exact Hc.
Qed.

Lemma soft_break_eq :
  re_soft_break = RSeq (RChar (one 61)) (RSeq (RRep (one 13) 0 (Some 1) true) (RChar (one 10))).
Proof. reflexivity. Qed.

Lemma hex_escape_eq :
  re_hex_escape
  = RSeq (RChar (one 61))
         (RGroup 1 (RRep (cls (range "0" "9" ++ range "A" "F")) 2 (Some 2) true)).
Proof. reflexivity. Qed.

Lemma soft_break_other p pv c tl :
  c <> 61%N -> match_at no_flags re_soft_break p pv (c :: tl) = None.
Proof.
  intros Hc. rewrite soft_break_eq. unfold match_at. cbn [rmatch rest].
  rewrite cs_match_one. destruct (N.eqb_spec c 61); [contradiction|reflexivity].
Qed.

Lemma soft_break_escape p pv h tl :
  h <> 13%N -> h <> 10%N -> match_at no_flags re_soft_break p pv (61%N :: h :: tl) = None.
Proof.
  intros H13 H10. rewrite soft_break_eq. unfold match_at.
  cbn [rmatch rep rest pos prev caps more_allowed andb]. rewrite !cs_match_one.
  cbn [N.eqb Pos.eqb].
  destruct (N.eqb_spec h 13); [contradiction|]. destruct (N.eqb_spec h 10); [contradiction|].
  reflexivity.
Qed.

Lemma soft_break_lf p pv tl :
  exists m, match_at no_flags re_soft_break p pv (61%N :: 10%N :: tl) = Some m
            /\ m_end m = S (S p).
Proof.
  rewrite soft_break_eq. unfold match_at.
  cbn [rmatch rep rest pos prev caps more_allowed andb]. rewrite !cs_match_one.
  cbn [N.eqb Pos.eqb]. eexists. split; reflexivity.
Qed.

Lemma soft_break_crlf p pv tl :
  exists m, match_at no_flags re_soft_break p pv (61%N :: 13%N :: 10%N :: tl) = Some m
            /\ m_end m = S (S (S p)).
Proof.
  rewrite soft_break_eq. unfold match_at.
  cbn [rmatch rep rest pos prev caps more_allowed dec_hi Nat.pred andb]. rewrite !cs_match_one.
  cbn [N.eqb Pos.eqb]. eexists. split; reflexivity.
Qed.

(** The first pass removes the soft line breaks and nothing else. *)
Lemma soft_breaks_removed : forall toks p pv,
  Forall qp_wf toks ->
  replace_at no_flags re_soft_break (fun _ => []) p pv (flat_map qp_text toks)
  = flat_map qp_text (filter (fun t => negb (qp_is_break t)) toks).
Proof.
  induction toks as [|t toks IH]; intros p pv Hwf.
  - apply replace_at_nil. reflexivity.
  - inversion Hwf as [|? ? Ht Hts]; subst. cbn [flat_map filter].
    destruct t as [c|upper b|cr]; cbn [qp_text qp_is_break negb app flat_map qp_wf] in *.
    + rewrite replace_at_miss by (apply soft_break_other, Ht). rewrite IH by exact Hts.
      reflexivity.
    + assert (H1 := @hex_digit_char_range upper (b / 16)).
      assert (H2 := @hex_digit_char_range upper (b mod 16)).
      cbv zeta in H1, H2.
      assert (Hq : (b / 16 < 16)%N) by (apply N.Div0.div_lt_upper_bound; lia).
      assert (Hr : (b mod 16 < 16)%N) by (apply N.mod_lt; lia).
      specialize (H1 Hq). specialize (H2 Hr).
      rewrite replace_at_miss by (apply soft_break_escape; lia).
      rewrite replace_at_miss by (apply soft_break_other; lia).
      rewrite replace_at_miss by (apply soft_break_other; lia).
      rewrite IH by exact Hts. reflexivity.
    + destruct cr; cbn [app].
      * destruct (soft_break_crlf p pv (flat_map qp_text toks)) as (m & Hm & He).
        rewrite (@replace_at_hit _ _ _ _ _ _ _ Hm) by lia. rewrite He.
        replace (S (S (S p)) - p) with 3 by lia. cbn [skipn app]. apply IH, Hts.
      * destruct (soft_break_lf p pv (flat_map qp_text toks)) as (m & Hm & He).
        rewrite (@replace_at_hit _ _ _ _ _ _ _ Hm) by lia. rewrite He.
        replace (S (S p) - p) with 2 by lia. cbn [skipn app]. apply IH, Hts.
Qed.

Lemma hex_escape_other p pv c tl :
  c <> 61%N -> match_at flag_i re_hex_escape p pv (c :: tl) = None.
Proof.
  intros Hc. rewrite hex_escape_eq. unfold match_at. cbn [rmatch rest].
  rewrite cs_match_one_i by lia. destruct (N.eqb_spec c 61); [contradiction|reflexivity].
Qed.

Lemma hex_escape_byte p pv upper b tl :
  (b < 256)%N ->
  exists m, match_at flag_i re_hex_escape p pv
              (61%N :: hex_digit_char upper (b / 16) :: hex_digit_char upper (b mod 16) :: tl)
            = Some m
            /\ m_end m = S (S (S p)) /\ parseInt16 (capture1 m) = b.
Proof.
  intros Hb.
  assert (Hq : (b / 16 < 16)%N) by (apply N.Div0.div_lt_upper_bound; lia).
  assert (Hr : (b mod 16 < 16)%N) by (apply N.mod_lt; lia).
  rewrite hex_escape_eq. unfold match_at.
  cbn [rmatch rep rest pos prev caps more_allowed dec_hi Nat.pred andb].
  rewrite cs_match_one_i by lia. cbn [N.eqb Pos.eqb].
  rewrite (@cs_match_hex upper (b / 16) Hq), (@cs_match_hex upper (b mod 16) Hr).
  destruct tl; (eexists; split; [reflexivity|]; split; [reflexivity|]);
    unfold capture1, group; cbn [m_caps caps pos prev rest find fst snd Nat.eqb];
    replace (S (S (S p)) - S p) with 2 by lia; cbn [firstn];
    unfold parseInt16; cbn [fold_left];
    rewrite (@hex_value_digit upper (b / 16) Hq), (@hex_value_digit upper (b mod 16) Hr);
    pose proof (N.div_mod b 16); lia.
Qed.

(** The second pass decodes the escapes and nothing else. *)
Lemma escapes_decoded : forall toks p pv,
  Forall qp_wf toks -> Forall (fun t => qp_is_break t = false) toks ->
  replace_at flag_i re_hex_escape (fun m => [parseInt16 (capture1 m)]) p pv
             (flat_map qp_text toks)
  = flat_map qp_value toks.
Proof.
  induction toks as [|t toks IH]; intros p pv Hwf Hnb.
  - apply replace_at_nil. reflexivity.
  - inversion Hwf as [|? ? Ht Hts]; subst. inversion Hnb as [|? ? Hb Hbs]; subst.
    cbn [flat_map].
    destruct t as [c|upper b|cr]; cbn [qp_text qp_value qp_is_break app qp_wf] in *;
      [| |discriminate].
    + rewrite replace_at_miss by (apply hex_escape_other, Ht). rewrite IH by assumption.
      reflexivity.
    + destruct (@hex_escape_byte p pv upper b (flat_map qp_text toks) Ht) as (m & Hm & He & Hv).
      rewrite (@replace_at_hit _ _ _ _ _ _ _ Hm) by lia. rewrite He, Hv.
      replace (S (S (S p)) - p) with 3 by lia. cbn [skipn app]. rewrite IH by assumption.
      reflexivity.
Qed.

(** X5. [decodeQuotedPrintable] decodes quoted-printable text: of a text
    made of literal code units other than '=', escapes of a byte written
    with two hexadecimal digits in upper or in lower case, and soft line
    breaks ending with LF or CR LF, it returns the literal code units and
    the bytes in order, the soft line breaks removed. *)
Theorem decodeQuotedPrintable_decodes (toks : list qp_token) :
  Forall qp_wf toks ->
  decodeQuotedPrintable (flat_map qp_text toks) = flat_map qp_value toks.
Proof.
  intros Hwf. unfold decodeQuotedPrintable. rewrite !replace_all_at.
  rewrite soft_breaks_removed by exact Hwf.
  rewrite escapes_decoded.
  - clear Hwf. induction toks as [|t toks IH]; [reflexivity|].
    cbn [filter flat_map]. destruct t; cbn [qp_is_break negb flat_map qp_value app];
      rewrite IH; reflexivity.
  - apply Forall_forall. intros t Ht. apply filter_In in Ht.
    rewrite Forall_forall in Hwf. apply Hwf, Ht.
  - apply Forall_forall. intros t Ht. apply filter_In in Ht.
    destruct Ht as [_ Ht]. apply negb_true_iff, Ht.
Qed.

(** * Instances of the further properties *)

Lemma absent_spec (x : N) (s : jsstr) :
  forallb (fun c => negb (c =? x)%N) s = true -> ~ In x s.
Proof.
  intros H Hin. rewrite forallb_forall in H. specialize (H x Hin).
  rewrite N.eqb_refl in H. discriminate.
Qed.

Lemma holds_spec (f : N -> bool) (s : jsstr) :
  forallb f s = true -> Forall (fun c => f c = true) s.
Proof. intros H. apply Forall_forall. apply forallb_forall, H. Qed.

Lemma fails_spec (f : N -> bool) (s : jsstr) :
  forallb (fun c => negb (f c)) s = true -> Forall (fun c => f c = false) s.
Proof.
  intros H. apply Forall_forall. intros c Hc. rewrite forallb_forall in H.
  apply negb_true_iff, H, Hc.
Qed.

Lemma extractHeader_value_witness :
  extractHeader two_headers "Subject" = Some (js "Pago recibido")
  /\ extractHeader (js "Subject:" ++ nl ++ js "From: a@b.c") "Subject" = Some (js "From: a@b.c").
Proof.
  destruct (extractHeader_value "Subject") as [_ H]. split.
  - assert (E : (js "From: info@mercadopago.com" ++ [13%N; 10%N]) ++ js "SUBJECT" ++ js ":"
                   ++ js "  " ++ js "Pago recibido " ++ [13%N; 10%N] ++ js "To: user_1@jamty.xyz"
                = two_headers) by (vm_compute; reflexivity).
    rewrite <- E.
    rewrite (H (js "From: info@mercadopago.com" ++ [13%N; 10%N]) (js "SUBJECT") (js "  ")
               (js "Pago recibido ") ([13%N; 10%N] ++ js "To: user_1@jamty.xyz")).
    + vm_compute; reflexivity.
    + vm_compute; reflexivity.
    + vm_compute; reflexivity.
    + vm_compute; reflexivity.
    + vm_compute; reflexivity.
    + apply holds_spec. vm_compute; reflexivity.
    + vm_compute; discriminate.
    + apply fails_spec. vm_compute; reflexivity.
    + vm_compute; reflexivity.
    + vm_compute; reflexivity.
  - assert (E : [] ++ js "Subject" ++ js ":" ++ nl ++ js "From: a@b.c" ++ []
                = js "Subject:" ++ nl ++ js "From: a@b.c") by (vm_compute; reflexivity).
    rewrite <- E.
    rewrite (H [] (js "Subject") nl (js "From: a@b.c") []).
    + vm_compute; reflexivity.
    + vm_compute; reflexivity.
    + vm_compute; reflexivity.
    + vm_compute; reflexivity.
    + vm_compute; reflexivity.
    + apply holds_spec. vm_compute; reflexivity.
    + vm_compute; discriminate.
    + apply fails_spec. vm_compute; reflexivity.
    + vm_compute; reflexivity.
    + exact I.
Defined.

Lemma header_line_spec (l : jsstr) :
  match l with [] => false | _ => forallb (fun c => negb (c =? 10)%N && negb (c =? 13)%N) l end
  = true -> header_line l.
Proof.
  intros H. split; [intros ->; discriminate|].
  destruct l as [|x l]; [discriminate|]. apply Forall_forall. intros c Hc.
  rewrite forallb_forall in H. specialize (H c Hc). apply andb_true_iff in H.
  destruct H as [H1 H2]. apply negb_true_iff in H1, H2. apply N.eqb_neq in H1, H2. auto.
Qed.

Lemma extractEmailBody_plain_witness :
  extractEmailBody toLowerCaseLatin1 plain_message
  = js "Hola" ++ nl ++ nl ++ js "Le transferiste a Juan $1.500".
Proof.
  destruct (extractEmailBody_plain toLowerCaseLatin1) as [_ H].
  destruct (H true [js "From: info@mercadopago.com"; js "Subject: Transferiste dinero"]
              (js "Hola" ++ eol true ++ eol true ++ js "Le transferiste a Juan $1.500"))
    as [E _].
  - discriminate.
  - constructor; [|constructor; [|constructor]]; apply header_line_spec; vm_compute; reflexivity.
  - vm_compute; reflexivity.
  - vm_compute; reflexivity.
  - vm_compute; reflexivity.
  - unfold plain_message. rewrite E. vm_compute; reflexivity.
Defined.

Lemma decodeQuotedPrintable_decodes_witness :
  Forall qp_wf qp_sample
  /\ flat_map qp_text qp_sample = js "H=C3=a9=" ++ [13%N; 10%N] ++ js "!"
  /\ decodeQuotedPrintable (flat_map qp_text qp_sample) = [72; 0xC3; 0xA9; 33]%N.
Proof.
  assert (H : Forall qp_wf qp_sample).
  { unfold qp_sample. repeat constructor; cbn [qp_wf]; try discriminate; reflexivity. }
  split; [exact H|]. split; [vm_compute; reflexivity|].
  rewrite (decodeQuotedPrintable_decodes H). reflexivity.
Defined.

Lemma extractEmailAddress_spec_witness :
  js "Mercado Pago <Info@MercadoPago.com>" <> []
  /\ extractEmailAddress toLowerCaseLatin1 (js "Mercado Pago <Info@MercadoPago.com>")
     = js "info@mercadopago.com".
Proof.
  assert (Hne : js "Mercado Pago <Info@MercadoPago.com>" <> []) by (vm_compute; discriminate).
  split; [exact Hne|].
  destruct (extractEmailAddress_spec toLowerCaseLatin1 Hne) as [H _].
  rewrite (H (js "mercado pago ") (js "info@mercadopago.com") []).
  - vm_compute; reflexivity.
  - vm_compute; reflexivity.
  - apply absent_spec. vm_compute; reflexivity.
  - vm_compute; discriminate.
  - apply absent_spec. vm_compute; reflexivity.
Defined.

Lemma registry_entries_reach_their_institution_witness :
  In uala_entry FINANCIAL_INSTITUTIONS
  /\ In (js "@uala.com.ar") (entries false uala_entry)
  /\ extractEmailAddress toLowerCaseLatin1 (js "Avisos <avisos@uala.com.ar>")
     = address_of (js "avisos") (js "@uala.com.ar")
  /\ identifyInstitution toLowerCaseLatin1 (js "Avisos <avisos@uala.com.ar>")
     = Some (SenderMatch (inst_id uala_entry) (inst_name uala_entry) (inst_type uala_entry)
                         false)
  /\ isFromMercadoPago toLowerCaseLatin1 (js "Avisos <avisos@uala.com.ar>") = true.
Proof.
  assert (H1 : In uala_entry FINANCIAL_INSTITUTIONS) by (right; left; reflexivity).
  assert (H2 : In (js "@uala.com.ar") (entries false uala_entry)) by (left; reflexivity).
  assert (H3 : extractEmailAddress toLowerCaseLatin1 (js "Avisos <avisos@uala.com.ar>")
               = address_of (js "avisos") (js "@uala.com.ar")) by (vm_compute; reflexivity).
  split; [exact H1|]. split; [exact H2|]. split; [exact H3|].
  exact (@registry_entries_reach_their_institution toLowerCaseLatin1 uala_entry false
           (js "@uala.com.ar") (js "avisos") (js "Avisos <avisos@uala.com.ar>") H1 H2 H3).
Defined.

Lemma transactions_sent_are_sound_witness :
  Forall sound_transaction
         (posted (email toLowerCaseLatin1 (fun _ _ => AiThrows) (fun _ => None) noon
                        mercadopago_notice))
  /\ match posted (email toLowerCaseLatin1 (fun _ _ => AiThrows) (fun _ => None) noon
                         mercadopago_notice) with
     | [RecTransaction userId tx _ _ _ _ _ _] =>
       userId = js "123" /\ p_type tx = js "transfer_sent"
       /\ p_amount tx = Fin (Qred (150050 # 100)%Q)
     | _ => False
     end
  /\ match posted (email toLowerCaseLatin1 (fun _ _ => AiThrows) (fun _ => None) noon
                         overflow_notice),
           posted (legacy_email toLowerCaseLatin1 (fun _ _ => AiThrows) (fun _ => None) noon
                                overflow_notice) with
     | [RecTransaction _ tx _ _ _ _ _ _], [RecTransaction _ legacy _ _ _ _ _ _] =>
       p_amount tx = PosInf /\ p_amount legacy = PosInf
     | _, _ => False
     end.
Proof.
  split; [|split].
  - exact (proj1 (transactions_sent_are_sound toLowerCaseLatin1 (fun _ _ => AiThrows)
                    (fun _ => None) noon mercadopago_notice)).
  - vm_compute. repeat split; reflexivity.
  - vm_compute. split; reflexivity.
Defined.

Lemma gmail_confirmation_forwarded_witness :
  extractUserId toLowerCaseLatin1 (msg_to gmail_confirmation) = Some (js "42")
  /\ includes (msg_from gmail_confirmation) (js "noreply@google.com") = true
  /\ email toLowerCaseLatin1 (fun _ _ => AiThrows) (fun _ => None) noon gmail_confirmation
     = [Forwarded (js "42") (js "Gmail Forwarding Confirmation")
                  (js "Confirm: https://mail.google.com/mail/vf-abc123-xyz.")
                  (Some (js "https://mail.google.com/mail/vf-abc123-xyz"))].
Proof.
  assert (H1 : extractUserId toLowerCaseLatin1 (msg_to gmail_confirmation) = Some (js "42"))
    by (vm_compute; reflexivity).
  assert (H3 : includes (msg_from gmail_confirmation) (js "noreply@google.com") = true)
    by (vm_compute; reflexivity).
  split; [exact H1|]. split; [exact H3|].
  destruct (@gmail_confirmation_forwarded toLowerCaseLatin1 (fun _ _ => AiThrows)
              (fun _ => None) noon gmail_confirmation (js "42") _ H1 eq_refl H3) as [E _].
  rewrite E. vm_compute; reflexivity.
Defined.

Lemma marketing_sender_never_parsed_witness :
  identifyInstitution toLowerCaseLatin1 (msg_from uala_marketing)
  = Some (SenderMatch (js "uala") (js "Ualá") (js "fintech") true)
  /\ Forall (fun r => taken_as_transaction r = false)
            (posted (email toLowerCaseLatin1 (fun _ _ => AiText (js "transaction"))
                           (fun _ => None) noon uala_marketing))
  /\ posted (email toLowerCaseLatin1 (fun _ _ => AiText (js "transaction"))
                   (fun _ => None) noon uala_marketing)
     = [RecPromotional (js "123") (SenderMatch (js "uala") (js "Ualá") (js "fintech") true)
                       (js "Novedades") (js "marketing domain") noon].
Proof.
  assert (H1 : identifyInstitution toLowerCaseLatin1 (msg_from uala_marketing)
               = Some (SenderMatch (js "uala") (js "Ualá") (js "fintech") true))
    by (vm_compute; reflexivity).
  split; [exact H1|]. split; [|vm_compute; reflexivity].
  exact (proj2 (@marketing_sender_never_parsed toLowerCaseLatin1
                  (fun _ _ => AiText (js "transaction")) (fun _ => None) noon uala_marketing
                  (SenderMatch (js "uala") (js "Ualá") (js "fintech") true) H1 eq_refl)).
Defined.

Lemma extractAmount_needs_marker_witness :
  ~ In 36%N (js "Pagaste 1.500 pesos en Kiosco")
  /\ includes (map upper1 (js "Pagaste 1.500 pesos en Kiosco")) (js "ARS") = false
  /\ extractAmount (js "Pagaste 1.500 pesos en Kiosco") = zero.
Proof.
  assert (H1 : ~ In 36%N (js "Pagaste 1.500 pesos en Kiosco"))
    by (apply absent_spec; vm_compute; reflexivity).
  assert (H2 : includes (map upper1 (js "Pagaste 1.500 pesos en Kiosco")) (js "ARS") = false)
    by (vm_compute; reflexivity).
  split; [exact H1|]. split; [exact H2|].
  exact (proj1 (proj2 (@extractAmount_needs_marker _ H1 H2))).
Defined.

Lemma stripHtml_normal_form_witness :
  stripHtml (js " Hola mundo ") = js "Hola mundo".
Proof.
  rewrite (proj2 (proj2 (proj2 (stripHtml_normal_form (js " Hola mundo "))))).
  - vm_compute; reflexivity.
  - apply absent_spec; vm_compute; reflexivity.
  - apply absent_spec; vm_compute; reflexivity.
  - vm_compute; reflexivity.
Defined.

Lemma parsed_fields_shape_witness :
  p_counterparty (parseTransaction toLowerCaseLatin1 (fun _ _ => AiThrows)
                                   transfer_subject transfer_body)
  = Some (js "Juan Perez")
  /\ occurs_in (js "Juan Perez") (transfer_subject ++ js " " ++ transfer_body).
Proof.
  assert (E : p_counterparty (parseTransaction toLowerCaseLatin1 (fun _ _ => AiThrows)
                                               transfer_subject transfer_body)
              = Some (js "Juan Perez")) by (vm_compute; reflexivity).
  split; [exact E|].
  destruct (parsed_fields_shape toLowerCaseLatin1 (fun _ _ => AiThrows)
                                transfer_subject transfer_body) as (_ & _ & H & _).
  exact (proj2 (H _ E)).
Defined.

Lemma handleGmailVerification_code_witness :
  handleGmailVerification (js "Confirmation code: 123456789") (js "x")
  = CodeLogged (js "123456789")
  /\ nine_digits (js "123456789").
Proof.
  assert (E : handleGmailVerification (js "Confirmation code: 123456789") (js "x")
              = CodeLogged (js "123456789")) by (vm_compute; reflexivity).
  split; [exact E|].
  destruct (handleGmailVerification_code (js "Confirmation code: 123456789") (js "x"))
    as (_ & H & _).
  exact (proj1 (H _ E)).
Defined.
